(** * sql_flow_analyzer: lineage extraction and rendering

    A shallow embedding of [sql_analyzer/sql_parser.py] and of the node pass
    of [sql_analyzer/visualizer.py].

    Modelling conventions.
    - A Python [str] is a [string]; the development covers ASCII text
      (case mapping, white space and identifier classes are the ASCII
      restrictions of Python's).
    - The [re] module is embedded as a backtracking matcher over a small
      regular-expression syntax; every pattern of the source is written as a
      term of that syntax.
    - [sqlparse] is an external library: its [split] and [parse] entry
      points, and the iteration order of a Python [set] of strings, are fields
      of a [Runtime] record that every operation takes as an argument.
    - An uncaught Python exception is the [Raise] branch of [result]. *)

From Stdlib Require Import String Ascii List Bool Arith ZArith Lia Permutation.
Import ListNotations.
Open Scope list_scope.
Open Scope string_scope.

(** ** Python string primitives (ASCII) *)

Module Py.

Definition code (c : ascii) : nat := nat_of_ascii c.

Definition in_range (lo hi : nat) (c : ascii) : bool :=
  Nat.leb lo (code c) && Nat.leb (code c) hi.

Definition is_lower (c : ascii) : bool := in_range 97 122 c.
Definition is_upper (c : ascii) : bool := in_range 65 90 c.
Definition is_digit (c : ascii) : bool := in_range 48 57 c.

(** [str.isspace] on one ASCII character; also the class [\s] of [re]. *)
Definition is_space (c : ascii) : bool :=
  in_range 9 13 c || in_range 28 32 c.

Definition upper_char (c : ascii) : ascii :=
  if is_lower c then ascii_of_nat (code c - 32) else c.

Definition lower_char (c : ascii) : ascii :=
  if is_upper c then ascii_of_nat (code c + 32) else c.

Fixpoint smap (f : ascii -> ascii) (s : string) : string :=
  match s with
  | EmptyString => EmptyString
  | String c s' => String (f c) (smap f s')
  end.

(** [s.upper()] and [s.lower()]. *)
Definition upper (s : string) : string := smap upper_char s.
Definition lower (s : string) : string := smap lower_char s.

(** [s.startswith(p)]. *)
Fixpoint startswith (p s : string) : bool :=
  match p, s with
  | EmptyString, _ => true
  | String a p', String b s' => Ascii.eqb a b && startswith p' s'
  | String _ _, EmptyString => false
  end.

(** [sub in s]. *)
Fixpoint contains (sub s : string) : bool :=
  startswith sub s ||
  match s with
  | EmptyString => false
  | String _ s' => contains sub s'
  end.

Fixpoint drop (n : nat) (s : string) : string :=
  match n, s with
  | O, _ => s
  | S n', String _ s' => drop n' s'
  | S _, EmptyString => EmptyString
  end.

Fixpoint take (n : nat) (s : string) : string :=
  match n, s with
  | S n', String c s' => String c (take n' s')
  | _, _ => EmptyString
  end.

(** [s.endswith(p)]. *)
Definition endswith (p s : string) : bool :=
  Nat.leb (String.length p) (String.length s) &&
  String.eqb (drop (String.length s - String.length p) s) p.

Fixpoint lstrip (s : string) : string :=
  match s with
  | String c s' => if is_space c then lstrip s' else s
  | EmptyString => EmptyString
  end.

Fixpoint rstrip (s : string) : string :=
  match s with
  | EmptyString => EmptyString
  | String c s' =>
      match rstrip s' with
      | EmptyString => if is_space c then EmptyString else String c EmptyString
      | t => String c t
      end
  end.

(** [s.strip()]. *)
Definition strip (s : string) : string := rstrip (lstrip s).

(** [s.split(sep, 1)] read as a pair: the text before and after the first
    occurrence of [sep].  Without an occurrence Python returns the one-element
    list [[s]]; the pair is then [s] and the empty string, a case the callers exclude by
    testing [sep in s] first. *)
Fixpoint split_once (sep s : string) : string * string :=
  if startswith sep s then (EmptyString, drop (String.length sep) s)
  else match s with
       | EmptyString => (EmptyString, EmptyString)
       | String c s' => let '(a, b) := split_once sep s' in (String c a, b)
       end.

(** [s.split(c)[0]] for a one-character separator. *)
Fixpoint first_segment (c : ascii) (s : string) : string :=
  match s with
  | EmptyString => EmptyString
  | String a s' => if Ascii.eqb a c then EmptyString else String a (first_segment c s')
  end.

(** [s.split(c)[-1]] for a one-character separator. *)
Fixpoint last_segment (c : ascii) (s : string) : string :=
  match s with
  | EmptyString => EmptyString
  | String a s' =>
      if contains (String c EmptyString) s' then last_segment c s'
      else if Ascii.eqb a c then s' else s
  end.

(** [s.replace(a, b)] for one-character [a] and [b]. *)
Definition replace_char (a b : ascii) (s : string) : string :=
  smap (fun c => if Ascii.eqb c a then b else c) s.

(** [sep.join(l)]. *)
Fixpoint join (sep : string) (l : list string) : string :=
  match l with
  | [] => EmptyString
  | [x] => x
  | x :: l' => x ++ sep ++ join sep l'
  end.

Definition nonempty (s : string) : bool :=
  match s with EmptyString => false | String _ _ => true end.

End Py.

(** ** The [re] module: a backtracking matcher *)

Module Re.

Import Py.

(** The fragment of pattern syntax the source uses.  Repetition only occurs
    over single-character classes ([\s*], [\s+], [.*?], [[a-zA-Z0-9_]*],
    [\w+]), so [StarG] and [StarL] take a class. *)
Inductive regex : Type :=
| Eps
| Lit (ignorecase : bool) (s : string)     (* literal text *)
| Cls (p : ascii -> bool)                  (* one character of a class *)
| Seq (r1 r2 : regex)
| Alt (r1 r2 : regex)                      (* r1|r2, left first *)
| StarG (p : ascii -> bool)                (* greedy  p*  *)
| StarL (p : ascii -> bool)                (* lazy    p*? *)
| Grp (n : nat) (r : regex)                (* capturing group number n *)
| Ahead (r : regex)                        (* (?=r) *)
| Eos.                                     (* $ without re.MULTILINE *)

Definition caps := list (nat * string).

Fixpoint group (n : nat) (c : caps) : string :=
  match c with
  | [] => EmptyString
  | (m, s) :: c' => if Nat.eqb n m then s else group n c'
  end.

Definition lit_match (ignorecase : bool) (p s : string) : bool :=
  if ignorecase then startswith (lower p) (lower s) else startswith p s.

Section Matcher.
Context {R : Type}.

Fixpoint starG (p : ascii -> bool) (s : string) (n : nat) (c : caps)
         (k : string -> nat -> caps -> option R) : option R :=
  match s with
  | String a s' =>
      if p a then
        match starG p s' (S n) c k with
        | Some x => Some x
        | None => k s n c
        end
      else k s n c
  | EmptyString => k s n c
  end.

Fixpoint starL (p : ascii -> bool) (s : string) (n : nat) (c : caps)
         (k : string -> nat -> caps -> option R) : option R :=
  match k s n c with
  | Some x => Some x
  | None =>
      match s with
      | String a s' => if p a then starL p s' (S n) c k else None
      | EmptyString => None
      end
  end.
End Matcher.

(** [exec r s n c k]: match [r] at the start of [s], [n] characters into the
    attempt, then hand the rest of the text, the new count and the groups to
    [k]; [None] from [k] makes the matcher backtrack, in the order Python's
    engine tries the alternatives. *)
Fixpoint exec (r : regex) :
  forall R : Type,
    string -> nat -> caps -> (string -> nat -> caps -> option R) -> option R :=
  match r with
  | Eps => fun R s n c k => k s n c
  | Lit ic p => fun R s n c k =>
      if lit_match ic p s
      then k (drop (String.length p) s) (n + String.length p) c
      else None
  | Cls p => fun R s n c k =>
      match s with
      | String a s' => if p a then k s' (S n) c else None
      | EmptyString => None
      end
  | Seq r1 r2 => fun R s n c k =>
      exec r1 R s n c (fun s' n' c' => exec r2 R s' n' c' k)
  | Alt r1 r2 => fun R s n c k =>
      match exec r1 R s n c k with
      | Some x => Some x
      | None => exec r2 R s n c k
      end
  | StarG p => fun R s n c k => starG p s n c k
  | StarL p => fun R s n c k => starL p s n c k
  | Grp g r1 => fun R s n c k =>
      exec r1 R s n c (fun s' n' c' => k s' n' ((g, take (n' - n) s) :: c'))
  | Ahead r1 => fun R s n c k =>
      match exec r1 caps s n c (fun _ _ c' => Some c') with
      | Some c' => k s n c'
      | None => None
      end
  | Eos => fun R s n c k =>
      match s with
      | EmptyString => k s n c
      | String a EmptyString =>
          if Ascii.eqb a "010"%char then k s n c else None
      | _ => None
      end
  end.

(** A match anchored at the start of [s]: the groups and the number of
    characters matched. *)
Definition match_at (r : regex) (s : string) : option (caps * nat) :=
  exec r (caps * nat) s 0 [] (fun _ n c => Some (c, n)).

(** [re.search]: the leftmost match. *)
Fixpoint search (r : regex) (s : string) : option caps :=
  match match_at r s with
  | Some (c, _) => Some c
  | None =>
      match s with
      | String _ s' => search r s'
      | EmptyString => None
      end
  end.

(** [re.finditer]: successive non-overlapping matches, left to right.
    [skip] counts the characters still covered by the previous match.  (The
    patterns of the source all start with a keyword or an identifier
    character, so no match is empty.) *)
Fixpoint finditer_from (r : regex) (s : string) (skip : nat) : list caps :=
  match skip with
  | S n =>
      match s with
      | String _ s' => finditer_from r s' n
      | EmptyString => []
      end
  | O =>
      match match_at r s with
      | Some (c, len) =>
          c :: match s with
               | String _ s' => finditer_from r s' (len - 1)
               | EmptyString => []
               end
      | None =>
          match s with
          | String _ s' => finditer_from r s' 0
          | EmptyString => []
          end
      end
  end.

Definition finditer (r : regex) (s : string) : list caps := finditer_from r s 0.

(** [re.findall] for a pattern with one group, and with two. *)
Definition findall1 (r : regex) (s : string) : list string :=
  map (group 1) (finditer r s).

Definition findall2 (r : regex) (s : string) : list (string * string) :=
  map (fun c => (group 1 c, group 2 c)) (finditer r s).

(** Pattern-building shorthands. *)
Definition any : ascii -> bool := fun _ => true.          (* . with re.DOTALL *)
Definition plus (p : ascii -> bool) : regex := Seq (Cls p) (StarG p).
Definition opt (r : regex) : regex := Alt r Eps.
Definition is_alpha_ (c : ascii) : bool :=
  is_lower c || is_upper c || Ascii.eqb c "_"%char.      (* [a-zA-Z_] *)
Definition is_word (c : ascii) : bool :=
  is_alpha_ c || is_digit c.                              (* [a-zA-Z0-9_], \w *)

Fixpoint seqs (l : list regex) : regex :=
  match l with
  | [] => Eps
  | [r] => r
  | r :: l' => Seq r (seqs l')
  end.

Fixpoint alts (l : list regex) : regex :=
  match l with
  | [] => Eps
  | [r] => r
  | r :: l' => Alt r (alts l')
  end.

End Re.

(** ** Exceptions *)

Inductive exn : Type :=
| IndexError.     (* [sqlparse.parse(text)[0]] on an empty tuple *)

Inductive result (A : Type) : Type :=
| Ok (a : A)
| Raise (e : exn).
Arguments Ok {A} a.
Arguments Raise {A} e.

Definition bind {A B : Type} (m : result A) (f : A -> result B) : result B :=
  match m with
  | Ok a => f a
  | Raise e => Raise e
  end.

Notation "x <- m ;; f" := (bind m (fun x => f))
  (at level 61, m at next level, right associativity).

(** A [for] loop whose body may raise: the state is threaded from left to
    right and the first exception ends the loop. *)
Fixpoint for_each {A S : Type} (body : S -> A -> result S) (l : list A) (st : S)
  : result S :=
  match l with
  | [] => Ok st
  | x :: l' => st' <- body st x ;; for_each body l' st'
  end.

(** ** External collaborators *)

(** What the analyzer reads from a [sqlparse] statement object:
    [str(parsed)] and [parsed.get_type()]. *)
Record Statement : Type := {
  stmt_str : string;
  get_type : string
}.

(** [sqlparse.split], [sqlparse.parse] (the tuple it returns, as a list) and
    the order in which the interpreter iterates over a [set] of strings built
    by inserting the given sequence (it depends on the process's string hash,
    not on the program). *)
Record Runtime : Type := {
  sqlparse_split : string -> list string;
  sqlparse_parse : string -> list Statement;
  set_iter : list string -> list string
}.

(** [sqlparse.parse(text)[0]]. *)
Definition parse_first (rt : Runtime) (text : string) : result Statement :=
  match sqlparse_parse rt text with
  | [] => Raise IndexError
  | st :: _ => Ok st
  end.

(** ** Data model ([sql_parser.py], lines 6-24) *)

Record Column : Type := {
  name : string;
  source_table : option string;
  transformation : option string
}.

Record TableRelation : Type := {
  source : string;
  target : string;
  operation : string;          (* EXTRACT, TRANSFORM, LOAD, MERGE, AUDIT *)
  columns : list Column;
  conditions : list string
}.

(** The deduplication key of a relation. *)
Definition key (rel : TableRelation) : string * string * string :=
  (source rel, target rel, operation rel).

Definition key_eqb (a b : string * string * string) : bool :=
  let '(a1, a2, a3) := a in
  let '(b1, b2, b3) := b in
  String.eqb a1 b1 && String.eqb a2 b2 && String.eqb a3 b3.

(** An insertion-ordered Python [dict] with string keys. *)
Module Dict.
Definition t (V : Type) : Type := list (string * V).

Definition mem {V} (k : string) (d : t V) : bool :=
  existsb (fun kv => String.eqb k (fst kv)) d.

(** [d[k] = v]: an existing key keeps its position. *)
Fixpoint set {V} (k : string) (v : V) (d : t V) : t V :=
  match d with
  | [] => [(k, v)]
  | (k', v') :: d' =>
      if String.eqb k k' then (k, v) :: d' else (k', v') :: set k v d'
  end.

Definition keys {V} (d : t V) : list string := map fst d.
End Dict.

(** The instance fields of [SQLParser]. *)
Record SQLParser : Type := {
  relations : list TableRelation;
  tables : list string;                 (* a set: only ever added to *)
  ctes : Dict.t (list Column)
}.

(** [SQLParser.__init__]. *)
Definition SQLParser_init : SQLParser :=
  {| relations := []; tables := []; ctes := [] |}.

Definition append_relation (self : SQLParser) (rel : TableRelation) : SQLParser :=
  {| relations := (relations self ++ [rel])%list;
     tables := tables self;
     ctes := ctes self |}.

Definition set_cte (self : SQLParser) (k : string) (v : list Column) : SQLParser :=
  {| relations := relations self;
     tables := tables self;
     ctes := Dict.set k v (ctes self) |}.

Definition add_table (self : SQLParser) (t : string) : SQLParser :=
  {| relations := relations self;
     tables := if existsb (String.eqb t) (tables self) then tables self
               else (tables self ++ [t])%list;
     ctes := ctes self |}.

(** ** The patterns of [sql_parser.py] *)

Module Pat.
Import Py Re.

Definition kw (s : string) : regex := Lit true s.     (* under re.IGNORECASE *)
Definition tx (s : string) : regex := Lit false s.
Definition ws1 : regex := plus is_space.              (* \s+ *)
Definition ws0 : regex := StarG is_space.             (* \s* *)

(** [[a-zA-Z_][a-zA-Z0-9_]*] *)
Definition bare : regex := Seq (Cls is_alpha_) (StarG is_word).

(** a bare identifier, optionally followed by a dot and a second one *)
Definition ident : regex := Seq bare (opt (Seq (tx ".") bare)).

(** line 194 *)
Definition table_pattern : regex :=
  seqs [kw "CREATE"; ws1; kw "TABLE"; ws1;
        opt (seqs [kw "IF"; ws1; kw "NOT"; ws1; kw "EXISTS"; ws1]);
        Grp 1 ident].

(** line 206 *)
Definition proc_pattern : regex :=
  seqs [kw "CREATE"; ws1; opt (seqs [kw "OR"; ws1; kw "REPLACE"; ws1]);
        kw "PROCEDURE"; ws1; Grp 1 ident].

(** line 213: [BEGIN(.*?)(?=EXCEPTION|END;)] *)
Definition body_pattern : regex :=
  seqs [kw "BEGIN"; Grp 1 (StarL any);
        Ahead (alts [kw "EXCEPTION"; kw "END;"])].

(** line 221: [WITH(.*?)(?=INSERT\s+INTO|MERGE|$)] *)
Definition with_pattern : regex :=
  seqs [kw "WITH"; Grp 1 (StarL any);
        Ahead (alts [seqs [kw "INSERT"; ws1; kw "INTO"]; kw "MERGE"; Eos])].

(** line 227, compiled with re.DOTALL only: the keywords are case-sensitive *)
Definition proc_cte_pattern : regex :=
  seqs [Grp 1 bare; ws1; tx "AS"; ws0; tx "("; Grp 2 (StarL any);
        Ahead (alts [seqs [ws1; bare; ws1; tx "AS"];
                     seqs [ws0; tx ")"; ws0;
                           alts [tx "INSERT"; tx "MERGE"; Eos]]])].

(** lines 237, 273, 384, 420, 465, 499 *)
Definition from_pattern : regex := seqs [kw "FROM"; ws1; Grp 1 ident].

(** lines 240, 276 *)
Definition proc_join_pattern : regex :=
  seqs [alts [seqs [kw "INNER"; ws1; kw "JOIN"];
              seqs [kw "LEFT"; ws1; kw "JOIN"];
              seqs [kw "RIGHT"; ws1; kw "JOIN"];
              kw "JOIN"];
        ws1; Grp 1 ident].

(** lines 387, 423, 468, 502 *)
Definition join_pattern : regex := seqs [kw "JOIN"; ws1; Grp 1 ident].

(** line 261 *)
Definition proc_insert_pattern : regex :=
  seqs [kw "INSERT"; ws1; kw "INTO"; ws1; Grp 1 ident; ws0;
        tx "("; Grp 2 (StarL any); tx ")"; ws0; kw "SELECT"; ws0;
        Grp 3 (StarL any);
        alts [tx ";"; seqs [ws0; kw "ON"; ws1; kw "CONFLICT"]; seqs [ws0; Eos]]].

(** line 315: [SELECT\s+(.*?)\s+FROM] *)
Definition select_pattern : regex :=
  seqs [kw "SELECT"; ws1; Grp 1 (StarL any); ws1; kw "FROM"].

(** line 369: [WITH\s+(.*?)(?:INSERT|MERGE|SELECT\s+\*|SELECT\s+[a-zA-Z_])] *)
Definition cte_pattern : regex :=
  seqs [kw "WITH"; ws1; Grp 1 (StarL any);
        alts [kw "INSERT"; kw "MERGE";
              seqs [kw "SELECT"; ws1; tx "*"];
              seqs [kw "SELECT"; ws1; Cls is_alpha_]]].

(** line 375, compiled with re.DOTALL only:
    [(\w+)\s+AS\s*\((.*?)\)(?:\s*,|\s*$)] *)
Definition cte_split_pattern : regex :=
  seqs [Grp 1 (plus is_word); ws1; tx "AS"; ws0; tx "("; Grp 2 (StarL any);
        tx ")"; alts [seqs [ws0; tx ","]; seqs [ws0; Eos]]].

(** line 411 *)
Definition insert_pattern : regex :=
  seqs [kw "INSERT"; ws1; kw "INTO"; ws1; Grp 1 ident].

(** line 451 *)
Definition merge_pattern : regex :=
  seqs [kw "MERGE"; ws1; kw "INTO"; ws1; Grp 1 ident].

(** line 460: [USING\s*\((.*?)\)\s*AS] *)
Definition using_pattern : regex :=
  seqs [kw "USING"; ws0; tx "("; Grp 1 (StarL any); tx ")"; ws0; kw "AS"].

(** line 490 *)
Definition view_pattern : regex :=
  seqs [kw "CREATE"; ws1; kw "MATERIALIZED"; ws1; kw "VIEW"; ws1; Grp 1 ident].
End Pat.

(** ** Column projection parsing ([_extract_columns], lines 310-363) *)

Import Py.

(** The character loop of lines 321-334: [depth], [current] and
    [columns_raw] are the loop's three variables. *)
Fixpoint split_loop (column_list : string) (depth : Z) (current : string)
         (columns_raw : list string) : string * list string :=
  match column_list with
  | EmptyString => (current, columns_raw)
  | String char rest =>
      if Ascii.eqb char "("%char then
        split_loop rest (depth + 1) (current ++ String char EmptyString) columns_raw
      else if Ascii.eqb char ")"%char then
        split_loop rest (depth - 1) (current ++ String char EmptyString) columns_raw
      else if Ascii.eqb char ","%char && (depth =? 0)%Z then
        split_loop rest depth EmptyString (columns_raw ++ [strip current])%list
      else
        split_loop rest depth (current ++ String char EmptyString) columns_raw
  end.

(** Lines 321-337: the raw projection expressions. *)
Definition split_columns (column_list : string) : list string :=
  let '(current, columns_raw) := split_loop column_list 0 EmptyString [] in
  if nonempty current then (columns_raw ++ [strip current])%list else columns_raw.

(** Line 354. *)
Definition transformation_markers : list string :=
  ["SUM("; "COUNT("; "AVG("; "COALESCE("; "CASE"; "DATE_TRUNC("; "CAST(";
   "UPPER("; "LOWER("; "TRIM("; "CONCAT("].

(** Line 341: the alias test. *)
Definition has_alias (col : string) : bool := contains " AS " (upper col).

(** Lines 340-361: the [Column] of one raw expression. *)
Definition column_of (col : string) : Column :=
  let '(expr, name) :=
    if has_alias col then split_once " AS " (upper col)
    else (col, if contains "." col then last_segment "."%char col else col) in
  let source_table :=
    if contains "." expr then Some (strip (first_segment "."%char expr))
    else None in
  let transformation :=
    if existsb (fun fn => contains fn (upper expr)) transformation_markers
    then Some expr else None in
  {| name := strip name;
     source_table := source_table;
     transformation := transformation |}.

(** [_extract_columns], applied to [str(statement)]. *)
Definition _extract_columns (sql_str : string) : list Column :=
  match Re.search Pat.select_pattern sql_str with
  | Some select_match => map column_of (split_columns (Re.group 1 select_match))
  | None => []
  end.

(** ** Statement processors *)

Definition mk_relation (src tgt op : string) (cols : list Column) : TableRelation :=
  {| source := src; target := tgt; operation := op;
     columns := cols; conditions := [] |}.

(** [_process_create_table], lines 189-199. *)
Definition _process_create_table (self : SQLParser) (statement : Statement)
  : SQLParser :=
  match Re.search Pat.table_pattern (stmt_str statement) with
  | Some table_match => add_table self (Re.group 1 table_match)
  | None => self
  end.

(** The relation loop shared by the CTE paths (lines 244-258, 391-405):
    a source already in the registry is a TRANSFORM, any other an EXTRACT. *)
Definition cte_source_loop (cte_name : string) (cols : list Column)
           (sources : list string) (self : SQLParser) : SQLParser :=
  fold_left
    (fun self src =>
       let op := if Dict.mem src (ctes self) then "TRANSFORM" else "EXTRACT" in
       append_relation self (mk_relation src cte_name op cols))
    sources self.

(** The classification of lines 281-285 and 431-435. *)
Definition insert_operation (self : SQLParser) (src target_table : string) : string :=
  if contains "staging" (lower src) || Dict.mem src (ctes self) then "TRANSFORM"
  else if contains "audit" (lower target_table) then "AUDIT"
  else "LOAD".

Definition insert_source_loop (target_table : string) (cols : list Column)
           (sources : list string) (self : SQLParser) : SQLParser :=
  fold_left
    (fun self src =>
       append_relation self
         (mk_relation src target_table (insert_operation self src target_table) cols))
    sources self.

(** One CTE of a procedure body, lines 230-258. *)
Definition proc_cte_body (rt : Runtime) (self : SQLParser)
           (cte : string * string) : result SQLParser :=
  let '(cte_name, cte_query) := cte in
  cte_parsed <- parse_first rt cte_query ;;
  let cols := _extract_columns (stmt_str cte_parsed) in
  let self := set_cte self cte_name cols in
  let source_tables := Re.findall1 Pat.from_pattern cte_query in
  let join_tables := Re.findall1 Pat.proc_join_pattern cte_query in
  Ok (cte_source_loop cte_name cols (source_tables ++ join_tables)%list self).

(** One WITH section of a procedure body, lines 224-258. *)
Definition proc_with_body (rt : Runtime) (self : SQLParser)
           (with_match : Re.caps) : result SQLParser :=
  let cte_section := Re.group 1 with_match in
  for_each (proc_cte_body rt) (Re.findall2 Pat.proc_cte_pattern cte_section) self.

(** Lines 297-308: one more relation per registered CTE named in the SELECT. *)
Definition cte_reference_loop (target_table select_str : string)
           (cols : list Column) (self : SQLParser) : SQLParser :=
  fold_left
    (fun self cte_name =>
       if contains cte_name select_str then
         append_relation self
           (mk_relation cte_name target_table
              (if negb (endswith "_audit" (lower target_table)) then "LOAD"
               else "AUDIT")
              cols)
       else self)
    (Dict.keys (ctes self)) self.

(** One INSERT of a procedure body, lines 264-308. *)
Definition proc_insert_body (rt : Runtime) (self : SQLParser)
           (insert_match : Re.caps) : result SQLParser :=
  let target_table := Re.group 1 insert_match in
  let select_str := Re.group 3 insert_match in
  select_parsed <- parse_first rt ("SELECT " ++ select_str) ;;
  let cols := _extract_columns (stmt_str select_parsed) in
  let source_tables := Re.findall1 Pat.from_pattern select_str in
  let join_tables := Re.findall1 Pat.proc_join_pattern select_str in
  let self :=
    insert_source_loop target_table cols (source_tables ++ join_tables)%list self in
  Ok (cte_reference_loop target_table select_str cols self).

(** [_process_procedure], lines 201-308. *)
Definition _process_procedure (rt : Runtime) (self : SQLParser)
           (statement : Statement) : result SQLParser :=
  let sql_str := stmt_str statement in
  match Re.search Pat.proc_pattern sql_str with
  | None => Ok self
  | Some _ =>
      match Re.search Pat.body_pattern sql_str with
      | None => Ok self
      | Some body_match =>
          let body := Re.group 1 body_match in
          self <- for_each (proc_with_body rt) (Re.finditer Pat.with_pattern body) self ;;
          for_each (proc_insert_body rt) (Re.finditer Pat.proc_insert_pattern body) self
      end
  end.

(** One CTE of a bare WITH statement, lines 377-405. *)
Definition cte_body (rt : Runtime) (self : SQLParser)
           (cte : string * string) : result SQLParser :=
  let '(cte_name, cte_query) := cte in
  cte_parsed <- parse_first rt cte_query ;;
  let cols := _extract_columns (stmt_str cte_parsed) in
  let self := set_cte self cte_name cols in
  let source_tables := Re.findall1 Pat.from_pattern cte_query in
  let join_tables := Re.findall1 Pat.join_pattern cte_query in
  Ok (cte_source_loop cte_name cols (source_tables ++ join_tables)%list self).

(** [_process_cte_statement], lines 365-405. *)
Definition _process_cte_statement (rt : Runtime) (self : SQLParser)
           (statement : Statement) : result SQLParser :=
  match Re.search Pat.cte_pattern (stmt_str statement) with
  | None => Ok self
  | Some cte_match =>
      let cte_section := Re.group 1 cte_match in
      for_each (cte_body rt) (Re.findall2 Pat.cte_split_pattern cte_section) self
  end.

(** [_process_insert], lines 407-445. *)
Definition _process_insert (self : SQLParser) (statement : Statement) : SQLParser :=
  let sql_str := stmt_str statement in
  match Re.findall1 Pat.insert_pattern sql_str with
  | [] => self
  | target_table :: _ =>
      let source_tables := Re.findall1 Pat.from_pattern sql_str in
      let join_tables := Re.findall1 Pat.join_pattern sql_str in
      let cols := _extract_columns sql_str in
      insert_source_loop target_table cols (source_tables ++ join_tables)%list self
  end.

(** [_process_merge], lines 447-484. *)
Definition _process_merge (rt : Runtime) (self : SQLParser)
           (statement : Statement) : result SQLParser :=
  let sql_str := stmt_str statement in
  match Re.findall1 Pat.merge_pattern sql_str with
  | [] => Ok self
  | target_table :: _ =>
      match Re.search Pat.using_pattern sql_str with
      | None => Ok self
      | Some using_match =>
          let subquery := Re.group 1 using_match in
          let source_tables := Re.findall1 Pat.from_pattern subquery in
          let join_tables := Re.findall1 Pat.join_pattern subquery in
          sub_parsed <- parse_first rt subquery ;;
          let cols := _extract_columns (stmt_str sub_parsed) in
          Ok (fold_left
                (fun self src =>
                   append_relation self (mk_relation src target_table "MERGE" cols))
                (source_tables ++ join_tables)%list self)
      end
  end.

(** [_process_materialized_view], lines 486-518. *)
Definition _process_materialized_view (self : SQLParser) (statement : Statement)
  : SQLParser :=
  let sql_str := stmt_str statement in
  match Re.search Pat.view_pattern sql_str with
  | None => self
  | Some view_match =>
      let view_name := Re.group 1 view_match in
      let source_tables := Re.findall1 Pat.from_pattern sql_str in
      let join_tables := Re.findall1 Pat.join_pattern sql_str in
      let cols := _extract_columns sql_str in
      fold_left
        (fun self src =>
           append_relation self (mk_relation src view_name "TRANSFORM" cols))
        (source_tables ++ join_tables)%list self
  end.

(** ** [str(columns)]: the [repr] of a list of [Column] dataclass objects *)

Module Repr.
Definition squote : ascii := "'"%char.
Definition dquote : ascii := "034"%char.
Definition backslash : ascii := "\"%char.

Definition hex_digit (n : nat) : ascii :=
  if Nat.ltb n 10 then ascii_of_nat (48 + n) else ascii_of_nat (87 + n).

(** [repr] picks the double quote exactly when the text holds a single
    quote and no double quote. *)
Definition quote_of (s : string) : ascii :=
  if contains (String squote EmptyString) s
     && negb (contains (String dquote EmptyString) s)
  then dquote else squote.

Definition escape_char (q c : ascii) : string :=
  if Ascii.eqb c backslash || Ascii.eqb c q then String backslash (String c EmptyString)
  else if Ascii.eqb c "009"%char then String backslash "t"
  else if Ascii.eqb c "010"%char then String backslash "n"
  else if Ascii.eqb c "013"%char then String backslash "r"
  else if Nat.ltb (code c) 32 || Nat.eqb (code c) 127 then
    String backslash
      (String "x" (String (hex_digit (code c / 16))
                     (String (hex_digit (code c mod 16)) EmptyString)))
  else String c EmptyString.

Fixpoint escape (q : ascii) (s : string) : string :=
  match s with
  | EmptyString => EmptyString
  | String c s' => escape_char q c ++ escape q s'
  end.

Definition of_str (s : string) : string :=
  let q := quote_of s in
  String q (escape q s ++ String q EmptyString).

Definition of_opt (o : option string) : string :=
  match o with
  | None => "None"
  | Some s => of_str s
  end.

Definition of_column (c : Column) : string :=
  "Column(name=" ++ of_str (name c)
    ++ ", source_table=" ++ of_opt (source_table c)
    ++ ", transformation=" ++ of_opt (transformation c) ++ ")".

Definition of_columns (l : list Column) : string :=
  "[" ++ join ", " (map of_column l) ++ "]".
End Repr.

(** ** [parse_queries] (lines 26-187) *)

(** Lines 52-59 and 177-184: keep the first relation of every key. *)
Fixpoint dedup_from (seen : list (string * string * string))
         (rels : list TableRelation) : list TableRelation :=
  match rels with
  | [] => []
  | rel :: rels' =>
      if existsb (key_eqb (key rel)) seen then dedup_from seen rels'
      else rel :: dedup_from (key rel :: seen) rels'
  end.

Definition dedup (rels : list TableRelation) : list TableRelation :=
  dedup_from [] rels.

(** The enrichment passes; [registry] is [self.ctes], [unique] the
    deduplicated relations of the statement loop. *)
Section Passes.
Variable rt : Runtime.
Variable registry : Dict.t (list Column).
Variable unique : list TableRelation.

(** Lines 63-76. *)
Definition cte_chaining : list TableRelation :=
  flat_map (fun rel =>
    if Dict.mem (target rel) registry then
      flat_map (fun other_rel =>
        if String.eqb (source other_rel) (target rel) then
          [mk_relation (source rel) (target other_rel) "TRANSFORM" (columns other_rel)]
        else []) unique
    else []) unique.

(** Lines 80-93. *)
Definition audit_propagation : list TableRelation :=
  flat_map (fun rel =>
    if endswith "_audit" (lower (target rel)) then
      flat_map (fun other_rel =>
        if String.eqb (target other_rel) (source rel) then
          [mk_relation (source other_rel) (target rel) "AUDIT" (columns rel)]
        else []) unique
    else []) unique.

(** Line 100: the set of LOAD targets, in the interpreter's order. *)
Definition final_targets : list string :=
  set_iter rt
    (map target (filter (fun r => String.eqb (operation r) "LOAD") unique)).

(** Lines 97-110. *)
Definition staging_propagation : list TableRelation :=
  flat_map (fun rel =>
    if contains "staging" (lower (source rel)) then
      map (fun tgt => mk_relation (source rel) tgt "TRANSFORM" (columns rel))
          final_targets
    else []) unique.

(** Lines 113-126. *)
Definition cte_to_final_target : list TableRelation :=
  flat_map (fun rel =>
    if Dict.mem (target rel) registry then
      flat_map (fun other_rel =>
        if String.eqb (operation other_rel) "LOAD"
           && contains (target rel) (Repr.of_columns (columns other_rel)) then
          [mk_relation (target rel) (target other_rel) "TRANSFORM" (columns other_rel)]
        else []) unique
    else []) unique.

(** Lines 129-142. *)
Definition staging_to_joined_orders : list TableRelation :=
  flat_map (fun rel =>
    if contains "staging" (lower (source rel)) then
      flat_map (fun other_rel =>
        if String.eqb (target other_rel) "joined_orders"
           && contains (source rel) (Repr.of_columns (columns other_rel)) then
          [mk_relation (source rel) (target other_rel) "TRANSFORM" (columns other_rel)]
        else []) unique
    else []) unique.

(** Lines 145-158. *)
Definition deduplicated_to_joined_orders : list TableRelation :=
  flat_map (fun rel =>
    if String.eqb (target rel) "deduplicated" then
      flat_map (fun other_rel =>
        if String.eqb (target other_rel) "joined_orders"
           && contains (target rel) (Repr.of_columns (columns other_rel)) then
          [mk_relation (target rel) (target other_rel) "TRANSFORM" (columns other_rel)]
        else []) unique
    else []) unique.

(** Lines 161-172. *)
Definition audit_table : string := "etl_audit".

Definition audit_trailer : list TableRelation :=
  flat_map (fun rel =>
    if existsb (String.eqb (operation rel)) ["LOAD"; "MERGE"] then
      [mk_relation (target rel) audit_table "AUDIT" []]
    else []) unique.

(** The three accumulators as they stand at line 175. *)
Definition cte_relations : list TableRelation :=
  (cte_chaining ++ cte_to_final_target ++ deduplicated_to_joined_orders)%list.

Definition audit_relations : list TableRelation :=
  (audit_propagation ++ audit_trailer)%list.

Definition staging_relations : list TableRelation :=
  (staging_propagation ++ staging_to_joined_orders)%list.

(** Line 175. *)
Definition all_relations : list TableRelation :=
  (unique ++ cte_relations ++ audit_relations ++ staging_relations)%list.
End Passes.

(** Lines 38-50: the dispatch on one parsed statement. *)
Definition process_statement (rt : Runtime) (self : SQLParser)
           (parsed : Statement) : result SQLParser :=
  let text := stmt_str parsed in
  if contains "CREATE PROCEDURE" text || contains "CREATE OR REPLACE PROCEDURE" text
  then _process_procedure rt self parsed
  else if contains "CREATE TABLE" text then Ok (_process_create_table self parsed)
  else if contains "WITH" text then _process_cte_statement rt self parsed
  else if String.eqb (get_type parsed) "INSERT" then Ok (_process_insert self parsed)
  else if contains "MERGE" text then _process_merge rt self parsed
  else if contains "CREATE MATERIALIZED VIEW" text
  then Ok (_process_materialized_view self parsed)
  else Ok self.

(** Lines 30-50: the body of the statement loop. *)
Definition statement_body (rt : Runtime) (self : SQLParser)
           (statement : string) : result SQLParser :=
  parsed <- parse_first rt statement ;;
  if String.eqb (get_type parsed) "UNKNOWN" then Ok self
  else process_statement rt self parsed.

(** Lines 28-50: the instance after the statement loop. *)
Definition run_statements (rt : Runtime) (self : SQLParser) (sql_content : string)
  : result SQLParser :=
  for_each (statement_body rt) (sqlparse_split rt sql_content) self.

(** Lines 52-186 on the instance the loop left. *)
Definition finish (rt : Runtime) (self : SQLParser) : SQLParser :=
  let unique_relations := dedup (relations self) in
  let final_relations := dedup (all_relations rt (ctes self) unique_relations) in
  {| relations := final_relations; tables := tables self; ctes := ctes self |}.

(** [parse_queries] as a method: the instance after the call and the list it
    returns (the same object as [self.relations]). *)
Definition parse_queries_on (rt : Runtime) (self : SQLParser) (sql_content : string)
  : result (SQLParser * list TableRelation) :=
  self' <- run_statements rt self sql_content ;;
  let self'' := finish rt self' in
  Ok (self'', relations self'').

(** [SQLParser().parse_queries(sql_content)]: one run of the Extractor. *)
Definition parse_queries (rt : Runtime) (sql_content : string)
  : result (list TableRelation) :=
  r <- parse_queries_on rt SQLParser_init sql_content ;;
  Ok (snd r).

(** ** Recorded runtimes

    A runtime given by finite answer tables: what [sqlparse.split] and
    [sqlparse.parse] return on the listed texts (nothing elsewhere), and a
    set iteration order.  The examples below instantiate the general
    statements with such tables. *)

Fixpoint lookup {V : Type} (k : string) (tbl : list (string * V)) (default : V) : V :=
  match tbl with
  | [] => default
  | (k', v) :: tbl' => if String.eqb k k' then v else lookup k tbl' default
  end.

Definition recorded (splits : list (string * list string))
           (parses : list (string * list Statement))
           (order : list string -> list string) : Runtime :=
  {| sqlparse_split := fun text => lookup text splits [];
     sqlparse_parse := fun text => lookup text parses [];
     set_iter := order |}.

(** A one-statement text of the given type. *)
Definition stmt (text type : string) : string * list Statement :=
  (text, [{| stmt_str := text; get_type := type |}]).

(** Set iteration in first-insertion order, and in the reverse of it: two of
    the orders a hash table of strings can yield. *)
Fixpoint distinct (l : list string) : list string :=
  match l with
  | [] => []
  | x :: l' => x :: filter (fun y => negb (String.eqb x y)) (distinct l')
  end.

Definition insertion_order (l : list string) : list string := distinct l.
Definition reverse_order (l : list string) : list string := rev (distinct l).

(** ** The Renderer's node pass ([visualizer.py]) *)

Module Visualizer.

(** [_determine_table_type], lines 11-29. *)
Definition _determine_table_type (table_name : string) : string :=
  let name := lower table_name in
  if contains "source" name then "source"
  else if contains "staging" name then "staging"
  else if contains "fact" name then "fact"
  else if contains "dim_" name then "dimension"
  else if contains "mart" name then "mart"
  else if contains "metrics" name then "metrics"
  else if contains "warehouse" name then "warehouse"
  else "transform".

(** [_create_node_id], lines 31-33. *)
Definition _create_node_id (table_name : string) : string :=
  replace_char "-"%char "_"%char (replace_char "."%char "_"%char table_name).

(** The bullet of the labels, U+2022, as its UTF-8 bytes. *)
Definition bullet : string :=
  String (ascii_of_nat 226) (String (ascii_of_nat 128)
    (String (ascii_of_nat 162) EmptyString)).

(** Python truth value of an optional string. *)
Definition truthy (o : option string) : bool :=
  match o with
  | Some s => nonempty s
  | None => false
  end.

Definition opt_text (o : option string) : string :=
  match o with
  | Some s => s
  | None => "None"
  end.

(** The label items of lines 48 and 50. *)
Definition transformed_item (col : Column) : string :=
  bullet ++ " " ++ name col ++ " (" ++ opt_text (transformation col) ++ ")".

Definition regular_item (col : Column) : string :=
  bullet ++ " " ++ name col.

(** Lines 44-50: the two accumulators of the grouping loop. *)
Definition group_columns (cols : list Column) : list string * list string :=
  fold_left
    (fun acc col =>
       let '(transformed, regular) := acc in
       if truthy (transformation col) then
         (transformed ++ [transformed_item col], regular)%list
       else (transformed, regular ++ [regular_item col])%list)
    cols ([], []).

Definition is_nil {A} (l : list A) : bool :=
  match l with [] => true | _ => false end.

(** Lines 42-60: the text appended to the table name in the label. *)
Definition column_text (cols : option (list Column)) : string :=
  match cols with
  | Some (c :: cs) =>
      let '(transformed, regular) := group_columns (c :: cs) in
      let text := EmptyString in
      let text :=
        if negb (is_nil regular) then text ++ "<br/>" ++ join "<br/>" regular
        else text in
      if negb (is_nil transformed) then
        let text := if negb (is_nil regular) then text ++ "<br/>---" else text in
        text ++ "<br/>" ++ join "<br/>" transformed
      else text
  | _ => EmptyString
  end.

(** The renderer's [table_types] field together with the two local
    accumulators of the node pass. *)
Record NodePass : Type := {
  mermaid_code : list string;
  nodes_seen : list string;
  table_types : Dict.t string
}.

(** [_create_node_def], lines 35-62: the definition text, and the
    [table_types] entry it records. *)
Definition node_def_text (table_name : string) (cols : option (list Column))
  : string :=
  _create_node_id table_name ++ "[" ++ String Repr.dquote EmptyString
    ++ table_name ++ column_text cols
    ++ String Repr.dquote EmptyString ++ "]".

Definition _create_node_def (st : NodePass) (table_name : string)
           (cols : option (list Column)) : NodePass * string :=
  ({| mermaid_code := mermaid_code st;
      nodes_seen := nodes_seen st;
      table_types := Dict.set (_create_node_id table_name)
                              (_determine_table_type table_name)
                              (table_types st) |},
   node_def_text table_name cols).

Definition indent (text : string) : string := "  " ++ text.

(** Lines 106-108 and 110-112: emit a node unless already seen. *)
Definition visit (st : NodePass) (table_name : string)
           (cols : option (list Column)) : NodePass :=
  if negb (existsb (String.eqb table_name) (nodes_seen st)) then
    let '(st, text) := _create_node_def st table_name cols in
    {| mermaid_code := (mermaid_code st ++ [indent text])%list;
       nodes_seen := (nodes_seen st ++ [table_name])%list;
       table_types := table_types st |}
  else st.

(** Lines 104-112: the first pass of [generate_diagram]. *)
Definition node_pass (rels : list TableRelation) (st : NodePass) : NodePass :=
  fold_left
    (fun st relation =>
       let st := visit st (source relation) None in
       visit st (target relation) (Some (columns relation)))
    rels st.

Definition node_pass_init : NodePass :=
  {| mermaid_code := []; nodes_seen := []; table_types := [] |}.

(** The node-definition lines of a diagram. *)
Definition node_lines (rels : list TableRelation) : list string :=
  mermaid_code (node_pass rels node_pass_init).

End Visualizer.

(** ** Notions used in the statements *)

(** [t] occurs in [s] as a contiguous piece, character for character. *)
Definition occurs_in (t s : string) : Prop :=
  exists pre post, s = pre ++ t ++ post.

(** Order-preserving sub-list. *)
Inductive subseq {A : Type} : list A -> list A -> Prop :=
| subseq_nil : subseq [] []
| subseq_skip : forall x l1 l2, subseq l1 l2 -> subseq l1 (x :: l2)
| subseq_keep : forall x l1 l2, subseq l1 l2 -> subseq (x :: l1) (x :: l2).

(** The order-preserving [seen]-set loop, for any key function: the element
    that first shows a key is kept, later ones with that key are dropped. *)
Section KeepFirst.
Context {A K : Type}.
Variable eqbK : K -> K -> bool.
Variable f : A -> K.

Fixpoint keep_first (seen : list K) (l : list A) : list A :=
  match l with
  | [] => []
  | x :: l' =>
      if existsb (eqbK (f x)) seen then keep_first seen l'
      else x :: keep_first (f x :: seen) l'
  end.
End KeepFirst.

(** A set iteration order is admissible when it lists exactly the inserted
    strings, each once. *)
Definition set_iter_ok (rt : Runtime) : Prop :=
  forall l, NoDup (set_iter rt l) /\ (forall x, In x (set_iter rt l) <-> In x l).

(** The scan of the depth counter over one expression: [None] when a comma
    is met at depth 0, else the depth reached. *)
Fixpoint depth_scan (e : string) (depth : Z) : option Z :=
  match e with
  | EmptyString => Some depth
  | String c e' =>
      if Ascii.eqb c "("%char then depth_scan e' (depth + 1)
      else if Ascii.eqb c ")"%char then depth_scan e' (depth - 1)
      else if Ascii.eqb c ","%char then
        if (depth =? 0)%Z then None else depth_scan e' depth
      else depth_scan e' depth
  end.

(** An expression whose commas all sit inside parentheses that are closed
    again by its end. *)
Definition commas_nested (e : string) : Prop := depth_scan e 0 = Some 0%Z.

(** The table names of a relation sequence in order of appearance, each with
    the column argument the node pass would hand to [_create_node_def]. *)
Definition appearances (rels : list TableRelation)
  : list (string * option (list Column)) :=
  flat_map (fun r => [(source r, None); (target r, Some (columns r))]) rels.

Definition first_seen (rels : list TableRelation)
  : list (string * option (list Column)) :=
  keep_first String.eqb fst [] (appearances rels).

(** The columns a label lists first, and those it lists after the separator. *)
Definition regular_columns (cols : list Column) : list Column :=
  filter (fun c => negb (Visualizer.truthy (transformation c))) cols.

Definition transformed_columns (cols : list Column) : list Column :=
  filter (fun c => Visualizer.truthy (transformation c)) cols.

(** The line the node pass emits for one appearance. *)
Definition node_line (a : string * option (list Column)) : string :=
  Visualizer.indent (Visualizer.node_def_text (fst a) (snd a)).

(** One group of label items, and the separator between two groups. *)
Definition label_block (items : list string) : string :=
  match items with
  | [] => EmptyString
  | _ => "<br/>" ++ join "<br/>" items
  end.

Definition label_separator (regular transformed : list string) : string :=
  match regular, transformed with
  | _ :: _, _ :: _ => "<br/>---"
  | _, _ => EmptyString
  end.

(** The texts of the scenarios. *)
Module Scenario.
Definition insert_summary : string :=
  "INSERT INTO sales_summary SELECT SUM(amount) AS total FROM staging_sales;".

Definition with_recent : string :=
  "WITH recent AS (SELECT id FROM orders) SELECT * FROM recent;".

(** The MERGE of scenario D up to its ON clause, and with the clause the
    scenario writes. *)
Definition merge_head : string :=
  "MERGE INTO dim_customer USING (SELECT id FROM staging_customer) AS src ON ".

Definition merge_customer : string := merge_head ++ "...".

Definition merge_subquery : string := "SELECT id FROM staging_customer".

(** A MERGE whose USING sub-query is empty. *)
Definition merge_empty : string :=
  "MERGE INTO dim_customer USING () AS src ON dim_customer.id = src.id;".

(** Two loads and one staging read. *)
Definition load_a : string := "INSERT INTO a SELECT x FROM t1;".
Definition load_b : string := "INSERT INTO b SELECT x FROM t2;".
Definition read_staging : string := "INSERT INTO c SELECT x FROM staging_s;".
Definition two_loads : string :=
  load_a ++ " " ++ load_b ++ " " ++ read_staging.

(** A staging read, and a MERGE into [joined_orders] that projects a
    column of the staging table without reading from it. *)
Definition stage_t1 : string := "INSERT INTO t1 SELECT a FROM staging_x;".
Definition merge_joined : string :=
  "MERGE INTO joined_orders USING (SELECT staging_x.id FROM orders) AS s ON joined_orders.id = s.id;".
Definition joined_subquery : string := "SELECT staging_x.id FROM orders".
Definition joined : string := stage_t1 ++ " " ++ merge_joined.

Definition rel (src tgt op : string) (cols : list Column) : TableRelation :=
  mk_relation src tgt op cols.

Definition col (n : string) (t tr : option string) : Column :=
  {| name := n; source_table := t; transformation := tr |}.

(** A relation sequence for the renderer: [b] is first seen as a target
    with two columns, [a] as a source. *)
Definition diagram_input : list TableRelation :=
  [rel "a" "b" "LOAD" [col "x" None None; col "N" None (Some "COUNT(x)")];
   rel "b" "a" "TRANSFORM" [col "y" None None]].

(** An INSERT that reads the same table in its FROM and in its JOIN. *)
Definition join_twice : string :=
  "INSERT INTO a SELECT x FROM t1 JOIN t1 ON 1 = 1;".

(** For the renderer: [b] is a source before it is a target with a column;
    and a target whose only column carries a transformation. *)
Definition late_target : list TableRelation :=
  [rel "b" "c" "LOAD" []; rel "a" "b" "LOAD" [col "x" None None]].

Definition only_transformed : list TableRelation :=
  [rel "a" "b" "LOAD" [col "T" None (Some "SUM(X)")]].

(** The [sqlparse] answers on these texts, as recorded runtimes. *)
Definition rt_join_twice : Runtime :=
  recorded [(join_twice, [join_twice])] [stmt join_twice "INSERT"] insertion_order.

Definition rt_insert_summary : Runtime :=
  recorded [(insert_summary, [insert_summary])]
           [stmt insert_summary "INSERT"] insertion_order.

Definition rt_with_recent : Runtime :=
  recorded [(with_recent, [with_recent])]
           [stmt with_recent "SELECT"] insertion_order.

Definition rt_merge_customer : Runtime :=
  recorded [(merge_customer, [merge_customer])]
           [stmt merge_customer "MERGE"; stmt merge_subquery "SELECT"]
           insertion_order.

Definition rt_merge_empty : Runtime :=
  recorded [(merge_empty, [merge_empty])]
           [stmt merge_empty "MERGE"; (EmptyString, [])] insertion_order.

(** The same MERGE with an ON clause that names a column [WITHDRAWN]. *)
Definition merge_withdrawn : string :=
  merge_head ++ "dim_customer.id = src.id AND src.WITHDRAWN = 0;".

Definition rt_merge_withdrawn : Runtime :=
  recorded [(merge_withdrawn, [merge_withdrawn])]
           [stmt merge_withdrawn "MERGE"; stmt merge_subquery "SELECT"]
           insertion_order.

(** A WITH statement whose CTE body is empty. *)
Definition with_empty : string := "WITH x AS () SELECT * FROM y;".

Definition rt_with_empty : Runtime :=
  recorded [(with_empty, [with_empty])]
           [stmt with_empty "SELECT"; (EmptyString, [])] insertion_order.

Definition rt_two_loads (order : list string -> list string) : Runtime :=
  recorded [(two_loads, [load_a; load_b; read_staging])]
           [stmt load_a "INSERT"; stmt load_b "INSERT"; stmt read_staging "INSERT"]
           order.

Definition rt_joined : Runtime :=
  recorded [(joined, [stage_t1; merge_joined])]
           [stmt stage_t1 "INSERT"; stmt merge_joined "MERGE";
            stmt joined_subquery "SELECT"]
           insertion_order.
End Scenario.

(** ** What a match is

    A declarative reading of the pattern syntax, against which the matcher
    is checked: [Matches r w rest c c'] says that [r] can match the text [w]
    when [rest] follows it, taking the groups from [c] to [c']. *)

Fixpoint forall_chars (q : ascii -> bool) (s : string) : bool :=
  match s with
  | EmptyString => true
  | String a s' => q a && forall_chars q s'
  end.

Inductive Matches : Re.regex -> string -> string -> Re.caps -> Re.caps -> Prop :=
| M_Eps : forall rest c, Matches Re.Eps EmptyString rest c c
| M_Lit : forall ic p w rest c,
    Re.lit_match ic p (w ++ rest) = true ->
    String.length w = String.length p ->
    Matches (Re.Lit ic p) w rest c c
| M_Cls : forall p a rest c,
    p a = true -> Matches (Re.Cls p) (String a EmptyString) rest c c
| M_Seq : forall r1 r2 w1 w2 rest c c1 c2,
    Matches r1 w1 (w2 ++ rest) c c1 ->
    Matches r2 w2 rest c1 c2 ->
    Matches (Re.Seq r1 r2) (w1 ++ w2) rest c c2
| M_AltL : forall r1 r2 w rest c c',
    Matches r1 w rest c c' -> Matches (Re.Alt r1 r2) w rest c c'
| M_AltR : forall r1 r2 w rest c c',
    Matches r2 w rest c c' -> Matches (Re.Alt r1 r2) w rest c c'
| M_StarG : forall p w rest c,
    forall_chars p w = true -> Matches (Re.StarG p) w rest c c
| M_StarL : forall p w rest c,
    forall_chars p w = true -> Matches (Re.StarL p) w rest c c
| M_Grp : forall g r1 w rest c c',
    Matches r1 w rest c c' -> Matches (Re.Grp g r1) w rest c ((g, w) :: c')
| M_Ahead : forall r1 w1 rest1 c c1,
    Matches r1 w1 rest1 c c1 ->
    Matches (Re.Ahead r1) EmptyString (w1 ++ rest1) c c1
| M_Eos : forall rest c,
    rest = EmptyString \/ rest = String "010"%char EmptyString ->
    Matches Re.Eos EmptyString rest c c.

(** The least number of characters a pattern consumes. *)
Fixpoint minlen (r : Re.regex) : nat :=
  match r with
  | Re.Lit _ p => String.length p
  | Re.Cls _ => 1
  | Re.Seq r1 r2 => minlen r1 + minlen r2
  | Re.Alt r1 r2 => Nat.min (minlen r1) (minlen r2)
  | Re.Grp _ r1 => minlen r1
  | _ => 0
  end.

(** Class inclusion, decided over the 256 characters. *)
Definition subclass (p q : ascii -> bool) : bool :=
  forallb (fun n => implb (p (ascii_of_nat n)) (q (ascii_of_nat n))) (seq 0 256).

(** [only q r]: every character [r] consumes is in the class [q]
    (case-insensitive literals are not looked into). *)
Fixpoint only (q : ascii -> bool) (r : Re.regex) : bool :=
  match r with
  | Re.Eps => true
  | Re.Lit ic p => negb ic && forall_chars q p
  | Re.Cls p => subclass p q
  | Re.Seq r1 r2 => only q r1 && only q r2
  | Re.Alt r1 r2 => only q r1 && only q r2
  | Re.StarG p => subclass p q
  | Re.StarL p => subclass p q
  | Re.Grp _ r1 => only q r1
  | Re.Ahead _ => true
  | Re.Eos => true
  end.

(** A captured text that is a name: not empty, all characters in [q]. *)
Definition good (q : ascii -> bool) (t : string) : bool :=
  nonempty t && forall_chars q t.

(** [keeps g q r]: whenever [r] captures group [g], the capture is good. *)
Fixpoint keeps (g : nat) (q : ascii -> bool) (r : Re.regex) : bool :=
  match r with
  | Re.Seq r1 r2 => keeps g q r1 && keeps g q r2
  | Re.Alt r1 r2 => keeps g q r1 && keeps g q r2
  | Re.Grp h r1 =>
      keeps g q r1 && (negb (Nat.eqb g h) || (Nat.leb 1 (minlen r1) && only q r1))
  | Re.Ahead r1 => keeps g q r1
  | _ => true
  end.

(** [sets g r]: every match of [r] captures group [g]. *)
Fixpoint sets (g : nat) (r : Re.regex) : bool :=
  match r with
  | Re.Seq r1 r2 => sets g r1 || sets g r2
  | Re.Alt r1 r2 => sets g r1 && sets g r2
  | Re.Grp h r1 => Nat.eqb g h || sets g r1
  | Re.Ahead r1 => sets g r1
  | _ => false
  end.

(** Every capture of group [g] in [c] is good; and there is one. *)
Definition all_good (g : nat) (q : ascii -> bool) (c : Re.caps) : Prop :=
  forall t, In (g, t) c -> good q t = true.

Definition has_group (g : nat) (c : Re.caps) : Prop := exists t, In (g, t) c.

(** The characters of a table, view or CTE name: [[A-Za-z0-9_.]]. *)
Definition is_name_char (c : ascii) : bool :=
  Re.is_word c || Ascii.eqb c "."%char.

Definition is_name (t : string) : bool := good is_name_char t.

(** ** Shape of relations and growth of the instance *)

Definition five_kinds : list string :=
  ["EXTRACT"; "TRANSFORM"; "LOAD"; "MERGE"; "AUDIT"].

(** A relation whose two ends satisfy [nm], whose operation is one of the
    five kinds and whose condition list is empty. *)
Definition well_formed (nm : string -> Prop) (r : TableRelation) : Prop :=
  nm (source r) /\ nm (target r) /\
  In (operation r) five_kinds /\ conditions r = [].

Definition keys_ok (nm : string -> Prop) (self : SQLParser) : Prop :=
  forall k, In k (Dict.keys (ctes self)) -> nm k.

(** [self'] is [self] with relations appended at the end, CTE names added to
    the registry and tables added to the table set; nothing is removed. *)
Definition extends (nm : string -> Prop) (self self' : SQLParser) : Prop :=
  (exists added,
      relations self' = (relations self ++ added)%list /\
      Forall (well_formed nm) added) /\
  (forall k, In k (Dict.keys (ctes self)) -> In k (Dict.keys (ctes self'))) /\
  (forall k, In k (Dict.keys (ctes self')) ->
             In k (Dict.keys (ctes self)) \/ nm k) /\
  (forall t, In t (tables self) -> In t (tables self')).

(** What the enrichment passes produce. *)
Definition inferred_shape (nm : string -> Prop) (r : TableRelation) : Prop :=
  well_formed nm r /\ (operation r = "TRANSFORM" \/ operation r = "AUDIT").

(** ** The Extractor's own table classifier ([sql_parser.py], lines 520-542) *)

Module Extractor.
(** [SQLParser._determine_table_type]. *)
Definition _determine_table_type (table_name : string) : string :=
  let name := lower table_name in
  if contains "source" name then "source"
  else if contains "staging" name then "staging"
  else if contains "fact" name then "fact"
  else if contains "dim_" name then "dimension"
  else if contains "mart" name then "mart"
  else if contains "metrics" name then "metrics"
  else if contains "warehouse" name then "warehouse"
  else if contains "audit" name then "audit"
  else if contains "procedure" name then "procedure"
  else "transform".
End Extractor.

(** ** The graph description ([visualizer.py], lines 64-123) *)

Module Diagram.
Import Visualizer.

(** The [style] local of [_create_edge_def], lines 70-79. *)
Definition edge_style (operation : string) : string :=
  if String.eqb operation "EXTRACT" then "stroke:#1f77b4,stroke-width:2px"
  else if String.eqb operation "TRANSFORM" then "stroke:#2ca02c,stroke-width:2px"
  else if String.eqb operation "LOAD" then "stroke:#d62728,stroke-width:2px"
  else if String.eqb operation "MERGE" then "stroke:#9467bd,stroke-width:2px"
  else "stroke:#7f7f7f,stroke-width:1px".

(** [_create_edge_def], lines 64-81; the style is computed and dropped. *)
Definition _create_edge_def (source target operation : string) : string :=
  let source_id := _create_node_id source in
  let target_id := _create_node_id target in
  let style := edge_style operation in
  source_id ++ " -->|" ++ operation ++ "| " ++ target_id.

(** Lines 85-101. *)
Definition header : list string :=
  ["graph LR;";
   "  %% Node Styles";
   "  classDef source fill:#f5f5f5,stroke:#1f77b4,stroke-width:2px";
   "  classDef staging fill:#e3f2fd,stroke:#2196f3,stroke-width:2px";
   "  classDef transform fill:#f1f8e9,stroke:#4caf50,stroke-width:2px";
   "  classDef fact fill:#fff3e0,stroke:#ff9800,stroke-width:2px";
   "  classDef dimension fill:#f3e5f5,stroke:#9c27b0,stroke-width:2px";
   "  classDef mart fill:#fce4ec,stroke:#e91e63,stroke-width:2px";
   "  classDef metrics fill:#e8eaf6,stroke:#3f51b5,stroke-width:2px";
   "  classDef warehouse fill:#fbe9e7,stroke:#ff5722,stroke-width:2px";
   "  classDef audit fill:#efebe9,stroke:#795548,stroke-width:2px";
   "  classDef procedure fill:#e0f2f1,stroke:#009688,stroke-width:2px";
   "  classDef other fill:#fff,stroke:#333,stroke-width:1px";
   EmptyString].

(** Line 118. *)
Definition edge_line (relation : TableRelation) : string :=
  indent (_create_edge_def (source relation) (target relation) (operation relation)).

(** Line 123. *)
Definition class_line (entry : string * string) : string :=
  "  class " ++ fst entry ++ " " ++ snd entry.

(** Lines 85-123 of [generate_diagram] on an instance whose [table_types]
    field is [types]: the list [mermaid_code] that is joined into the page. *)
Definition generate_lines_on (types : Dict.t string) (rels : list TableRelation)
  : list string :=
  let st := node_pass rels {| mermaid_code := header;
                              nodes_seen := [];
                              table_types := types |} in
  let code := (mermaid_code st ++ [EmptyString])%list in
  let code :=
    fold_left (fun code relation => (code ++ [edge_line relation])%list) rels code in
  let code := (code ++ [EmptyString])%list in
  fold_left (fun code entry => (code ++ [class_line entry])%list)
            (table_types st) code.

(** On a fresh [MermaidVisualizer()]. *)
Definition generate_lines (rels : list TableRelation) : list string :=
  generate_lines_on [] rels.

(** The [table_types] a fresh renderer holds after the node pass. *)
Definition node_types (rels : list TableRelation) : Dict.t string :=
  table_types (node_pass rels node_pass_init).
End Diagram.

(** ** More sample inputs *)

Module Sample.
(** Scenario A, with a comment-only statement after it. *)
Definition create_foo : string := "CREATE TABLE foo (id INT);".
Definition comment : string := "-- nothing to see".
Definition ddl_only : string := create_foo ++ " " ++ comment.

Definition rt_ddl_only : Runtime :=
  recorded [(ddl_only, [create_foo; comment])]
           [stmt create_foo "CREATE"; stmt comment "UNKNOWN"] insertion_order.

(** An INSERT of literal values. *)
Definition insert_values : string := "INSERT INTO t (a, b) VALUES (1, 2);".

Definition rt_insert_values : Runtime :=
  recorded [(insert_values, [insert_values])]
           [stmt insert_values "INSERT"] insertion_order.

(** Two table names that differ only in a separator. *)
Definition colliding : list TableRelation :=
  [Scenario.rel "dim.customer" "dim_customer" "LOAD" []].
End Sample.

(** A character that may stand in a node identifier. *)
Definition plain_char (c : ascii) : bool :=
  negb (Ascii.eqb c "."%char) && negb (Ascii.eqb c "-"%char).

(** [needs p r]: every match of [r] consumes the literal [p], in some case. *)
Fixpoint needs (p : string) (r : Re.regex) : bool :=
  match r with
  | Re.Lit _ q => contains (lower p) (lower q)
  | Re.Seq r1 r2 => needs p r1 || needs p r2
  | Re.Alt r1 r2 => needs p r1 && needs p r2
  | Re.Grp _ r1 => needs p r1
  | _ => false
  end.

(** The field labels that the text of a non-empty column list always holds. *)
Definition repr_labels : list string :=
  ["Column(name="; ", source_table="; ", transformation="].

(** * Properties *)

(** ** The keep-first loop *)

Section KeepFirstFacts.
Context {A K : Type}.
Variable eqbK : K -> K -> bool.
Variable f : A -> K.
Hypothesis eqbK_spec : forall a b, eqbK a b = true <-> a = b.

Lemma seen_spec (k : K) (seen : list K) :
  existsb (eqbK k) seen = true <-> In k seen.
Proof.
  rewrite existsb_exists. split.
  - intros [x [Hin Heq]]. apply eqbK_spec in Heq. now subst.
  - intros Hin. exists k. split; [assumption | now apply eqbK_spec].
Qed.

Lemma keep_first_in (seen : list K) (l : list A) (x : A) :
  In x (keep_first eqbK f seen l) -> In x l /\ ~ In (f x) seen.
Proof.
  revert seen. induction l as [|y l IH]; intros seen; simpl; [tauto|].
  destruct (existsb (eqbK (f y)) seen) eqn:E.
  - intros H. apply IH in H. tauto.
  - intros [-> | H].
    + split; [now left|]. intros Hin. apply seen_spec in Hin. congruence.
    + apply IH in H. simpl in H. tauto.
Qed.

Lemma keep_first_NoDup (seen : list K) (l : list A) :
  NoDup (map f (keep_first eqbK f seen l)).
Proof.
  revert seen. induction l as [|y l IH]; intros seen; simpl; [constructor|].
  destruct (existsb (eqbK (f y)) seen); [apply IH|].
  simpl. constructor; [|apply IH].
  rewrite in_map_iff. intros [z [Hz Hin]].
  apply keep_first_in in Hin. destruct Hin as [_ Hn].
  apply Hn. rewrite Hz. now left.
Qed.

Lemma keep_first_subseq (seen : list K) (l : list A) :
  subseq (keep_first eqbK f seen l) l.
Proof.
  revert seen. induction l as [|y l IH]; intros seen; simpl; [constructor|].
  destruct (existsb (eqbK (f y)) seen); constructor; apply IH.
Qed.

Lemma keep_first_covers (seen : list K) (l : list A) (x : A) :
  In x l -> ~ In (f x) seen ->
  exists y, In y (keep_first eqbK f seen l) /\ f y = f x.
Proof.
  revert seen. induction l as [|y l IH]; intros seen; simpl; [tauto|].
  intros Hin Hns.
  destruct (existsb (eqbK (f y)) seen) eqn:E.
  - destruct Hin as [-> | Hin].
    + apply seen_spec in E. contradiction.
    + now apply IH.
  - destruct Hin as [-> | Hin].
    + exists x. split; [now left | reflexivity].
    + destruct (eqbK (f x) (f y)) eqn:Exy.
      * apply eqbK_spec in Exy. exists y. split; [now left | now symmetry].
      * destruct (IH (f y :: seen) Hin) as [z [Hz Hk]].
        { simpl. intros [Heq | Hs]; [|contradiction].
          assert (eqbK (f x) (f y) = true) by (apply eqbK_spec; now symmetry).
          congruence. }
        exists z. split; [now right | assumption].
Qed.

(** A kept element is the first one of the input with its key. *)
Lemma keep_first_first (seen : list K) (l : list A) (x : A) :
  In x (keep_first eqbK f seen l) ->
  exists pre post, l = (pre ++ x :: post)%list /\ ~ In (f x) (map f pre).
Proof.
  revert seen. induction l as [|y l IH]; intros seen; simpl; [tauto|].
  destruct (existsb (eqbK (f y)) seen) eqn:E.
  - intros H. pose proof (keep_first_in _ _ _ H) as [_ Hns].
    destruct (IH _ H) as [pre [post [-> Hpre]]].
    exists (y :: pre), post. split; [reflexivity|].
    simpl. intros [Heq | Hin]; [|contradiction].
    apply Hns. rewrite <- Heq. now apply seen_spec.
  - intros [-> | H].
    + exists [], l. split; [reflexivity | simpl; tauto].
    + pose proof (keep_first_in _ _ _ H) as [_ Hns].
      destruct (IH _ H) as [pre [post [-> Hpre]]].
      exists (y :: pre), post. split; [reflexivity|].
      simpl. intros [Heq | Hin]; [|contradiction].
      apply Hns. left. assumption.
Qed.
End KeepFirstFacts.

Lemma key_eqb_spec (a b : string * string * string) :
  key_eqb a b = true <-> a = b.
Proof.
  destruct a as [[a1 a2] a3], b as [[b1 b2] b3]. unfold key_eqb.
  rewrite !andb_true_iff, !String.eqb_eq. split.
  - intros [[-> ->] ->]. reflexivity.
  - intros H. injection H as -> -> ->. auto.
Qed.

Lemma dedup_from_keep_first (seen : list (string * string * string))
      (l : list TableRelation) :
  dedup_from seen l = keep_first key_eqb key seen l.
Proof.
  revert seen. induction l as [|r l IH]; intros seen; simpl; [reflexivity|].
  destruct (existsb (key_eqb (key r)) seen); now rewrite IH.
Qed.

Lemma subseq_in {A : Type} (l1 l2 : list A) (x : A) :
  subseq l1 l2 -> In x l1 -> In x l2.
Proof.
  induction 1; simpl; intuition.
Qed.

(** ** The result monad and the statement loop *)

Lemma bind_ok {A B : Type} (m : result A) (f : A -> result B) (b : B) :
  bind m f = Ok b -> exists a, m = Ok a /\ f a = Ok b.
Proof.
  destruct m as [a|e]; simpl; [|discriminate]. intros H. now exists a.
Qed.

(** What [parse_queries] returns is the second deduplication of line 175's
    list, computed on the instance the statement loop left. *)
Lemma parse_queries_ok (rt : Runtime) (sql : string) (out : list TableRelation) :
  parse_queries rt sql = Ok out ->
  exists self,
    run_statements rt SQLParser_init sql = Ok self /\
    out = dedup (all_relations rt (ctes self) (dedup (relations self))).
Proof.
  unfold parse_queries, parse_queries_on. intros H.
  apply bind_ok in H. destruct H as [[self'' rels] [H1 H2]].
  apply bind_ok in H1. destruct H1 as [self [Hrun H1]].
  exists self. split; [assumption|].
  injection H1 as <- <-. injection H2 as <-. reflexivity.
Qed.

Lemma set_iter_nil (rt : Runtime) : set_iter_ok rt -> set_iter rt [] = [].
Proof.
  intros Hok. destruct (Hok []) as [_ Hin].
  destruct (set_iter rt []) as [|x l]; [reflexivity|].
  exfalso. apply (Hin x). now left.
Qed.

(** ** Admissible set iteration orders *)

Lemma distinct_in (l : list string) (x : string) : In x (distinct l) <-> In x l.
Proof.
  induction l as [|y l IH]; simpl; [tauto|].
  rewrite filter_In, IH, negb_true_iff, String.eqb_neq.
  destruct (String.eqb_spec y x) as [->|Hne]; tauto.
Qed.

Lemma distinct_NoDup (l : list string) : NoDup (distinct l).
Proof.
  induction l as [|y l IH]; simpl; constructor.
  - rewrite filter_In, negb_true_iff, String.eqb_neq. tauto.
  - now apply NoDup_filter.
Qed.

Lemma insertion_order_ok (sp : list (string * list string))
      (pa : list (string * list Statement)) :
  set_iter_ok (recorded sp pa insertion_order).
Proof.
  intros l. simpl. split; [apply distinct_NoDup | apply distinct_in].
Qed.

Lemma reverse_order_ok (sp : list (string * list string))
      (pa : list (string * list Statement)) :
  set_iter_ok (recorded sp pa reverse_order).
Proof.
  intros l. simpl. unfold reverse_order. split.
  - apply NoDup_rev, distinct_NoDup.
  - intros x. rewrite <- in_rev. apply distinct_in.
Qed.

(** ** Deduplication of the returned sequence *)

(** C1. Whatever [parse_queries] returns holds no two relations with the
    same (source, target, operation) key, and it is line 175's combined list
    thinned out in place: the order is kept, every key of the combined list
    survives, and the survivor of a key is the first relation that showed it. *)
Theorem C1_dedup_first_seen (rt : Runtime) (sql : string)
        (out : list TableRelation) :
  parse_queries rt sql = Ok out ->
  NoDup (map key out) /\
  exists self,
    run_statements rt SQLParser_init sql = Ok self /\
    let combined := all_relations rt (ctes self) (dedup (relations self)) in
    subseq out combined /\
    (forall r, In r combined -> exists r', In r' out /\ key r' = key r) /\
    (forall r, In r out ->
       exists pre post,
         combined = (pre ++ r :: post)%list /\ ~ In (key r) (map key pre)).
Proof.
  intros H. apply parse_queries_ok in H. destruct H as [self [Hrun ->]].
  unfold dedup at 1. rewrite dedup_from_keep_first. split.
  - apply (keep_first_NoDup key_eqb key key_eqb_spec).
  - exists self. split; [assumption|]. cbv zeta.
    unfold dedup at 1 3 5. rewrite !dedup_from_keep_first.
    split; [apply keep_first_subseq|]. split.
    + intros r Hin.
      apply (keep_first_covers key_eqb key key_eqb_spec [] _ r Hin). simpl. tauto.
    + intros r Hin. apply (keep_first_first key_eqb key key_eqb_spec [] _ r Hin).
Qed.

Lemma C1_dedup_first_seen_witness :
  let out := [Scenario.rel "t1" "a" "LOAD" [Scenario.col "x" None None];
              Scenario.rel "a" "etl_audit" "AUDIT" []] in
  NoDup (map key out) /\
  exists self,
    run_statements Scenario.rt_join_twice SQLParser_init Scenario.join_twice
    = Ok self /\
    let combined :=
      all_relations Scenario.rt_join_twice (ctes self) (dedup (relations self)) in
    subseq out combined /\
    (forall r, In r combined -> exists r', In r' out /\ key r' = key r) /\
    (forall r, In r out ->
       exists pre post,
         combined = (pre ++ r :: post)%list /\ ~ In (key r) (map key pre)).
Proof.
  apply (C1_dedup_first_seen Scenario.rt_join_twice Scenario.join_twice).
  vm_compute. reflexivity.
Defined.

(** ** Scenarios *)

(** Evaluation of a scenario under an abstract runtime: after the recorded
    answers are rewritten in, the rest is computation. *)
Ltac enter_statement_loop Hsplit :=
  unfold parse_queries, parse_queries_on, run_statements;
  cbn [sqlparse_split]; rewrite Hsplit;
  cbn [for_each]; unfold statement_body at 1, parse_first;
  cbn [sqlparse_parse].

(** Lines 38-50 when the text names no procedure and no CREATE TABLE. *)
Lemma dispatch_cte (rt : Runtime) (self : SQLParser) (parsed : Statement) :
  contains "CREATE PROCEDURE" (stmt_str parsed)
    || contains "CREATE OR REPLACE PROCEDURE" (stmt_str parsed) = false ->
  contains "CREATE TABLE" (stmt_str parsed) = false ->
  contains "WITH" (stmt_str parsed) = true ->
  process_statement rt self parsed = _process_cte_statement rt self parsed.
Proof.
  intros H1 H2 H3. unfold process_statement. now rewrite H1, H2, H3.
Qed.

Lemma dispatch_merge (rt : Runtime) (self : SQLParser) (parsed : Statement) :
  contains "CREATE PROCEDURE" (stmt_str parsed)
    || contains "CREATE OR REPLACE PROCEDURE" (stmt_str parsed) = false ->
  contains "CREATE TABLE" (stmt_str parsed) = false ->
  contains "WITH" (stmt_str parsed) = false ->
  String.eqb (get_type parsed) "INSERT" = false ->
  contains "MERGE" (stmt_str parsed) = true ->
  process_statement rt self parsed = _process_merge rt self parsed.
Proof.
  intros H1 H2 H3 H4 H5. unfold process_statement.
  now rewrite H1, H2, H3, H4, H5.
Qed.

Lemma audit_trailer_in (unique : list TableRelation) (r : TableRelation) :
  In r (audit_trailer unique) ->
  exists rel, In rel unique /\
              (operation rel = "LOAD" \/ operation rel = "MERGE") /\
              r = mk_relation (target rel) audit_table "AUDIT" [].
Proof.
  unfold audit_trailer. rewrite in_flat_map. intros [rel [Hin Hr]].
  exists rel. split; [assumption|].
  destruct (existsb (String.eqb (operation rel)) ["LOAD"; "MERGE"]) eqn:E.
  - destruct Hr as [<- | []]. split; [|reflexivity].
    simpl in E. rewrite !orb_true_iff, !String.eqb_eq in E.
    destruct E as [E | [E | E]]; [now left | now right | discriminate].
  - destruct Hr.
Qed.

(** C4. On [INSERT INTO sales_summary SELECT SUM(amount) AS total FROM
    staging_sales;], split into that one statement and typed INSERT, the
    result is the single TRANSFORM relation staging_sales -> sales_summary
    with the one column TOTAL / SUM(AMOUNT); and the audit trailer only ever
    answers to a LOAD or MERGE relation, so it adds nothing here. *)
Theorem C4_insert_from_staging (rt : Runtime) :
  set_iter_ok rt ->
  sqlparse_split rt Scenario.insert_summary = [Scenario.insert_summary] ->
  sqlparse_parse rt Scenario.insert_summary =
    [{| stmt_str := Scenario.insert_summary; get_type := "INSERT" |}] ->
  parse_queries rt Scenario.insert_summary =
    Ok [{| source := "staging_sales";
           target := "sales_summary";
           operation := "TRANSFORM";
           columns := [{| name := "TOTAL";
                          source_table := None;
                          transformation := Some "SUM(AMOUNT)" |}];
           conditions := [] |}]
  /\ (forall unique r,
        In r (audit_trailer unique) ->
        exists rel, In rel unique /\
                    (operation rel = "LOAD" \/ operation rel = "MERGE") /\
                    r = mk_relation (target rel) audit_table "AUDIT" []).
Proof.
  intros Hok Hsplit Hparse. split; [|apply audit_trailer_in].
  apply set_iter_nil in Hok.
  destruct rt as [sp pa si]. simpl in Hok, Hsplit, Hparse.
  enter_statement_loop Hsplit. rewrite Hparse.
  vm_compute. rewrite Hok. reflexivity.
Qed.

Lemma C4_insert_from_staging_witness :
  parse_queries Scenario.rt_insert_summary Scenario.insert_summary =
    Ok [{| source := "staging_sales";
           target := "sales_summary";
           operation := "TRANSFORM";
           columns := [{| name := "TOTAL";
                          source_table := None;
                          transformation := Some "SUM(AMOUNT)" |}];
           conditions := [] |}].
Proof.
  apply (C4_insert_from_staging Scenario.rt_insert_summary).
  - apply insertion_order_ok.
  - reflexivity.
  - reflexivity.
Defined.

(** C5. On [WITH recent AS (SELECT id FROM orders) SELECT * FROM recent;],
    split into that one statement, the result is empty whatever type the
    statement is given: the lazy capture of line 369 stops at the SELECT
    inside the CTE body, the captured section [recent AS (] holds no closing
    parenthesis, and line 375 finds no CTE in it. *)
Theorem C5_bare_cte_yields_nothing (rt : Runtime) (type : string) :
  sqlparse_split rt Scenario.with_recent = [Scenario.with_recent] ->
  sqlparse_parse rt Scenario.with_recent =
    [{| stmt_str := Scenario.with_recent; get_type := type |}] ->
  parse_queries rt Scenario.with_recent = Ok []
  /\ Re.search Pat.cte_pattern Scenario.with_recent = Some [(1, "recent AS (")]
  /\ Re.findall2 Pat.cte_split_pattern "recent AS (" = [].
Proof.
  intros Hsplit Hparse. split; [|split; vm_compute; reflexivity].
  destruct rt as [sp pa si]. simpl in Hsplit, Hparse.
  enter_statement_loop Hsplit. rewrite Hparse.
  cbn [bind get_type].
  destruct (String.eqb type "UNKNOWN"); vm_compute; reflexivity.
Qed.

Lemma C5_bare_cte_yields_nothing_witness :
  parse_queries Scenario.rt_with_recent Scenario.with_recent = Ok [].
Proof.
  apply (C5_bare_cte_yields_nothing Scenario.rt_with_recent "SELECT");
    reflexivity.
Defined.

Lemma finditer_first (r : Re.regex) (s : string) (c : Re.caps) (len : nat) :
  Re.match_at r s = Some (c, len) ->
  exists rest, Re.finditer r s = c :: rest.
Proof.
  intros H. unfold Re.finditer. destruct s as [|a s]; simpl; rewrite H; eauto.
Qed.

(** C6. On [MERGE INTO dim_customer USING (SELECT id FROM staging_customer)
    AS src ON <cond>], for every ON clause that leaves the statement on the
    MERGE branch of the dispatch (the text names no procedure, no CREATE
    TABLE and no WITH; the statement is one statement, typed neither UNKNOWN
    nor INSERT), the result is the MERGE relation staging_customer ->
    dim_customer followed by the one AUDIT relation dim_customer ->
    etl_audit. *)
Theorem C6_merge_with_audit (rt : Runtime) (type cond : string) :
  let text := Scenario.merge_head ++ cond in
  set_iter_ok rt ->
  type <> "UNKNOWN" -> type <> "INSERT" ->
  contains "CREATE PROCEDURE" text = false ->
  contains "CREATE OR REPLACE PROCEDURE" text = false ->
  contains "CREATE TABLE" text = false ->
  contains "WITH" text = false ->
  sqlparse_split rt text = [text] ->
  sqlparse_parse rt text = [{| stmt_str := text; get_type := type |}] ->
  sqlparse_parse rt "SELECT id FROM staging_customer" =
    [{| stmt_str := "SELECT id FROM staging_customer"; get_type := "SELECT" |}] ->
  parse_queries rt text =
    Ok [{| source := "staging_customer";
           target := "dim_customer";
           operation := "MERGE";
           columns := [{| name := "id";
                          source_table := None;
                          transformation := None |}];
           conditions := [] |};
        {| source := "dim_customer";
           target := "etl_audit";
           operation := "AUDIT";
           columns := [];
           conditions := [] |}].
Proof.
  cbv zeta. intros Hok Hu Hi Hp1 Hp2 Ht Hw Hsplit Hparse Hsub.
  apply set_iter_nil in Hok.
  apply String.eqb_neq in Hu, Hi.
  destruct rt as [sp pa si].
  cbn [sqlparse_split sqlparse_parse set_iter] in Hok, Hsplit, Hparse, Hsub.
  enter_statement_loop Hsplit. rewrite Hparse.
  cbn [bind get_type]. rewrite Hu.
  rewrite dispatch_merge; cbn [stmt_str get_type];
    [ | rewrite Hp1, Hp2; reflexivity | exact Ht | exact Hw | exact Hi
      | vm_compute; reflexivity ].
  unfold _process_merge. cbn [stmt_str].
  destruct (finditer_first Pat.merge_pattern (Scenario.merge_head ++ cond)
              [(1, "dim_customer")] 23) as [more Hmore];
    [vm_compute; reflexivity|].
  unfold Re.findall1. rewrite Hmore. cbn [map Re.group Nat.eqb].
  replace (Re.search Pat.using_pattern (Scenario.merge_head ++ cond))
    with (Some [(1, "SELECT id FROM staging_customer")])
    by (vm_compute; reflexivity).
  cbn [Re.group Nat.eqb]. unfold parse_first. cbn [sqlparse_parse].
  rewrite Hsub. cbn [bind stmt_str].
  vm_compute. rewrite Hok. reflexivity.
Qed.

Lemma C6_merge_with_audit_witness :
  parse_queries Scenario.rt_merge_customer Scenario.merge_customer =
    Ok [{| source := "staging_customer";
           target := "dim_customer";
           operation := "MERGE";
           columns := [{| name := "id";
                          source_table := None;
                          transformation := None |}];
           conditions := [] |};
        {| source := "dim_customer";
           target := "etl_audit";
           operation := "AUDIT";
           columns := [];
           conditions := [] |}].
Proof.
  apply (C6_merge_with_audit Scenario.rt_merge_customer "MERGE" "...").
  - apply insertion_order_ok.
  - discriminate.
  - discriminate.
  - reflexivity.
  - reflexivity.
  - reflexivity.
  - reflexivity.
  - reflexivity.
  - reflexivity.
  - reflexivity.
Defined.

(** C6, an ON clause outside that condition.  The statement has the same
    form, its ON clause compares a column [WITHDRAWN]: line 43 finds [WITH]
    in the text before line 47 looks for [MERGE], the statement goes to the
    CTE path, whose pattern (line 369) wants white space after [WITH] and
    finds no section, and [parse_queries] returns no relation at all. *)
Lemma C6_with_in_on_clause_yields_nothing :
  Scenario.merge_withdrawn
  = Scenario.merge_head ++ "dim_customer.id = src.id AND src.WITHDRAWN = 0;"
  /\ contains "WITH" Scenario.merge_withdrawn = true
  /\ parse_queries Scenario.rt_merge_withdrawn Scenario.merge_withdrawn = Ok [].
Proof. repeat split; vm_compute; reflexivity. Qed.

(** C2. On [MERGE INTO dim_customer USING () AS src ON dim_customer.id =
    src.id;], split into that one statement and typed neither UNKNOWN nor
    INSERT, line 460 captures the empty sub-query; when [sqlparse.parse]
    returns no statement for the empty text, line 472 indexes an empty tuple
    and [parse_queries] ends in IndexError. *)
Theorem C2_empty_subquery_raises (rt : Runtime) (type : string) :
  type <> "UNKNOWN" -> type <> "INSERT" ->
  sqlparse_split rt Scenario.merge_empty = [Scenario.merge_empty] ->
  sqlparse_parse rt Scenario.merge_empty =
    [{| stmt_str := Scenario.merge_empty; get_type := type |}] ->
  sqlparse_parse rt EmptyString = [] ->
  parse_queries rt Scenario.merge_empty = Raise IndexError.
Proof.
  intros Hu Hi Hsplit Hparse Hempty.
  apply String.eqb_neq in Hu, Hi.
  destruct rt as [sp pa si]. simpl in Hsplit, Hparse, Hempty.
  enter_statement_loop Hsplit. rewrite Hparse.
  cbn [bind get_type]. rewrite Hu.
  rewrite dispatch_merge by (first [exact Hi | vm_compute; reflexivity]).
  unfold _process_merge. cbn [stmt_str].
  replace (Re.findall1 Pat.merge_pattern Scenario.merge_empty)
    with ["dim_customer"] by (vm_compute; reflexivity).
  replace (Re.search Pat.using_pattern Scenario.merge_empty)
    with (Some [(1, EmptyString)]) by (vm_compute; reflexivity).
  cbn [Re.group Nat.eqb]. unfold parse_first. cbn [sqlparse_parse].
  rewrite Hempty. reflexivity.
Qed.

Lemma C2_empty_subquery_raises_witness :
  parse_queries Scenario.rt_merge_empty Scenario.merge_empty = Raise IndexError.
Proof.
  apply (C2_empty_subquery_raises Scenario.rt_merge_empty "MERGE").
  - discriminate.
  - discriminate.
  - reflexivity.
  - reflexivity.
  - reflexivity.
Defined.

(** The same failure on the bare-CTE path: line 375 captures an empty CTE
    body and line 379 indexes the empty tuple. *)
Lemma empty_cte_body_raises (rt : Runtime) (type : string) :
  type <> "UNKNOWN" ->
  sqlparse_split rt Scenario.with_empty = [Scenario.with_empty] ->
  sqlparse_parse rt Scenario.with_empty =
    [{| stmt_str := Scenario.with_empty; get_type := type |}] ->
  sqlparse_parse rt EmptyString = [] ->
  parse_queries rt Scenario.with_empty = Raise IndexError.
Proof.
  intros Hu Hsplit Hparse Hempty.
  apply String.eqb_neq in Hu.
  destruct rt as [sp pa si]. simpl in Hsplit, Hparse, Hempty.
  enter_statement_loop Hsplit. rewrite Hparse.
  cbn [bind get_type]. rewrite Hu.
  rewrite dispatch_cte by (vm_compute; reflexivity).
  unfold _process_cte_statement. cbn [stmt_str].
  replace (Re.search Pat.cte_pattern Scenario.with_empty)
    with (Some [(1, "x AS () ")]) by (vm_compute; reflexivity).
  cbn [Re.group Nat.eqb].
  replace (Re.findall2 Pat.cte_split_pattern "x AS () ")
    with [("x", EmptyString)] by (vm_compute; reflexivity).
  cbn [for_each]. unfold cte_body at 1, parse_first. cbn [sqlparse_parse].
  rewrite Hempty. reflexivity.
Qed.

(** C7. The statements [INSERT INTO a ...; INSERT INTO b ...; INSERT INTO c
    SELECT x FROM staging_s;] under two runtimes that agree on every
    [sqlparse] answer and differ only in the (admissible) order in which the
    set of line 100 is iterated: the two runs return the same relations, but
    the two staging-propagation relations come out in opposite orders. *)
Theorem C7_order_follows_set_iteration :
  let rt1 := Scenario.rt_two_loads insertion_order in
  let rt2 := Scenario.rt_two_loads reverse_order in
  let x := [Scenario.col "x" None None] in
  let common :=
    [Scenario.rel "t1" "a" "LOAD" x;
     Scenario.rel "t2" "b" "LOAD" x;
     Scenario.rel "staging_s" "c" "TRANSFORM" x;
     Scenario.rel "a" "etl_audit" "AUDIT" [];
     Scenario.rel "b" "etl_audit" "AUDIT" []] in
  let to_a := Scenario.rel "staging_s" "a" "TRANSFORM" x in
  let to_b := Scenario.rel "staging_s" "b" "TRANSFORM" x in
  set_iter_ok rt1 /\ set_iter_ok rt2 /\
  sqlparse_split rt1 = sqlparse_split rt2 /\
  sqlparse_parse rt1 = sqlparse_parse rt2 /\
  parse_queries rt1 Scenario.two_loads = Ok (common ++ [to_a; to_b])%list /\
  parse_queries rt2 Scenario.two_loads = Ok (common ++ [to_b; to_a])%list /\
  parse_queries rt1 Scenario.two_loads <> parse_queries rt2 Scenario.two_loads.
Proof.
  cbv zeta.
  split; [apply insertion_order_ok|].
  split; [apply reverse_order_ok|].
  split; [reflexivity|]. split; [reflexivity|].
  assert (H1 : parse_queries (Scenario.rt_two_loads insertion_order)
                             Scenario.two_loads
               = Ok ([Scenario.rel "t1" "a" "LOAD" [Scenario.col "x" None None];
                      Scenario.rel "t2" "b" "LOAD" [Scenario.col "x" None None];
                      Scenario.rel "staging_s" "c" "TRANSFORM" [Scenario.col "x" None None];
                      Scenario.rel "a" "etl_audit" "AUDIT" [];
                      Scenario.rel "b" "etl_audit" "AUDIT" []]
                     ++ [Scenario.rel "staging_s" "a" "TRANSFORM" [Scenario.col "x" None None];
                         Scenario.rel "staging_s" "b" "TRANSFORM" [Scenario.col "x" None None]])%list)
    by (vm_compute; reflexivity).
  assert (H2 : parse_queries (Scenario.rt_two_loads reverse_order)
                             Scenario.two_loads
               = Ok ([Scenario.rel "t1" "a" "LOAD" [Scenario.col "x" None None];
                      Scenario.rel "t2" "b" "LOAD" [Scenario.col "x" None None];
                      Scenario.rel "staging_s" "c" "TRANSFORM" [Scenario.col "x" None None];
                      Scenario.rel "a" "etl_audit" "AUDIT" [];
                      Scenario.rel "b" "etl_audit" "AUDIT" []]
                     ++ [Scenario.rel "staging_s" "b" "TRANSFORM" [Scenario.col "x" None None];
                         Scenario.rel "staging_s" "a" "TRANSFORM" [Scenario.col "x" None None]])%list)
    by (vm_compute; reflexivity).
  split; [exact H1|]. split; [exact H2|].
  rewrite H1, H2. vm_compute. intros H. discriminate H.
Qed.

(** A parser instance is single-use: a second call on the same instance
    starts from the relations the first call returned, and on scenario D the
    audit propagation then adds staging_customer -> etl_audit. *)
Lemma second_call_on_same_instance :
  exists self out1 self' out2,
    parse_queries_on Scenario.rt_merge_customer SQLParser_init
                     Scenario.merge_customer = Ok (self, out1) /\
    parse_queries_on Scenario.rt_merge_customer self
                     Scenario.merge_customer = Ok (self', out2) /\
    map key out1 = [("staging_customer", "dim_customer", "MERGE");
                    ("dim_customer", "etl_audit", "AUDIT")] /\
    map key out2 = [("staging_customer", "dim_customer", "MERGE");
                    ("dim_customer", "etl_audit", "AUDIT");
                    ("staging_customer", "etl_audit", "AUDIT")].
Proof.
  do 4 eexists.
  split; [vm_compute; reflexivity|].
  split; [vm_compute; reflexivity|].
  split; reflexivity.
Qed.

(** ** The enrichment passes *)

Lemma dedup_in (l : list TableRelation) (r : TableRelation) :
  In r (dedup l) -> In r l.
Proof.
  unfold dedup. rewrite dedup_from_keep_first. intros H.
  apply (keep_first_in key_eqb key key_eqb_spec) in H. tauto.
Qed.

(** C3 as the code has it: a returned relation that the statement loop did
    not extract comes from one of seven passes over the once-deduplicated
    extracted relations: the five general ones and the two written for the
    tables [joined_orders] and [deduplicated] (lines 128-158). *)
Theorem C3_seven_passes (rt : Runtime) (sql : string)
        (out : list TableRelation) :
  parse_queries rt sql = Ok out ->
  exists self,
    run_statements rt SQLParser_init sql = Ok self /\
    let unique := dedup (relations self) in
    forall r, In r out ->
      In r (relations self) \/
      In r (cte_chaining (ctes self) unique) \/
      In r (audit_propagation unique) \/
      In r (staging_propagation rt unique) \/
      In r (cte_to_final_target (ctes self) unique) \/
      In r (audit_trailer unique) \/
      In r (staging_to_joined_orders unique) \/
      In r (deduplicated_to_joined_orders unique).
Proof.
  intros H. apply parse_queries_ok in H. destruct H as [self [Hrun ->]].
  exists self. split; [assumption|]. cbv zeta. intros r Hin.
  apply dedup_in in Hin.
  unfold all_relations, cte_relations, audit_relations, staging_relations in Hin.
  rewrite !in_app_iff in Hin.
  destruct Hin as [Hin | [[Hin | [Hin | Hin]] | [[Hin | Hin] | [Hin | Hin]]]];
    try (apply dedup_in in Hin); tauto.
Qed.

Lemma C3_seven_passes_witness :
  exists self,
    run_statements Scenario.rt_joined SQLParser_init Scenario.joined = Ok self /\
    let unique := dedup (relations self) in
    forall r,
      In r [Scenario.rel "staging_x" "t1" "TRANSFORM" [Scenario.col "a" None None];
            Scenario.rel "orders" "joined_orders" "MERGE"
              [Scenario.col "id" (Some "staging_x") None];
            Scenario.rel "joined_orders" "etl_audit" "AUDIT" [];
            Scenario.rel "staging_x" "joined_orders" "TRANSFORM"
              [Scenario.col "id" (Some "staging_x") None]] ->
      In r (relations self) \/
      In r (cte_chaining (ctes self) unique) \/
      In r (audit_propagation unique) \/
      In r (staging_propagation Scenario.rt_joined unique) \/
      In r (cte_to_final_target (ctes self) unique) \/
      In r (audit_trailer unique) \/
      In r (staging_to_joined_orders unique) \/
      In r (deduplicated_to_joined_orders unique).
Proof.
  apply (C3_seven_passes Scenario.rt_joined Scenario.joined).
  vm_compute. reflexivity.
Defined.

(** C3 as stated fails on [INSERT INTO t1 SELECT a FROM staging_x;
    MERGE INTO joined_orders USING (SELECT staging_x.id FROM orders) AS s ON
    ...]: the returned TRANSFORM relation staging_x -> joined_orders is
    neither extracted from a statement nor produced by any of the five
    passes; lines 129-142 add it. *)
Lemma C3_five_passes_miss_joined_orders :
  let rt := Scenario.rt_joined in
  let r := Scenario.rel "staging_x" "joined_orders" "TRANSFORM"
             [Scenario.col "id" (Some "staging_x") None] in
  set_iter_ok rt /\
  exists self out,
    run_statements rt SQLParser_init Scenario.joined = Ok self /\
    parse_queries rt Scenario.joined = Ok out /\
    In r out /\
    In r (staging_to_joined_orders (dedup (relations self))) /\
    ~ (In r (relations self) \/
       In r (cte_chaining (ctes self) (dedup (relations self))) \/
       In r (audit_propagation (dedup (relations self))) \/
       In r (staging_propagation rt (dedup (relations self))) \/
       In r (cte_to_final_target (ctes self) (dedup (relations self))) \/
       In r (audit_trailer (dedup (relations self)))).
Proof.
  cbv zeta. split; [apply insertion_order_ok|].
  exists {| relations :=
              [Scenario.rel "staging_x" "t1" "TRANSFORM" [Scenario.col "a" None None];
               Scenario.rel "orders" "joined_orders" "MERGE"
                 [Scenario.col "id" (Some "staging_x") None]];
            tables := [];
            ctes := [] |}.
  exists [Scenario.rel "staging_x" "t1" "TRANSFORM" [Scenario.col "a" None None];
          Scenario.rel "orders" "joined_orders" "MERGE"
            [Scenario.col "id" (Some "staging_x") None];
          Scenario.rel "joined_orders" "etl_audit" "AUDIT" [];
          Scenario.rel "staging_x" "joined_orders" "TRANSFORM"
            [Scenario.col "id" (Some "staging_x") None]].
  split; [vm_compute; reflexivity|].
  split; [vm_compute; reflexivity|].
  split; [simpl; tauto|].
  split; [vm_compute; tauto|].
  vm_compute. intros H.
  repeat (destruct H as [H | H]; try discriminate H; try contradiction).
Qed.

(** ** Splitting the projection list *)

Lemma sapp_assoc (a b c : string) : (a ++ b) ++ c = a ++ b ++ c.
Proof.
  induction a as [|x a IH]; simpl; [reflexivity | now rewrite IH].
Qed.

Lemma sapp_nil_r (a : string) : a ++ EmptyString = a.
Proof.
  induction a as [|x a IH]; simpl; [reflexivity | now rewrite IH].
Qed.

(** While the scan meets no comma at depth 0, the loop only extends
    [current]. *)
Lemma split_loop_scan (e rest : string) :
  forall (d d' : Z) (cur : string) (raw : list string),
    depth_scan e d = Some d' ->
    split_loop (e ++ rest) d cur raw = split_loop rest d' (cur ++ e) raw.
Proof.
  induction e as [|c e IH]; intros d d' cur raw H; simpl in *.
  - injection H as <-. now rewrite sapp_nil_r.
  - replace (cur ++ String c e) with ((cur ++ String c EmptyString) ++ e)
      by (rewrite sapp_assoc; reflexivity).
    destruct (Ascii.eqb c "(") eqn:E1; [now apply IH|].
    destruct (Ascii.eqb c ")") eqn:E2; [now apply IH|].
    destruct (Ascii.eqb c ",") eqn:E3; simpl.
    + destruct (d =? 0)%Z; [discriminate | now apply IH].
    + now apply IH.
Qed.

Lemma split_loop_comma (rest cur : string) (raw : list string) :
  split_loop (String "," rest) 0 cur raw
  = split_loop rest 0 EmptyString (raw ++ [strip cur])%list.
Proof. reflexivity. Qed.

Lemma split_loop_exprs (es : list string) :
  Forall commas_nested es -> es <> [] ->
  forall raw,
    split_loop (join "," es) 0 EmptyString raw
    = (last es EmptyString, (raw ++ map strip (removelast es))%list).
Proof.
  induction es as [|e es IH]; intros Hall Hne raw; [congruence|].
  inversion Hall as [|? ? He Hes]; subst.
  destruct es as [|e' es].
  - simpl. rewrite <- (sapp_nil_r e) at 1.
    rewrite (split_loop_scan e EmptyString 0 0 EmptyString raw He).
    simpl. now rewrite app_nil_r.
  - change (join "," (e :: e' :: es)) with (e ++ String "," (join "," (e' :: es))).
    rewrite (split_loop_scan e _ 0 0 EmptyString raw He).
    rewrite split_loop_comma. rewrite IH by (assumption || discriminate).
    simpl. rewrite <- app_assoc. reflexivity.
Qed.

Lemma last_default {A : Type} (l : list A) (a b : A) :
  l <> [] -> last l a = last l b.
Proof.
  induction l as [|x l IH]; [congruence|]. intros _.
  destruct l as [|y l]; [reflexivity|].
  change (last (y :: l) a = last (y :: l) b). apply IH. discriminate.
Qed.

(** C8. The projection list is split at the commas met at depth 0 and at no
    other: a list of expressions whose commas are all nested in closed
    parentheses, joined by commas, splits back into exactly those
    expressions (stripped).  In particular [a, COALESCE(b,c) AS d, e] splits
    in three, and the text handed to the splitter is what lies between
    SELECT and the first FROM. *)
Theorem C8_split_on_top_level_commas :
  (forall es : list string,
      Forall commas_nested es -> last es "x" <> EmptyString ->
      split_columns (join "," es) = map strip es)
  /\ commas_nested " COALESCE(b,c) AS d"
  /\ split_columns "a, COALESCE(b,c) AS d, e" = ["a"; "COALESCE(b,c) AS d"; "e"]
  /\ Re.search Pat.select_pattern
       "SELECT a, COALESCE(b,c) AS d, e FROM t WHERE k IN (SELECT k FROM u)"
     = Some [(1, "a, COALESCE(b,c) AS d, e")]
  /\ map name (_extract_columns
                 "SELECT a, COALESCE(b,c) AS d, e FROM t WHERE k IN (SELECT k FROM u)")
     = ["a"; "D"; "e"].
Proof.
  split; [|repeat split; vm_compute; reflexivity].
  intros es Hall Hlast.
  destruct es as [|e es]; [reflexivity|].
  unfold split_columns.
  rewrite (split_loop_exprs (e :: es) Hall) by discriminate.
  rewrite (last_default (e :: es) EmptyString "x") by discriminate.
  destruct (last (e :: es) "x") as [|c t] eqn:El; [congruence|].
  cbn [nonempty app].
  rewrite <- map_last, <- El.
  rewrite <- app_removelast_last by discriminate. reflexivity.
Qed.

Lemma C8_split_on_top_level_commas_witness :
  split_columns (join "," ["a"; " COALESCE(b,c) AS d"; " e"])
  = map strip ["a"; " COALESCE(b,c) AS d"; " e"].
Proof.
  apply (proj1 C8_split_on_top_level_commas).
  - repeat constructor.
  - discriminate.
Defined.

(** ** Case of the parsed columns *)

Lemma occurs_in_refl (s : string) : occurs_in s s.
Proof. exists EmptyString, EmptyString. simpl. now rewrite sapp_nil_r. Qed.

Lemma occurs_in_trans (a b c : string) :
  occurs_in a b -> occurs_in b c -> occurs_in a c.
Proof.
  intros [p1 [q1 ->]] [p2 [q2 ->]].
  exists (p2 ++ p1), (q1 ++ q2). now rewrite !sapp_assoc.
Qed.

Lemma occurs_in_prefix (a b : string) : occurs_in a (a ++ b).
Proof. now exists EmptyString, b. Qed.

Lemma occurs_in_suffix (a b : string) : occurs_in b (a ++ b).
Proof. exists a, EmptyString. now rewrite sapp_nil_r. Qed.

Lemma lstrip_suffix (s : string) : exists pre, s = pre ++ lstrip s.
Proof.
  induction s as [|c s [pre IH]]; simpl.
  - now exists EmptyString.
  - destruct (is_space c).
    + exists (String c pre). simpl. now rewrite <- IH.
    + now exists EmptyString.
Qed.

Lemma rstrip_prefix (s : string) : exists post, s = rstrip s ++ post.
Proof.
  induction s as [|c s [post IH]]; simpl.
  - now exists EmptyString.
  - destruct (rstrip s) as [|d t] eqn:E.
    + destruct (is_space c).
      * now exists (String c s).
      * exists s. reflexivity.
    + exists post. simpl. simpl in IH. now rewrite <- IH.
Qed.

Lemma strip_occurs (s : string) : occurs_in (strip s) s.
Proof.
  unfold strip. destruct (lstrip_suffix s) as [pre Hpre].
  destruct (rstrip_prefix (lstrip s)) as [post Hpost].
  exists pre, post. now rewrite <- Hpost.
Qed.

Lemma take_drop (n : nat) (s : string) : s = take n s ++ drop n s.
Proof.
  revert s. induction n as [|n IH]; intros [|c s]; simpl; try reflexivity.
  now rewrite <- IH.
Qed.

Lemma split_once_parts (sep s a b : string) :
  split_once sep s = (a, b) -> exists m, s = a ++ m ++ b.
Proof.
  revert a b. induction s as [|c s IH]; intros a b; simpl.
  - destruct (startswith sep EmptyString); intros H; injection H as <- <-.
    + exists (take (String.length sep) EmptyString). simpl.
      apply (take_drop (String.length sep) EmptyString).
    + now exists EmptyString.
  - destruct (startswith sep (String c s)).
    + intros H; injection H as <- <-.
      exists (take (String.length sep) (String c s)). simpl.
      apply (take_drop (String.length sep) (String c s)).
    + destruct (split_once sep s) as [a' b'] eqn:E.
      intros H; injection H as <- <-.
      destruct (IH a' b' eq_refl) as [m Hm].
      exists m. simpl. now rewrite <- Hm.
Qed.

Lemma first_segment_prefix (c : ascii) (s : string) :
  exists post, s = first_segment c s ++ post.
Proof.
  induction s as [|a s [post IH]]; simpl.
  - now exists EmptyString.
  - destruct (Ascii.eqb a c).
    + now exists (String a s).
    + exists post. simpl. now rewrite <- IH.
Qed.

Lemma last_segment_suffix (c : ascii) (s : string) :
  exists pre, s = pre ++ last_segment c s.
Proof.
  induction s as [|a s [pre IH]]; simpl.
  - now exists EmptyString.
  - destruct (contains (String c EmptyString) s).
    + exists (String a pre). simpl. now rewrite <- IH.
    + destruct (Ascii.eqb a c).
      * now exists (String a EmptyString).
      * now exists EmptyString.
Qed.

Lemma upper_char_idem (c : ascii) : upper_char (upper_char c) = upper_char c.
Proof.
  destruct c as [[] [] [] [] [] [] [] []]; reflexivity.
Qed.

Lemma upper_idem (s : string) : upper (upper s) = upper s.
Proof.
  induction s as [|c s IH]; simpl; [reflexivity|].
  unfold upper in *. simpl. now rewrite upper_char_idem, IH.
Qed.

(** With an alias token (the text, uppercased, holds [ AS ]) the column is
    computed from the uppercased expression alone: it is the column of the
    uppercased text, and its name, source table and transformation are
    pieces of that uppercased text.  Without one, the name and the source
    table are pieces of the expression as written, and a recorded
    transformation is the expression itself. *)
Lemma column_of_pieces (col : string) :
  (has_alias col = true ->
     column_of col = column_of (upper col) /\
     occurs_in (name (column_of col)) (upper col) /\
     (forall t, source_table (column_of col) = Some t -> occurs_in t (upper col)) /\
     (forall t, transformation (column_of col) = Some t -> occurs_in t (upper col)))
  /\
  (has_alias col = false ->
     occurs_in (name (column_of col)) col /\
     (forall t, source_table (column_of col) = Some t -> occurs_in t col) /\
     (forall t, transformation (column_of col) = Some t -> t = col)).
Proof.
  split; intros Ha.
  - assert (Hu : has_alias (upper col) = true).
    { unfold has_alias in *. now rewrite upper_idem. }
    split.
    { unfold column_of. rewrite Ha, Hu, upper_idem. reflexivity. }
    unfold column_of. rewrite Ha.
    destruct (split_once " AS " (upper col)) as [expr nm] eqn:E.
    destruct (split_once_parts _ _ _ _ E) as [m Hm].
    assert (He : occurs_in expr (upper col))
      by (rewrite Hm; apply occurs_in_prefix).
    assert (Hn : occurs_in nm (upper col)).
    { rewrite Hm, <- sapp_assoc. apply occurs_in_suffix. }
    cbn [name source_table transformation]. split; [|split].
    + eapply occurs_in_trans; [apply strip_occurs | exact Hn].
    + intros t. destruct (contains "." expr); [|discriminate].
      intros H; injection H as <-.
      eapply occurs_in_trans; [apply strip_occurs|].
      eapply occurs_in_trans; [|exact He].
      destruct (first_segment_prefix "." expr) as [post Hp].
      rewrite Hp at 2. apply occurs_in_prefix.
    + intros t.
      destruct (existsb (fun fn => contains fn (upper expr)) transformation_markers);
        [|discriminate].
      intros H; injection H as <-. exact He.
  - unfold column_of. rewrite Ha.
    cbn [name source_table transformation]. split; [|split].
    + eapply occurs_in_trans; [apply strip_occurs|].
      destruct (contains "." col); [|apply occurs_in_refl].
      destruct (last_segment_suffix "." col) as [pre Hp].
      rewrite Hp at 2. apply occurs_in_suffix.
    + intros t. destruct (contains "." col); [|discriminate].
      intros H; injection H as <-.
      eapply occurs_in_trans; [apply strip_occurs|].
      destruct (first_segment_prefix "." col) as [post Hp].
      rewrite Hp at 2. apply occurs_in_prefix.
    + intros t.
      destruct (existsb (fun fn => contains fn (upper col)) transformation_markers);
        [|discriminate].
      intros H; injection H as <-. reflexivity.
Qed.

(** ** The node pass of the renderer *)

Section KeepFirstExt.
Context {A K : Type}.
Variable eqbK : K -> K -> bool.
Variable f : A -> K.

(** Only membership in [seen] matters. *)
Lemma keep_first_ext (l : list A) :
  forall seen seen',
    (forall k, existsb (eqbK k) seen = existsb (eqbK k) seen') ->
    keep_first eqbK f seen l = keep_first eqbK f seen' l.
Proof.
  induction l as [|x l IH]; intros seen seen' H; simpl; [reflexivity|].
  rewrite (H (f x)). destruct (existsb (eqbK (f x)) seen').
  - now apply IH.
  - f_equal. apply IH. intros k. simpl. now rewrite H.
Qed.
End KeepFirstExt.

Import Visualizer.

Lemma visit_code (st : NodePass) (n : string) (c : option (list Column)) :
  mermaid_code (visit st n c)
  = (mermaid_code st
     ++ (if existsb (String.eqb n) (nodes_seen st) then []
         else [node_line (n, c)]))%list.
Proof.
  unfold visit. destruct (existsb (String.eqb n) (nodes_seen st)); simpl.
  - now rewrite app_nil_r.
  - reflexivity.
Qed.

Lemma visit_seen (st : NodePass) (n : string) (c : option (list Column)) :
  nodes_seen (visit st n c)
  = if existsb (String.eqb n) (nodes_seen st) then nodes_seen st
    else (nodes_seen st ++ [n])%list.
Proof.
  unfold visit. now destruct (existsb (String.eqb n) (nodes_seen st)).
Qed.

(** The node pass visits the appearances one by one. *)
Lemma node_pass_visits (rels : list TableRelation) :
  forall st,
    node_pass rels st
    = fold_left (fun st a => visit st (fst a) (snd a)) (appearances rels) st.
Proof.
  induction rels as [|r rels IH]; intros st; [reflexivity|].
  unfold node_pass in *. cbn [fold_left appearances flat_map].
  rewrite fold_left_app. cbn [fold_left fst snd]. apply IH.
Qed.

Lemma visits_lines (apps : list (string * option (list Column))) :
  forall st,
    mermaid_code (fold_left (fun st a => visit st (fst a) (snd a)) apps st)
    = (mermaid_code st
       ++ map node_line (keep_first String.eqb fst (nodes_seen st) apps))%list.
Proof.
  induction apps as [|[n c] apps IH]; intros st.
  - simpl. now rewrite app_nil_r.
  - cbn [fold_left keep_first fst snd]. rewrite IH, visit_code, visit_seen.
    destruct (existsb (String.eqb n) (nodes_seen st)).
    + now rewrite app_nil_r.
    + rewrite <- app_assoc. cbn [map app]. do 3 f_equal.
      apply keep_first_ext. intros k. rewrite existsb_app. simpl.
      now rewrite orb_false_r, orb_comm.
Qed.

Lemma node_pass_lines (rels : list TableRelation) :
  forall st,
    mermaid_code (node_pass rels st)
    = (mermaid_code st
       ++ map node_line
            (keep_first String.eqb fst (nodes_seen st) (appearances rels)))%list.
Proof.
  intros st. rewrite node_pass_visits. apply visits_lines.
Qed.

Lemma group_columns_filter (cols : list Column) :
  group_columns cols
  = (map transformed_item (transformed_columns cols),
     map regular_item (regular_columns cols)).
Proof.
  unfold group_columns, transformed_columns, regular_columns.
  assert (H : forall t r,
             fold_left
               (fun acc col =>
                  let '(transformed, regular) := acc in
                  if truthy (transformation col)
                  then ((transformed ++ [transformed_item col])%list, regular)
                  else (transformed, (regular ++ [regular_item col])%list))
               cols (t, r)
             = ((t ++ map transformed_item
                        (filter (fun c => truthy (transformation c)) cols))%list,
                (r ++ map regular_item
                        (filter (fun c => negb (truthy (transformation c))) cols))%list)).
  { induction cols as [|c cols IH]; intros t r; simpl.
    - now rewrite !app_nil_r.
    - destruct (truthy (transformation c)); simpl; rewrite IH, <- app_assoc; reflexivity. }
  apply (H [] []).
Qed.

Lemma column_text_blocks (cols : list Column) :
  let regular := map regular_item (regular_columns cols) in
  let transformed := map transformed_item (transformed_columns cols) in
  column_text (Some cols)
  = label_block regular ++ label_separator regular transformed
      ++ label_block transformed.
Proof.
  cbv zeta. destruct cols as [|c cols]; [reflexivity|].
  unfold column_text. rewrite group_columns_filter.
  destruct (map regular_item (regular_columns (c :: cols))) as [|r rs];
    destruct (map transformed_item (transformed_columns (c :: cols))) as [|t ts];
    cbn [is_nil negb label_block label_separator].
  - reflexivity.
  - reflexivity.
  - cbn [append]. now rewrite sapp_nil_r.
  - cbn [append]. now rewrite !sapp_assoc.
Qed.

Lemma appearances_names (rels : list TableRelation) (n : string) :
  In n (map fst (appearances rels)) <->
  exists r, In r rels /\ (source r = n \/ target r = n).
Proof.
  unfold appearances. rewrite in_map_iff. split.
  - intros [[m c] [Hm Hin]]. simpl in Hm. subst m.
    apply in_flat_map in Hin. destruct Hin as [r [Hr Hin]].
    exists r. split; [assumption|]. simpl in Hin.
    destruct Hin as [H | [H | []]]; injection H as H _; tauto.
  - intros [r [Hr [Hs | Ht]]].
    + exists (source r, None). split; [assumption|].
      apply in_flat_map. exists r. split; [assumption | now left].
    + exists (target r, Some (columns r)). split; [assumption|].
      apply in_flat_map. exists r. split; [assumption | right; now left].
Qed.

(** C9 as the code has it.  The node pass emits one definition line per
    appearance kept by the first-seen rule over the sources and targets in
    sequence order: every table name of the sequence gets exactly one line,
    in the order the names first appear.  The label is fixed at that first
    appearance: a name first seen as a source is labelled with the name
    alone; one first seen as a target is labelled with the name, then the
    columns without a transformation, then (only when both groups are
    present) the separator, then the columns with one. *)
Theorem C9_one_node_per_table (rels : list TableRelation) :
  node_lines rels = map node_line (first_seen rels)
  /\ NoDup (map fst (first_seen rels))
  /\ (forall n, In n (map fst (first_seen rels)) <->
                exists r, In r rels /\ (source r = n \/ target r = n))
  /\ subseq (first_seen rels) (appearances rels)
  /\ (forall a, In a (first_seen rels) ->
        exists pre post,
          appearances rels = (pre ++ a :: post)%list /\ ~ In (fst a) (map fst pre))
  /\ (forall table,
        node_def_text table None
        = _create_node_id table ++ "[" ++ String Repr.dquote EmptyString
            ++ table ++ String Repr.dquote EmptyString ++ "]")
  /\ (forall table cols,
        let regular := map regular_item (regular_columns cols) in
        let transformed := map transformed_item (transformed_columns cols) in
        node_def_text table (Some cols)
        = _create_node_id table ++ "[" ++ String Repr.dquote EmptyString
            ++ table
            ++ (label_block regular ++ label_separator regular transformed
                  ++ label_block transformed)
            ++ String Repr.dquote EmptyString ++ "]").
Proof.
  assert (Hspec : forall a b : string, String.eqb a b = true <-> a = b)
    by (intros; apply String.eqb_eq).
  split; [|split; [|split; [|split; [|split; [|split]]]]].
  - unfold node_lines. rewrite node_pass_lines. reflexivity.
  - apply (keep_first_NoDup String.eqb fst Hspec).
  - intros n. rewrite <- appearances_names. unfold first_seen.
    rewrite !in_map_iff. split.
    + intros [a [Ha Hin]].
      apply (keep_first_in String.eqb fst Hspec) in Hin. exists a. tauto.
    + intros [a [Ha Hin]].
      destruct (keep_first_covers String.eqb fst Hspec [] _ a Hin) as [b [Hb Hk]];
        [simpl; tauto|].
      exists b. split; [congruence | assumption].
  - apply keep_first_subseq.
  - intros a Hin. apply (keep_first_first String.eqb fst Hspec [] _ a Hin).
  - reflexivity.
  - intros table cols. cbv zeta. unfold node_def_text.
    now rewrite column_text_blocks.
Qed.

Lemma C9_one_node_per_table_witness :
  node_lines Scenario.diagram_input
  = map node_line [("a", None);
                   ("b", Some [Scenario.col "x" None None;
                               Scenario.col "N" None (Some "COUNT(x)")])]
  /\ In "b" (map fst (first_seen Scenario.diagram_input)).
Proof.
  split.
  - exact (proj1 (C9_one_node_per_table Scenario.diagram_input)).
  - apply (proj1 (proj2 (proj2 (C9_one_node_per_table Scenario.diagram_input))) "b").
    exists (Scenario.rel "a" "b" "LOAD"
              [Scenario.col "x" None None; Scenario.col "N" None (Some "COUNT(x)")]).
    split; [now left | now right].
Defined.

(** C9 as stated fails on two inputs.  In [b -> c; a -> b (column x)]
    the table [b] is a target with a column, yet it was first seen as a
    source and no label lists [x]; in [a -> b (column T = SUM(X))] the label
    of [b] lists the transformed column with no separator before it. *)
Lemma C9_label_follows_first_appearance :
  node_lines Scenario.late_target
  = map node_line [("b", None); ("c", Some []); ("a", None)]
  /\ forallb (fun line =>
                negb (contains (regular_item (Scenario.col "x" None None)) line))
             (node_lines Scenario.late_target) = true
  /\ node_lines Scenario.only_transformed
     = map node_line [("a", None);
                      ("b", Some [Scenario.col "T" None (Some "SUM(X)")])]
  /\ existsb (contains (transformed_item (Scenario.col "T" None (Some "SUM(X)"))))
             (node_lines Scenario.only_transformed) = true
  /\ forallb (fun line => negb (contains "---" line))
             (node_lines Scenario.only_transformed) = true.
Proof.
  repeat split; vm_compute; reflexivity.
Qed.

(** ** Where exceptions can come from *)

Lemma for_each_returns {A S : Type} (body : S -> A -> result S) (l : list A) :
  (forall st x, exists st', body st x = Ok st') ->
  forall st, exists st', for_each body l st = Ok st'.
Proof.
  intros Hbody. induction l as [|x l IH]; intros st; simpl; [eauto|].
  destruct (Hbody st x) as [st1 ->]. simpl. apply IH.
Qed.

Section ParseNeverEmpty.
Variable rt : Runtime.
Hypothesis parse_nonempty : forall text, sqlparse_parse rt text <> [].

Lemma parse_first_returns (text : string) :
  exists st, parse_first rt text = Ok st.
Proof.
  unfold parse_first. pose proof (parse_nonempty text).
  destruct (sqlparse_parse rt text); [congruence | eauto].
Qed.

Lemma process_statement_returns (self : SQLParser) (parsed : Statement) :
  exists self', process_statement rt self parsed = Ok self'.
Proof.
  unfold process_statement.
  repeat match goal with
         | |- context [if ?b then _ else _] => destruct b
         end; eauto.
  - unfold _process_procedure.
    destruct (Re.search Pat.proc_pattern _); [|eauto].
    destruct (Re.search Pat.body_pattern _); [|eauto].
    match goal with
    | |- context [for_each (proc_with_body rt) ?l self] =>
        destruct (for_each_returns (proc_with_body rt) l) with (st := self)
          as [s1 ->]
    end.
    + intros st m. unfold proc_with_body. apply for_each_returns.
      intros st' [n q]. unfold proc_cte_body.
      destruct (parse_first_returns q) as [p ->]. simpl. eauto.
    + simpl. apply for_each_returns.
      intros st m. unfold proc_insert_body.
      destruct (parse_first_returns ("SELECT " ++ Re.group 3 m)) as [p ->].
      simpl. eauto.
  - unfold _process_cte_statement.
    destruct (Re.search Pat.cte_pattern _); [|eauto].
    apply for_each_returns. intros st [n q]. unfold cte_body.
    destruct (parse_first_returns q) as [p ->]. simpl. eauto.
  - unfold _process_merge.
    destruct (Re.findall1 Pat.merge_pattern _); [eauto|].
    destruct (Re.search Pat.using_pattern _) as [m|]; [|eauto].
    destruct (parse_first_returns (Re.group 1 m)) as [p ->]. simpl. eauto.
Qed.

(** With a [sqlparse.parse] that never returns an empty tuple, the call
    returns: the indexing of lines 32, 232, 269, 379 and 472 is the only
    place [parse_queries] can raise. *)
Lemma parse_queries_returns (sql : string) :
  exists out, parse_queries rt sql = Ok out.
Proof.
  unfold parse_queries, parse_queries_on, run_statements.
  destruct (for_each_returns (statement_body rt) (sqlparse_split rt sql))
    with (st := SQLParser_init) as [self ->].
  - intros st text. unfold statement_body.
    destruct (parse_first_returns text) as [p ->]. simpl.
    destruct (String.eqb (get_type p) "UNKNOWN"); [eauto|].
    apply process_statement_returns.
  - simpl. eauto.
Qed.
End ParseNeverEmpty.

(** ** The matcher against the declarative reading *)

Lemma take_app_length (w rest : string) :
  take (String.length w) (w ++ rest) = w.
Proof.
  induction w as [|a w IH]; simpl; [now destruct rest | now rewrite IH].
Qed.

Lemma drop_app_length (w rest : string) :
  drop (String.length w) (w ++ rest) = rest.
Proof.
  induction w as [|a w IH]; simpl; [reflexivity | exact IH].
Qed.

Lemma slength_app (a b : string) :
  String.length (a ++ b) = String.length a + String.length b.
Proof.
  induction a as [|x a IH]; simpl; [reflexivity | now rewrite IH].
Qed.

Lemma startswith_length (p s : string) :
  startswith p s = true -> String.length p <= String.length s.
Proof.
  revert s. induction p as [|a p IH]; intros [|b s]; simpl; intros H;
    try lia; try discriminate.
  apply andb_true_iff in H. destruct H as [_ H]. apply IH in H. lia.
Qed.

Lemma smap_length (f : ascii -> ascii) (s : string) :
  String.length (smap f s) = String.length s.
Proof.
  induction s as [|a s IH]; simpl; [reflexivity | now rewrite IH].
Qed.

Lemma lit_match_length (ic : bool) (p s : string) :
  Re.lit_match ic p s = true -> String.length p <= String.length s.
Proof.
  unfold Re.lit_match. destruct ic; intros H; apply startswith_length in H.
  - unfold lower in H. now rewrite !smap_length in H.
  - exact H.
Qed.

Lemma take_drop_length (n : nat) (s : string) :
  n <= String.length s -> String.length (take n s) = n.
Proof.
  revert s. induction n as [|n IH]; intros [|a s]; simpl; intros H;
    try reflexivity; try lia.
  rewrite IH; [reflexivity | lia].
Qed.

Section Soundness.
Context {R : Type}.

Lemma starG_sound (p : ascii -> bool) (s : string) :
  forall n c (k : string -> nat -> Re.caps -> option R) x,
    Re.starG p s n c k = Some x ->
    exists w rest,
      s = w ++ rest /\ forall_chars p w = true /\
      k rest (n + String.length w) c = Some x.
Proof.
  induction s as [|a s IH]; intros n c k x H; simpl in H.
  - exists EmptyString, EmptyString. simpl. now rewrite Nat.add_0_r.
  - destruct (p a) eqn:Ea.
    + destruct (Re.starG p s (S n) c k) as [y|] eqn:E.
      * injection H as <-. apply IH in E.
        destruct E as [w [rest [-> [Hw Hk]]]].
        exists (String a w), rest. simpl. rewrite Ea, Hw.
        repeat split. now rewrite <- Nat.add_succ_comm.
      * exists EmptyString, (String a s). simpl. now rewrite Nat.add_0_r.
    + exists EmptyString, (String a s). simpl. now rewrite Nat.add_0_r.
Qed.

Lemma starL_sound (p : ascii -> bool) (s : string) :
  forall n c (k : string -> nat -> Re.caps -> option R) x,
    Re.starL p s n c k = Some x ->
    exists w rest,
      s = w ++ rest /\ forall_chars p w = true /\
      k rest (n + String.length w) c = Some x.
Proof.
  induction s as [|a s IH]; intros n c k x H; simpl in H.
  - destruct (k EmptyString n c) as [y|] eqn:E; [|discriminate].
    injection H as <-. exists EmptyString, EmptyString. simpl.
    now rewrite Nat.add_0_r.
  - destruct (k (String a s) n c) as [y|] eqn:E.
    + injection H as <-. exists EmptyString, (String a s). simpl.
      now rewrite Nat.add_0_r.
    + destruct (p a) eqn:Ea; [|discriminate].
      apply IH in H. destruct H as [w [rest [-> [Hw Hk]]]].
      exists (String a w), rest. simpl. rewrite Ea, Hw.
      repeat split. now rewrite <- Nat.add_succ_comm.
Qed.
End Soundness.

(** Whatever the matcher finds is a match: the text splits into the part
    consumed and the part handed on, the count advances by the length of the
    former, and the groups are those of the declarative reading. *)
Lemma exec_sound (r : Re.regex) :
  forall (R : Type) s n c (k : string -> nat -> Re.caps -> option R) x,
    Re.exec r R s n c k = Some x ->
    exists w rest c',
      s = w ++ rest /\ Matches r w rest c c' /\
      k rest (n + String.length w) c' = Some x.
Proof.
  induction r as [| ic p | p | r1 IH1 r2 IH2 | r1 IH1 r2 IH2 | p | p
                  | g r1 IH1 | r1 IH1 | ]; intros R s n c k x H; simpl in H.
  - exists EmptyString, s, c. simpl. rewrite Nat.add_0_r.
    repeat split; [constructor | assumption].
  - destruct (Re.lit_match ic p s) eqn:E; [|discriminate].
    pose proof (lit_match_length _ _ _ E) as Hlen.
    exists (take (String.length p) s), (drop (String.length p) s), c.
    rewrite <- take_drop. rewrite take_drop_length by assumption.
    repeat split; [|assumption].
    constructor.
    + now rewrite <- take_drop.
    + now apply take_drop_length.
  - destruct s as [|a s]; [discriminate|].
    destruct (p a) eqn:Ea; [|discriminate].
    exists (String a EmptyString), s, c. simpl.
    rewrite Nat.add_1_r. repeat split; [now constructor | assumption].
  - apply IH1 in H. destruct H as [w1 [rest1 [c1 [-> [M1 H]]]]].
    apply IH2 in H. destruct H as [w2 [rest [c2 [-> [M2 H]]]]].
    exists (w1 ++ w2), rest, c2.
    rewrite slength_app, Nat.add_assoc.
    repeat split; [| econstructor; eassumption | assumption].
    clear. induction w1 as [|a w1 IH]; simpl; [reflexivity | now rewrite IH].
  - destruct (Re.exec r1 R s n c k) as [y|] eqn:E.
    + injection H as <-. apply IH1 in E.
      destruct E as [w [rest [c' [-> [M E]]]]].
      exists w, rest, c'. repeat split; [now apply M_AltL | assumption].
    + apply IH2 in H. destruct H as [w [rest [c' [-> [M E']]]]].
      exists w, rest, c'. repeat split; [now apply M_AltR | assumption].
  - apply starG_sound in H. destruct H as [w [rest [-> [Hw H]]]].
    exists w, rest, c. repeat split; [now constructor | assumption].
  - apply starL_sound in H. destruct H as [w [rest [-> [Hw H]]]].
    exists w, rest, c. repeat split; [now constructor | assumption].
  - apply IH1 in H. destruct H as [w [rest [c' [-> [M H]]]]].
    exists w, rest, ((g, w) :: c').
    repeat split; [now constructor|].
    replace (n + String.length w - n) with (String.length w) in H by lia.
    now rewrite take_app_length in H.
  - destruct (Re.exec r1 Re.caps s n c (fun _ _ c' => Some c')) as [c1|] eqn:E;
      [|discriminate].
    apply IH1 in E. destruct E as [w1 [rest1 [c' [-> [M E]]]]].
    injection E as <-.
    exists EmptyString, (w1 ++ rest1), c'. simpl. rewrite Nat.add_0_r.
    repeat split; [now constructor | assumption].
  - exists EmptyString, s, c. simpl. rewrite Nat.add_0_r.
    destruct s as [|a [|b s]]; try discriminate.
    + repeat split; [constructor; now left | assumption].
    + destruct (Ascii.eqb a "010") eqn:Ea; [|discriminate].
      apply Ascii.eqb_eq in Ea. subst a.
      repeat split; [constructor; now right | assumption].
Qed.

Lemma match_at_sound (r : Re.regex) (s : string) (c : Re.caps) (n : nat) :
  Re.match_at r s = Some (c, n) ->
  exists w rest, s = w ++ rest /\ Matches r w rest [] c /\ n = String.length w.
Proof.
  unfold Re.match_at. intros H. apply exec_sound in H.
  destruct H as [w [rest [c' [-> [M H]]]]]. injection H as <- <-.
  now exists w, rest.
Qed.

Lemma search_sound (r : Re.regex) (s : string) (c : Re.caps) :
  Re.search r s = Some c ->
  exists pre w rest, s = pre ++ w ++ rest /\ Matches r w rest [] c.
Proof.
  induction s as [|a s IH]; simpl.
  - destruct (Re.match_at r EmptyString) as [[c0 n]|] eqn:E; [|discriminate].
    intros H; injection H as <-. apply match_at_sound in E.
    destruct E as [w [rest [Hs [M _]]]]. now exists EmptyString, w, rest.
  - destruct (Re.match_at r (String a s)) as [[c0 n]|] eqn:E.
    + intros H; injection H as <-. apply match_at_sound in E.
      destruct E as [w [rest [Hs [M _]]]]. now exists EmptyString, w, rest.
    + intros H. apply IH in H. destruct H as [pre [w [rest [-> M]]]].
      now exists (String a pre), w, rest.
Qed.

Lemma finditer_from_sound (r : Re.regex) (s : string) :
  forall skip c,
    In c (Re.finditer_from r s skip) ->
    exists pre w rest, s = pre ++ w ++ rest /\ Matches r w rest [] c.
Proof.
  induction s as [|a s IH]; intros skip c H.
  - destruct skip; simpl in H; [|contradiction].
    destruct (Re.match_at r EmptyString) as [[c0 n]|] eqn:E; [|contradiction].
    destruct H as [<- | []]. apply match_at_sound in E.
    destruct E as [w [rest [Hs [M _]]]]. now exists EmptyString, w, rest.
  - assert (Htail : forall k, In c (Re.finditer_from r s k) ->
                exists pre w rest, String a s = pre ++ w ++ rest /\ Matches r w rest [] c).
    { intros k Hk. apply IH in Hk. destruct Hk as [pre [w [rest [-> M]]]].
      now exists (String a pre), w, rest. }
    destruct skip; simpl in H; [|now apply Htail in H].
    destruct (Re.match_at r (String a s)) as [[c0 n]|] eqn:E.
    + destruct H as [<- | H]; [|now apply Htail in H].
      apply match_at_sound in E.
      destruct E as [w [rest [Hs [M _]]]]. now exists EmptyString, w, rest.
    + now apply Htail in H.
Qed.

(** ** What a captured group can hold *)

Lemma subclass_spec (p q : ascii -> bool) (a : ascii) :
  subclass p q = true -> p a = true -> q a = true.
Proof.
  unfold subclass. rewrite forallb_forall. intros H Hp.
  specialize (H (nat_of_ascii a)). rewrite ascii_nat_embedding in H.
  rewrite Hp in H. apply H. apply in_seq. pose proof (nat_ascii_bounded a). lia.
Qed.

Lemma forall_chars_app (q : ascii -> bool) (a b : string) :
  forall_chars q (a ++ b) = forall_chars q a && forall_chars q b.
Proof.
  induction a as [|x a IH]; simpl; [reflexivity | now rewrite IH, andb_assoc].
Qed.

Lemma forall_chars_sub (p q : ascii -> bool) (w : string) :
  subclass p q = true -> forall_chars p w = true -> forall_chars q w = true.
Proof.
  intros Hs. induction w as [|a w IH]; simpl; [reflexivity|].
  rewrite !andb_true_iff. intros [Ha Hw]. split; [|now apply IH].
  now apply (subclass_spec p q).
Qed.

Lemma startswith_take (p s : string) :
  startswith p s = true -> take (String.length p) s = p.
Proof.
  revert s. induction p as [|a p IH]; intros [|b s]; simpl; intros H;
    try reflexivity; try discriminate.
  apply andb_true_iff in H. destruct H as [Hab H].
  apply Ascii.eqb_eq in Hab. subst b. now rewrite IH.
Qed.

Lemma Matches_minlen r w rest c c' :
  Matches r w rest c c' -> minlen r <= String.length w.
Proof.
  induction 1; simpl; try lia.
  - rewrite slength_app. lia.
Qed.

Lemma Matches_only (q : ascii -> bool) r w rest c c' :
  Matches r w rest c c' -> only q r = true -> forall_chars q w = true.
Proof.
  induction 1; simpl; intros Ho; try reflexivity.
  - apply andb_true_iff in Ho. destruct Ho as [Hic Hp].
    destruct ic; [discriminate|]. simpl in H.
    apply startswith_take in H. rewrite <- H0, take_app_length in H. now subst.
  - rewrite andb_true_r. now apply (subclass_spec p q).
  - apply andb_true_iff in Ho. destruct Ho as [H1 H2].
    rewrite forall_chars_app, IHMatches1, IHMatches2; auto.
  - apply andb_true_iff in Ho. tauto.
  - apply andb_true_iff in Ho. tauto.
  - now apply (forall_chars_sub p q).
  - now apply (forall_chars_sub p q).
  - auto.
Qed.

Section Groups.
Variable g : nat.
Variable q : ascii -> bool.

Lemma Matches_keeps r w rest c c' :
  Matches r w rest c c' -> keeps g q r = true -> all_good g q c -> all_good g q c'.
Proof.
  induction 1; simpl; intros Hk Hc; auto.
  - apply andb_true_iff in Hk. destruct Hk. auto.
  - apply andb_true_iff in Hk. destruct Hk. auto.
  - apply andb_true_iff in Hk. destruct Hk. auto.
  - apply andb_true_iff in Hk. destruct Hk as [Hk1 Hk2].
    intros t [Ht | Ht]; [|now apply (IHMatches Hk1 Hc)].
    injection Ht as <- <-. rewrite Nat.eqb_refl in Hk2. cbn [negb orb] in Hk2.
    apply andb_true_iff in Hk2. destruct Hk2 as [Hm Ho].
    assert (1 <= minlen r1) by (destruct (minlen r1); [discriminate | lia]).
    pose proof (Matches_minlen _ _ _ _ _ H) as Hl.
    unfold good. rewrite (Matches_only q _ _ _ _ _ H Ho), andb_true_r.
    destruct w; [simpl in Hl; lia | reflexivity].
Qed.

Lemma Matches_has r w rest c c' :
  Matches r w rest c c' -> has_group g c -> has_group g c'.
Proof.
  induction 1; intros Hc; auto.
  destruct (IHMatches Hc) as [t Ht]. exists t. now right.
Qed.

Lemma Matches_sets r w rest c c' :
  Matches r w rest c c' -> sets g r = true -> has_group g c'.
Proof.
  induction 1; simpl; intros Hs; try discriminate; auto.
  - apply orb_true_iff in Hs. destruct Hs as [Hs | Hs]; [|auto].
    eapply Matches_has; eauto.
  - apply andb_true_iff in Hs. destruct Hs. auto.
  - apply andb_true_iff in Hs. destruct Hs. auto.
  - apply orb_true_iff in Hs. destruct Hs as [Hs | Hs].
    + apply Nat.eqb_eq in Hs. subst. exists w. now left.
    + destruct (IHMatches Hs) as [t Ht]. exists t. now right.
Qed.

Lemma group_good (c : Re.caps) :
  all_good g q c -> has_group g c -> good q (Re.group g c) = true.
Proof.
  intros Ha [t Ht]. induction c as [|[h u] c IH]; [destruct Ht|].
  simpl. destruct (Nat.eqb g h) eqn:E.
  - apply Nat.eqb_eq in E. subst h. apply Ha. now left.
  - apply IH.
    + intros v Hv. apply Ha. now right.
    + destruct Ht as [Ht | Ht]; [|assumption].
      injection Ht as -> _. now rewrite Nat.eqb_refl in E.
Qed.

(** A pattern that always captures group [g], and only ever with a good
    text, yields a good text at every match. *)
Lemma Matches_group_good r w rest c' :
  keeps g q r = true -> sets g r = true ->
  Matches r w rest [] c' -> good q (Re.group g c') = true.
Proof.
  intros Hk Hs M. apply group_good.
  - apply (Matches_keeps _ _ _ _ _ M Hk). intros t [].
  - apply (Matches_sets _ _ _ _ _ M Hs).
Qed.

Lemma finditer_group_good (r : Re.regex) (s : string) (c : Re.caps) :
  keeps g q r = true -> sets g r = true ->
  In c (Re.finditer r s) -> good q (Re.group g c) = true.
Proof.
  intros Hk Hs H. apply finditer_from_sound in H.
  destruct H as [pre [w [rest [_ M]]]]. eapply Matches_group_good; eauto.
Qed.

Lemma search_group_good (r : Re.regex) (s : string) (c : Re.caps) :
  keeps g q r = true -> sets g r = true ->
  Re.search r s = Some c -> good q (Re.group g c) = true.
Proof.
  intros Hk Hs H. apply search_sound in H.
  destruct H as [pre [w [rest [_ M]]]]. eapply Matches_group_good; eauto.
Qed.
End Groups.

(** ** The statement loop only adds, and what it adds is well formed *)

Section Growth.
Variable rt : Runtime.
Variable nm : string -> Prop.
Hypothesis nm_name : forall t, is_name t = true -> nm t.

Lemma extends_refl (self : SQLParser) : extends nm self self.
Proof.
  repeat split; auto. exists []. now rewrite app_nil_r.
Qed.

Lemma extends_trans (a b c : SQLParser) :
  extends nm a b -> extends nm b c -> extends nm a c.
Proof.
  intros [[ab [Hab Fab]] [K1 [K2 T1]]] [[bc [Hbc Fbc]] [K3 [K4 T2]]].
  repeat split; auto.
  - exists (ab ++ bc)%list. rewrite Hbc, Hab, app_assoc. split; [reflexivity|].
    apply Forall_app. now split.
  - intros k Hk. destruct (K4 k Hk) as [H | H]; auto.
Qed.

Lemma extends_keys_ok (a b : SQLParser) :
  extends nm a b -> keys_ok nm a -> keys_ok nm b.
Proof.
  intros [_ [_ [K _]]] Ha k Hk. destruct (K k Hk); auto.
Qed.

Lemma extends_append (self : SQLParser) (r : TableRelation) :
  well_formed nm r -> extends nm self (append_relation self r).
Proof.
  intros Hr. repeat split; auto. exists [r]. split; [reflexivity|].
  now constructor.
Qed.

Lemma dict_set_keys {V : Type} (k : string) (v : V) (d : Dict.t V) (x : string) :
  In x (Dict.keys (Dict.set k v d)) <-> In x (Dict.keys d) \/ x = k.
Proof.
  unfold Dict.keys. induction d as [|[k' v'] d IH]; simpl.
  - intuition.
  - destruct (String.eqb_spec k k') as [->|Hne]; simpl.
    + intuition.
    + rewrite IH. intuition.
Qed.

Lemma extends_set_cte (self : SQLParser) (k : string) (v : list Column) :
  nm k -> extends nm self (set_cte self k v).
Proof.
  intros Hk. repeat split; simpl; auto.
  - exists []. now rewrite app_nil_r.
  - intros x Hx. apply dict_set_keys. now left.
  - intros x Hx. apply dict_set_keys in Hx. destruct Hx as [Hx | ->]; auto.
Qed.

Lemma extends_add_table (self : SQLParser) (t : string) :
  extends nm self (add_table self t).
Proof.
  repeat split; simpl; auto.
  - exists []. now rewrite app_nil_r.
  - intros x Hx. destruct (existsb (String.eqb t) (tables self)); [assumption|].
    apply in_or_app. now left.
Qed.

(** A loop that appends one well-formed relation per element. *)
Lemma extends_fold {A : Type} (f : SQLParser -> A -> SQLParser) (l : list A) :
  (forall st x, In x l -> keys_ok nm st -> extends nm st (f st x)) ->
  forall self, keys_ok nm self -> extends nm self (fold_left f l self).
Proof.
  induction l as [|x l IH]; intros Hf self Hk; simpl; [apply extends_refl|].
  assert (E : extends nm self (f self x)) by (apply Hf; [now left | assumption]).
  eapply extends_trans; [exact E|]. apply IH.
  - intros st y Hy. apply Hf. now right.
  - eapply extends_keys_ok; eauto.
Qed.

Lemma extends_for_each {A : Type} (body : SQLParser -> A -> result SQLParser)
      (l : list A) :
  (forall st x st', In x l -> keys_ok nm st -> body st x = Ok st' ->
                    extends nm st st') ->
  forall self self',
    keys_ok nm self -> for_each body l self = Ok self' -> extends nm self self'.
Proof.
  induction l as [|x l IH]; intros Hb self self' Hk H; simpl in H.
  - injection H as <-. apply extends_refl.
  - apply bind_ok in H. destruct H as [st [H1 H2]].
    assert (E : extends nm self st) by (eapply Hb; eauto; now left).
    eapply extends_trans; [exact E|]. eapply IH; eauto.
    + intros st0 y st1 Hy. apply Hb. now right.
    + eapply extends_keys_ok; eauto.
Qed.

Lemma findall1_names (r : Re.regex) (s t : string) :
  keeps 1 is_name_char r = true -> sets 1 r = true ->
  In t (Re.findall1 r s) -> nm t.
Proof.
  intros Hk Hs H. unfold Re.findall1 in H. apply in_map_iff in H.
  destruct H as [c [<- Hc]]. apply nm_name.
  now apply (finditer_group_good 1 is_name_char r s c).
Qed.

Lemma findall2_names (r : Re.regex) (s n q : string) :
  keeps 1 is_name_char r = true -> sets 1 r = true ->
  In (n, q) (Re.findall2 r s) -> nm n.
Proof.
  intros Hk Hs H. unfold Re.findall2 in H. apply in_map_iff in H.
  destruct H as [c [Hc Hin]]. injection Hc as <- _. apply nm_name.
  now apply (finditer_group_good 1 is_name_char r s c).
Qed.

Ltac by_analysis := vm_compute; reflexivity.

Lemma in_five (op : string) :
  op = "EXTRACT" \/ op = "TRANSFORM" \/ op = "LOAD" \/ op = "MERGE" \/ op = "AUDIT" ->
  In op five_kinds.
Proof. unfold five_kinds. simpl. intuition. Qed.

Lemma cte_source_loop_extends (cte_name : string) (cols : list Column)
      (sources : list string) (self : SQLParser) :
  nm cte_name -> (forall s, In s sources -> nm s) -> keys_ok nm self ->
  extends nm self (cte_source_loop cte_name cols sources self).
Proof.
  intros Hc Hs Hk. unfold cte_source_loop. apply extends_fold; [|assumption].
  intros st x Hx _. apply extends_append.
  repeat split; simpl; auto. apply in_five.
  destruct (Dict.mem x (ctes st)); auto.
Qed.

Lemma insert_source_loop_extends (target_table : string) (cols : list Column)
      (sources : list string) (self : SQLParser) :
  nm target_table -> (forall s, In s sources -> nm s) -> keys_ok nm self ->
  extends nm self (insert_source_loop target_table cols sources self).
Proof.
  intros Hc Hs Hk. unfold insert_source_loop. apply extends_fold; [|assumption].
  intros st x Hx _. apply extends_append.
  repeat split; simpl; auto. apply in_five. unfold insert_operation.
  destruct (_ || _); auto. destruct (contains "audit" _); auto.
Qed.

Lemma cte_reference_loop_extends (target_table select_str : string)
      (cols : list Column) (self : SQLParser) :
  nm target_table -> keys_ok nm self ->
  extends nm self (cte_reference_loop target_table select_str cols self).
Proof.
  intros Ht Hk. unfold cte_reference_loop.
  apply extends_fold; [|assumption].
  intros st x Hx _. destruct (contains x select_str); [|apply extends_refl].
  apply extends_append. repeat split; simpl; auto. apply in_five.
  destruct (negb _); auto.
Qed.

Lemma sources_names (r1 r2 : Re.regex) (text s : string) :
  keeps 1 is_name_char r1 = true -> sets 1 r1 = true ->
  keeps 1 is_name_char r2 = true -> sets 1 r2 = true ->
  In s (Re.findall1 r1 text ++ Re.findall1 r2 text)%list -> nm s.
Proof.
  intros K1 S1 K2 S2 H. apply in_app_or in H.
  destruct H as [H | H];
    [apply (findall1_names r1 text s K1 S1 H) | apply (findall1_names r2 text s K2 S2 H)].
Qed.

Lemma process_statement_extends (self self' : SQLParser) (parsed : Statement) :
  keys_ok nm self ->
  process_statement rt self parsed = Ok self' -> extends nm self self'.
Proof.
  intros Hk. unfold process_statement.
  repeat match goal with
         | |- context [if ?b then _ else _] => destruct b
         end.
  - (* procedure *)
    unfold _process_procedure.
    destruct (Re.search Pat.proc_pattern _);
      [|intros H; injection H as <-; apply extends_refl].
    destruct (Re.search Pat.body_pattern _) as [body_match|];
      [|intros H; injection H as <-; apply extends_refl].
    intros H. apply bind_ok in H. destruct H as [st [H1 H2]].
    assert (E1 : extends nm self st).
    { eapply extends_for_each; [|exact Hk|exact H1].
      intros st0 m st1 _ Hk0 Hb. unfold proc_with_body in Hb.
      eapply extends_for_each; [|exact Hk0|exact Hb].
      intros st2 [n q] st3 Hin Hk2 Hc. unfold proc_cte_body in Hc.
      apply bind_ok in Hc. destruct Hc as [p [_ Hc]]. injection Hc as <-.
      assert (Hn : nm n)
        by (eapply findall2_names; [| |exact Hin]; by_analysis).
      eapply extends_trans; [apply (extends_set_cte st2 n); exact Hn|].
      apply cte_source_loop_extends; [exact Hn| |].
      - intros s Hs. eapply sources_names; [| | | |exact Hs]; by_analysis.
      - eapply extends_keys_ok; [apply extends_set_cte; exact Hn | exact Hk2]. }
    eapply extends_trans; [exact E1|].
    eapply extends_for_each; [| |exact H2].
    + intros st0 m st1 Hin Hk0 Hb. unfold proc_insert_body in Hb.
      apply bind_ok in Hb. destruct Hb as [p [_ Hb]]. injection Hb as <-.
      assert (Ht : nm (Re.group 1 m)).
      { apply nm_name.
        apply (finditer_group_good 1 is_name_char Pat.proc_insert_pattern
                 (Re.group 1 body_match) m);
          [by_analysis | by_analysis | exact Hin]. }
      assert (E : extends nm st0
                    (insert_source_loop (Re.group 1 m)
                       (_extract_columns (stmt_str p))
                       (Re.findall1 Pat.from_pattern (Re.group 3 m)
                        ++ Re.findall1 Pat.proc_join_pattern (Re.group 3 m))%list
                       st0)).
      { apply insert_source_loop_extends; [exact Ht| |exact Hk0].
        intros s Hs. eapply sources_names; [| | | |exact Hs]; by_analysis. }
      eapply extends_trans; [exact E|].
      apply cte_reference_loop_extends; [exact Ht|].
      eapply extends_keys_ok; eauto.
    + eapply extends_keys_ok; eauto.
  - (* create table *)
    intros H; injection H as <-. unfold _process_create_table.
    destruct (Re.search Pat.table_pattern _);
      [apply extends_add_table | apply extends_refl].
  - (* bare CTE statement *)
    unfold _process_cte_statement.
    destruct (Re.search Pat.cte_pattern _) as [m|];
      [|intros H; injection H as <-; apply extends_refl].
    intros H. eapply extends_for_each; [|exact Hk|exact H].
    intros st2 [n q] st3 Hin Hk2 Hc. unfold cte_body in Hc.
    apply bind_ok in Hc. destruct Hc as [p [_ Hc]]. injection Hc as <-.
    assert (Hn : nm n)
      by (eapply findall2_names; [| |exact Hin]; by_analysis).
    eapply extends_trans; [apply (extends_set_cte st2 n); exact Hn|].
    apply cte_source_loop_extends; [exact Hn| |].
    + intros s Hs. eapply sources_names; [| | | |exact Hs]; by_analysis.
    + eapply extends_keys_ok; [apply extends_set_cte; exact Hn | exact Hk2].
  - (* INSERT *)
    intros H; injection H as <-. unfold _process_insert.
    destruct (Re.findall1 Pat.insert_pattern (stmt_str parsed))
      as [|target_table others] eqn:E; [apply extends_refl|].
    apply insert_source_loop_extends; [| |exact Hk].
    + eapply (findall1_names Pat.insert_pattern (stmt_str parsed));
        [by_analysis | by_analysis | rewrite E; now left].
    + intros s Hs. eapply sources_names; [| | | |exact Hs]; by_analysis.
  - (* MERGE *)
    unfold _process_merge.
    destruct (Re.findall1 Pat.merge_pattern (stmt_str parsed))
      as [|target_table others] eqn:E;
      [intros H; injection H as <-; apply extends_refl|].
    destruct (Re.search Pat.using_pattern _) as [m|];
      [|intros H; injection H as <-; apply extends_refl].
    intros H. apply bind_ok in H. destruct H as [p [_ H]]. injection H as <-.
    apply extends_fold; [|exact Hk].
    intros st x Hx _. apply extends_append. repeat split; simpl.
    + eapply sources_names; [| | | |exact Hx]; by_analysis.
    + eapply (findall1_names Pat.merge_pattern (stmt_str parsed));
        [by_analysis | by_analysis | rewrite E; now left].
    + apply in_five. auto.
  - (* materialized view *)
    intros H; injection H as <-. unfold _process_materialized_view.
    destruct (Re.search Pat.view_pattern (stmt_str parsed)) as [m|] eqn:E;
      [|apply extends_refl].
    apply extends_fold; [|exact Hk].
    intros st x Hx _. apply extends_append. repeat split; simpl.
    + eapply sources_names; [| | | |exact Hx]; by_analysis.
    + apply nm_name.
      apply (search_group_good 1 is_name_char Pat.view_pattern (stmt_str parsed) m);
        [by_analysis | by_analysis | exact E].
    + apply in_five. auto.
  - intros H; injection H as <-. apply extends_refl.
Qed.

Lemma run_statements_extends (self self' : SQLParser) (sql : string) :
  keys_ok nm self ->
  run_statements rt self sql = Ok self' -> extends nm self self'.
Proof.
  intros Hk H. unfold run_statements in H.
  eapply extends_for_each; [|exact Hk|exact H].
  intros st text st' _ Hk0 Hb. unfold statement_body in Hb.
  apply bind_ok in Hb. destruct Hb as [p [_ Hb]].
  destruct (String.eqb (get_type p) "UNKNOWN").
  - injection Hb as <-. apply extends_refl.
  - eapply process_statement_extends; eauto.
Qed.
End Growth.

(** ** The enrichment passes: what they add *)

Section KeepFirstMore.
Context {A K : Type}.
Variable eqbK : K -> K -> bool.
Variable f : A -> K.
Hypothesis eqbK_spec : forall a b, eqbK a b = true <-> a = b.

Lemma keep_first_app (l1 l2 : list A) :
  forall seen,
    keep_first eqbK f seen (l1 ++ l2)
    = (keep_first eqbK f seen l1
       ++ keep_first eqbK f (rev (map f (keep_first eqbK f seen l1)) ++ seen) l2)%list.
Proof.
  induction l1 as [|x l1 IH]; intros seen; simpl; [reflexivity|].
  destruct (existsb (eqbK (f x)) seen); [apply IH|].
  simpl. rewrite IH. do 2 f_equal. now rewrite <- app_assoc.
Qed.

Lemma keep_first_id (l : list A) :
  forall seen,
    NoDup (map f l) -> (forall x, In x l -> ~ In (f x) seen) ->
    keep_first eqbK f seen l = l.
Proof.
  induction l as [|x l IH]; intros seen Hnd Hs; simpl; [reflexivity|].
  inversion Hnd as [|? ? Hx Hl]; subst.
  destruct (existsb (eqbK (f x)) seen) eqn:E.
  - apply (seen_spec eqbK eqbK_spec) in E. exfalso. apply (Hs x); [now left | assumption].
  - f_equal. apply IH; [assumption|].
    intros y Hy [Heq | Hin].
    + apply Hx. rewrite Heq. now apply in_map.
    + apply (Hs y); [now right | assumption].
Qed.
End KeepFirstMore.

Lemma dedup_NoDup (l : list TableRelation) : NoDup (map key (dedup l)).
Proof.
  unfold dedup. rewrite dedup_from_keep_first.
  apply (keep_first_NoDup key_eqb key key_eqb_spec).
Qed.

(** A list without repeated keys is left as it is. *)
Lemma dedup_fixed (l : list TableRelation) :
  NoDup (map key l) -> dedup l = l.
Proof.
  intros H. unfold dedup. rewrite dedup_from_keep_first.
  apply (keep_first_id key_eqb key key_eqb_spec); [assumption | simpl; tauto].
Qed.

Lemma dedup_covers (l : list TableRelation) (r : TableRelation) :
  In r l -> exists r', In r' (dedup l) /\ key r' = key r.
Proof.
  intros H. unfold dedup. rewrite dedup_from_keep_first.
  apply (keep_first_covers key_eqb key key_eqb_spec [] l r H). simpl. tauto.
Qed.

(** The output of the second deduplication starts with the first one's. *)
Lemma dedup_unique_prefix (l rest : list TableRelation) :
  exists inferred,
    dedup (dedup l ++ rest) = (dedup l ++ inferred)%list /\
    (forall r, In r inferred -> In r rest).
Proof.
  unfold dedup at 1. rewrite dedup_from_keep_first, keep_first_app.
  rewrite (keep_first_id key_eqb key key_eqb_spec (dedup l) []);
    [|apply dedup_NoDup | simpl; tauto].
  eexists. split; [reflexivity|].
  intros r Hr. apply (keep_first_in key_eqb key key_eqb_spec) in Hr. tauto.
Qed.

Section PassShapes.
Variable rt : Runtime.
Variable nm : string -> Prop.
Hypothesis nm_audit : nm audit_table.
Hypothesis nm_set :
  forall l x, (forall y, In y l -> nm y) -> In x (set_iter rt l) -> nm x.
Variable registry : Dict.t (list Column).
Variable unique : list TableRelation.
Hypothesis unique_ends :
  forall r, In r unique -> nm (source r) /\ nm (target r).

Ltac open_pass H :=
  apply in_flat_map in H; destruct H as [rel [Hrel H]];
  match type of H with
  | In _ (if ?b then _ else _) => destruct b; [|destruct H]
  end.

Ltac open_inner H :=
  apply in_flat_map in H; destruct H as [other_rel [Hother H]];
  match type of H with
  | In _ (if ?b then _ else _) => destruct b; [|destruct H]
  end;
  destruct H as [<- | []].

Ltac shape :=
  unfold inferred_shape, well_formed; simpl;
  repeat match goal with
         | H : In ?r unique |- _ =>
             destruct (unique_ends r H) as [? ?]; clear H
         end;
  unfold five_kinds; simpl; intuition.

Lemma inferred_shapes (r : TableRelation) :
  In r (cte_relations registry unique ++ audit_relations unique
        ++ staging_relations rt unique)%list ->
  inferred_shape nm r.
Proof.
  unfold cte_relations, audit_relations, staging_relations.
  rewrite !in_app_iff.
  intros [[H | [H | H]] | [[H | H] | [H | H]]].
  - unfold cte_chaining in H. open_pass H. open_inner H. shape.
  - unfold cte_to_final_target in H. open_pass H. open_inner H. shape.
  - unfold deduplicated_to_joined_orders in H. open_pass H. open_inner H. shape.
  - unfold audit_propagation in H. open_pass H. open_inner H. shape.
  - unfold audit_trailer in H. open_pass H. destruct H as [<- | []]. shape.
  - unfold staging_propagation in H. open_pass H.
    apply in_map_iff in H. destruct H as [tgt [<- Htgt]].
    assert (nm tgt).
    { unfold final_targets in Htgt. eapply nm_set; [|exact Htgt].
      intros y Hy. apply in_map_iff in Hy. destruct Hy as [r0 [<- Hr0]].
      apply filter_In in Hr0. destruct Hr0 as [Hr0 _].
      destruct (unique_ends r0 Hr0) as [_ Ht]. exact Ht. }
    shape.
  - unfold staging_to_joined_orders in H. open_pass H. open_inner H. shape.
Qed.
End PassShapes.

(** ** Invariants of the returned relations *)

Lemma parse_queries_on_ok (rt : Runtime) (self self' : SQLParser) (sql : string)
      (out : list TableRelation) :
  parse_queries_on rt self sql = Ok (self', out) ->
  exists s1,
    run_statements rt self sql = Ok s1 /\
    self' = finish rt s1 /\
    out = dedup (all_relations rt (ctes s1) (dedup (relations s1))).
Proof.
  unfold parse_queries_on. intros H. apply bind_ok in H.
  destruct H as [s1 [H1 H2]]. injection H2 as <- <-. now exists s1.
Qed.

Lemma parse_queries_as_method (rt : Runtime) (sql : string)
      (out : list TableRelation) :
  parse_queries rt sql = Ok out ->
  exists self', parse_queries_on rt SQLParser_init sql = Ok (self', out).
Proof.
  unfold parse_queries. intros H. apply bind_ok in H.
  destruct H as [[self' o] [H1 H2]]. injection H2 as <-. now exists self'.
Qed.

Section WellFormedOutput.
Variable rt : Runtime.
Variable nm : string -> Prop.
Hypothesis nm_name : forall t, is_name t = true -> nm t.
Hypothesis nm_audit : nm audit_table.
Hypothesis nm_set :
  forall l x, (forall y, In y l -> nm y) -> In x (set_iter rt l) -> nm x.

Lemma parse_queries_on_well_formed (self self' : SQLParser) (sql : string)
      (out : list TableRelation) :
  keys_ok nm self ->
  (forall r, In r (relations self) -> well_formed nm r) ->
  parse_queries_on rt self sql = Ok (self', out) ->
  forall r, In r out -> well_formed nm r.
Proof.
  intros Hk Hself H r Hr. apply parse_queries_on_ok in H.
  destruct H as [s1 [Hrun [_ ->]]].
  pose proof (run_statements_extends rt nm nm_name self s1 sql Hk Hrun)
    as [[added [Hrel Hadd]] _].
  assert (Hu : forall x, In x (dedup (relations s1)) -> well_formed nm x).
  { intros x Hx. apply dedup_in in Hx. rewrite Hrel in Hx.
    apply in_app_or in Hx. destruct Hx as [Hx | Hx]; [now apply Hself|].
    rewrite Forall_forall in Hadd. now apply Hadd. }
  apply dedup_in in Hr. unfold all_relations in Hr.
  apply in_app_or in Hr. destruct Hr as [Hr | Hr]; [now apply Hu|].
  apply (inferred_shapes rt nm nm_audit nm_set (ctes s1)
           (dedup (relations s1))); [|exact Hr].
  intros x Hx. destruct (Hu x Hx) as [Hs [Ht _]]. now split.
Qed.
End WellFormedOutput.

(** Every returned relation carries one of the five operation kinds and an
    empty condition list. *)
Theorem returned_kinds (rt : Runtime) (sql : string) (out : list TableRelation) :
  parse_queries rt sql = Ok out ->
  forall r, In r out -> In (operation r) five_kinds /\ conditions r = [].
Proof.
  intros H r Hr. apply parse_queries_as_method in H. destruct H as [self' H].
  pose proof (parse_queries_on_well_formed rt (fun _ => True)
                (fun _ _ => I) I (fun _ _ _ _ => I)
                SQLParser_init self' sql out
                (fun k F => match F with end)
                (fun x F => match F with end) H r Hr) as [_ [_ W]].
  exact W.
Qed.

Lemma returned_kinds_witness :
  Forall (fun r => In (operation r) five_kinds /\ conditions r = [])
    [Scenario.rel "staging_customer" "dim_customer" "MERGE"
       [Scenario.col "id" None None];
     Scenario.rel "dim_customer" "etl_audit" "AUDIT" []].
Proof.
  apply Forall_forall.
  apply (returned_kinds Scenario.rt_merge_customer Scenario.merge_customer).
  vm_compute. reflexivity.
Defined.

(** Under an admissible set order, both ends of every returned relation are
    names: not empty, and made of letters, digits, underscores and dots. *)
Theorem returned_names (rt : Runtime) (sql : string) (out : list TableRelation) :
  set_iter_ok rt ->
  parse_queries rt sql = Ok out ->
  forall r, In r out -> is_name (source r) = true /\ is_name (target r) = true.
Proof.
  intros Hok H r Hr. apply parse_queries_as_method in H. destruct H as [self' H].
  pose proof (parse_queries_on_well_formed rt (fun t => is_name t = true)
                (fun t Ht => Ht) eq_refl
                (fun l x Hl Hx => Hl x (proj1 (proj2 (Hok l) x) Hx))
                SQLParser_init self' sql out
                (fun k F => match F with end)
                (fun x F => match F with end) H r Hr) as [Hs [Ht _]].
  now split.
Qed.

Lemma returned_names_witness :
  Forall (fun r => is_name (source r) = true /\ is_name (target r) = true)
    [Scenario.rel "staging_x" "t1" "TRANSFORM" [Scenario.col "a" None None];
     Scenario.rel "orders" "joined_orders" "MERGE"
       [Scenario.col "id" (Some "staging_x") None];
     Scenario.rel "joined_orders" "etl_audit" "AUDIT" [];
     Scenario.rel "staging_x" "joined_orders" "TRANSFORM"
       [Scenario.col "id" (Some "staging_x") None]].
Proof.
  apply Forall_forall.
  apply (returned_names Scenario.rt_joined Scenario.joined).
  - apply insertion_order_ok.
  - vm_compute. reflexivity.
Defined.

Lemma dict_mem_keys {V : Type} (k : string) (d : Dict.t V) :
  Dict.mem k d = true <-> In k (Dict.keys d).
Proof.
  unfold Dict.mem, Dict.keys. rewrite existsb_exists, in_map_iff. split.
  - intros [kv [Hin He]]. apply String.eqb_eq in He. exists kv. auto.
  - intros [kv [He Hin]]. exists kv. split; [assumption|].
    apply String.eqb_eq. auto.
Qed.



(** The returned sequence is the deduplicated extraction, in extraction
    order, followed by inferred relations, every one of which is a TRANSFORM
    or an AUDIT; a call on a used instance keeps every key that instance
    already held. *)
Theorem extraction_first_then_inferred (rt : Runtime) (self self' : SQLParser)
        (sql : string) (out : list TableRelation) :
  parse_queries_on rt self sql = Ok (self', out) ->
  exists s1 inferred,
    run_statements rt self sql = Ok s1 /\
    out = (dedup (relations s1) ++ inferred)%list /\
    (forall r, In r inferred ->
               operation r = "TRANSFORM" \/ operation r = "AUDIT") /\
    (forall r, In r (relations self) ->
               exists r', In r' out /\ key r' = key r).
Proof.
  intros H. apply parse_queries_on_ok in H. destruct H as [s1 [Hrun [_ ->]]].
  unfold all_relations.
  destruct (dedup_unique_prefix (relations s1)
              (cte_relations (ctes s1) (dedup (relations s1))
               ++ audit_relations (dedup (relations s1))
               ++ staging_relations rt (dedup (relations s1)))%list)
    as [inferred [Heq Hin]].
  exists s1, inferred. split; [assumption|]. split; [assumption|]. split.
  - intros r Hr. apply Hin in Hr.
    apply (inferred_shapes rt (fun _ => True) I (fun _ _ _ _ => I)
             (ctes s1) (dedup (relations s1))) in Hr; [apply Hr | now split].
  - intros r Hr.
    destruct (run_statements_extends rt (fun _ => True) (fun _ _ => I)
                self s1 sql (fun _ _ => I) Hrun) as [[added [Hrel _]] _].
    destruct (dedup_covers (relations s1) r) as [r1 [Hr1 Hk]].
    { rewrite Hrel. apply in_or_app. now left. }
    exists r1. split; [|assumption].
    rewrite Heq. apply in_or_app. now left.
Qed.

Lemma extraction_first_then_inferred_witness :
  exists s1 inferred,
    run_statements Scenario.rt_merge_customer SQLParser_init
                   Scenario.merge_customer = Ok s1 /\
    [Scenario.rel "staging_customer" "dim_customer" "MERGE"
       [Scenario.col "id" None None];
     Scenario.rel "dim_customer" "etl_audit" "AUDIT" []]
    = (dedup (relations s1) ++ inferred)%list /\
    (forall r, In r inferred ->
               operation r = "TRANSFORM" \/ operation r = "AUDIT") /\
    (forall r, In r (relations SQLParser_init) ->
               exists r',
                 In r' [Scenario.rel "staging_customer" "dim_customer" "MERGE"
                          [Scenario.col "id" None None];
                        Scenario.rel "dim_customer" "etl_audit" "AUDIT" []]
                 /\ key r' = key r).
Proof.
  refine (extraction_first_then_inferred Scenario.rt_merge_customer
            SQLParser_init _ Scenario.merge_customer _ _).
  vm_compute. reflexivity.
Defined.

(** ** The inference rules fire for every qualifying relation *)

Lemma combined_covered (rt : Runtime) (self self' : SQLParser) (sql : string)
      (out : list TableRelation) :
  parse_queries_on rt self sql = Ok (self', out) ->
  exists s1,
    run_statements rt self sql = Ok s1 /\
    (forall a, In a (relations s1) ->
               exists a', In a' (dedup (relations s1)) /\ key a' = key a) /\
    (forall r, In r (all_relations rt (ctes s1) (dedup (relations s1))) ->
               exists r', In r' out /\ key r' = key r).
Proof.
  intros H. apply parse_queries_on_ok in H. destruct H as [s1 [Hrun [_ ->]]].
  exists s1. split; [assumption|]. split.
  - intros a Ha. now apply dedup_covers.
  - intros r Hr. now apply dedup_covers.
Qed.

Lemma key_parts (a b : TableRelation) :
  key a = key b ->
  source a = source b /\ target a = target b /\ operation a = operation b.
Proof. unfold key. intros H. injection H as -> -> ->. auto. Qed.

(** Every relation extracted as a LOAD or a MERGE gives its target an AUDIT
    edge to [etl_audit] in the returned sequence. *)
Theorem audit_trailer_complete (rt : Runtime) (self self' : SQLParser)
        (sql : string) (out : list TableRelation) :
  parse_queries_on rt self sql = Ok (self', out) ->
  exists s1,
    run_statements rt self sql = Ok s1 /\
    forall rel,
      In rel (relations s1) ->
      operation rel = "LOAD" \/ operation rel = "MERGE" ->
      exists r', In r' out /\ key r' = (target rel, "etl_audit", "AUDIT").
Proof.
  intros H. destruct (combined_covered _ _ _ _ _ H) as [s1 [Hrun [Hu Hc]]].
  exists s1. split; [assumption|]. intros rel Hrel Hop.
  destruct (Hu rel Hrel) as [rel1 [H1 Hk]]. apply key_parts in Hk.
  destruct Hk as [_ [Ht Ho]].
  destruct (Hc (mk_relation (target rel1) audit_table "AUDIT" [])) as [r' [Hr' Hk']].
  - unfold all_relations, audit_relations. rewrite !in_app_iff.
    right. right. left. right.
    unfold audit_trailer. apply in_flat_map. exists rel1. split; [assumption|].
    rewrite Ho. destruct Hop as [-> | ->]; simpl; now left.
  - exists r'. split; [assumption|]. rewrite Hk'. unfold key. simpl.
    now rewrite Ht.
Qed.

Lemma audit_trailer_complete_witness :
  exists s1,
    run_statements Scenario.rt_merge_customer SQLParser_init
                   Scenario.merge_customer = Ok s1 /\
    forall rel,
      In rel (relations s1) ->
      operation rel = "LOAD" \/ operation rel = "MERGE" ->
      exists r',
        In r' [Scenario.rel "staging_customer" "dim_customer" "MERGE"
                 [Scenario.col "id" None None];
               Scenario.rel "dim_customer" "etl_audit" "AUDIT" []]
        /\ key r' = (target rel, "etl_audit", "AUDIT").
Proof.
  refine (audit_trailer_complete Scenario.rt_merge_customer SQLParser_init _
            Scenario.merge_customer _ _).
  vm_compute. reflexivity.
Defined.

(** Under an admissible set order the staging propagation is a full cross
    product, and CTE chaining and audit propagation bridge every qualifying
    pair of extracted relations. *)
Theorem pairwise_rules_complete (rt : Runtime) (self self' : SQLParser)
        (sql : string) (out : list TableRelation) :
  set_iter_ok rt ->
  parse_queries_on rt self sql = Ok (self', out) ->
  exists s1,
    run_statements rt self sql = Ok s1 /\
    forall a b,
      In a (relations s1) -> In b (relations s1) ->
      (contains "staging" (lower (source a)) = true ->
       operation b = "LOAD" ->
       exists r', In r' out /\ key r' = (source a, target b, "TRANSFORM")) /\
      (Dict.mem (target a) (ctes s1) = true ->
       source b = target a ->
       exists r', In r' out /\ key r' = (source a, target b, "TRANSFORM")) /\
      (endswith "_audit" (lower (target a)) = true ->
       target b = source a ->
       exists r', In r' out /\ key r' = (source b, target a, "AUDIT")).
Proof.
  intros Hok H. destruct (combined_covered _ _ _ _ _ H) as [s1 [Hrun [Hu Hc]]].
  exists s1. split; [assumption|]. intros a b Ha Hb.
  destruct (Hu a Ha) as [a1 [Ha1 Hka]]. apply key_parts in Hka.
  destruct Hka as [Hsa [Hta Hoa]].
  destruct (Hu b Hb) as [b1 [Hb1 Hkb]]. apply key_parts in Hkb.
  destruct Hkb as [Hsb [Htb Hob]].
  split; [|split].
  - intros Hst Hload.
    destruct (Hc (mk_relation (source a1) (target b1) "TRANSFORM" (columns a1)))
      as [r' [Hr' Hk']].
    + unfold all_relations, staging_relations. rewrite !in_app_iff.
      right. right. right. left.
      unfold staging_propagation. apply in_flat_map. exists a1.
      split; [assumption|]. rewrite Hsa, Hst. apply in_map_iff.
      exists (target b1). split; [reflexivity|].
      unfold final_targets. apply (Hok _). apply in_map. apply filter_In.
      split; [assumption|]. rewrite Hob, Hload. reflexivity.
    + exists r'. split; [assumption|]. rewrite Hk'. unfold key. simpl.
      now rewrite Hsa, Htb.
  - intros Hreg Hsrc.
    destruct (Hc (mk_relation (source a1) (target b1) "TRANSFORM" (columns b1)))
      as [r' [Hr' Hk']].
    + unfold all_relations, cte_relations. rewrite !in_app_iff.
      right. left. left.
      unfold cte_chaining. apply in_flat_map. exists a1.
      split; [assumption|]. rewrite Hta, Hreg. apply in_flat_map. exists b1.
      split; [assumption|]. rewrite Hsb, Hsrc, String.eqb_refl. now left.
    + exists r'. split; [assumption|]. rewrite Hk'. unfold key. simpl.
      now rewrite Hsa, Htb.
  - intros Haud Htgt.
    destruct (Hc (mk_relation (source b1) (target a1) "AUDIT" (columns a1)))
      as [r' [Hr' Hk']].
    + unfold all_relations, audit_relations. rewrite !in_app_iff.
      right. right. left. left.
      unfold audit_propagation. apply in_flat_map. exists a1.
      split; [assumption|]. rewrite Hta, Haud. apply in_flat_map. exists b1.
      split; [assumption|]. rewrite Htb, Hsa, Htgt, String.eqb_refl. now left.
    + exists r'. split; [assumption|]. rewrite Hk'. unfold key. simpl.
      now rewrite Hsb, Hta.
Qed.

Lemma pairwise_rules_complete_witness :
  let x := [Scenario.col "x" None None] in
  let out :=
    [Scenario.rel "t1" "a" "LOAD" x;
     Scenario.rel "t2" "b" "LOAD" x;
     Scenario.rel "staging_s" "c" "TRANSFORM" x;
     Scenario.rel "a" "etl_audit" "AUDIT" [];
     Scenario.rel "b" "etl_audit" "AUDIT" [];
     Scenario.rel "staging_s" "a" "TRANSFORM" x;
     Scenario.rel "staging_s" "b" "TRANSFORM" x] in
  exists s1,
    run_statements (Scenario.rt_two_loads insertion_order) SQLParser_init
                   Scenario.two_loads = Ok s1 /\
    forall a b,
      In a (relations s1) -> In b (relations s1) ->
      (contains "staging" (lower (source a)) = true ->
       operation b = "LOAD" ->
       exists r', In r' out /\ key r' = (source a, target b, "TRANSFORM")) /\
      (Dict.mem (target a) (ctes s1) = true ->
       source b = target a ->
       exists r', In r' out /\ key r' = (source a, target b, "TRANSFORM")) /\
      (endswith "_audit" (lower (target a)) = true ->
       target b = source a ->
       exists r', In r' out /\ key r' = (source b, target a, "AUDIT")).
Proof.
  cbv zeta.
  refine (pairwise_rules_complete (Scenario.rt_two_loads insertion_order)
            SQLParser_init _ Scenario.two_loads _
            (insertion_order_ok _ _) _).
  vm_compute. reflexivity.
Defined.

(** ** The set order decides the order of the result, not its content *)

Section FirstOfKey.
Context {A K : Type}.
Variable eqbK : K -> K -> bool.
Variable f : A -> K.
Hypothesis eqbK_spec : forall a b, eqbK a b = true <-> a = b.

(** A relation is kept exactly when it is the first of its key. *)
Lemma keep_first_find (l : list A) :
  forall seen x,
    In x (keep_first eqbK f seen l) <->
    ~ In (f x) seen /\ find (fun y => eqbK (f y) (f x)) l = Some x.
Proof.
  induction l as [|y l IH]; intros seen x; simpl.
  - split; [tauto | intros [_ H]; discriminate].
  - destruct (existsb (eqbK (f y)) seen) eqn:E.
    + apply (seen_spec eqbK eqbK_spec) in E. rewrite IH.
      destruct (eqbK (f y) (f x)) eqn:Eyx.
      * apply eqbK_spec in Eyx. rewrite <- Eyx. split; [tauto|].
        intros [Hn _]. contradiction.
      * tauto.
    + assert (Hny : ~ In (f y) seen).
      { intros Hin. apply (seen_spec eqbK eqbK_spec) in Hin. congruence. }
      simpl. rewrite IH. simpl.
      destruct (eqbK (f y) (f x)) eqn:Eyx.
      * apply eqbK_spec in Eyx. split.
        -- intros [-> | [Hn _]]; [split; [assumption | reflexivity]|].
           exfalso. apply Hn. now left.
        -- intros [_ H]. injection H as ->. now left.
      * split.
        -- intros [-> | [Hn H]].
           ++ assert (eqbK (f x) (f x) = true) by now apply eqbK_spec.
              congruence.
           ++ split; [|assumption]. intros Hin. apply Hn. now right.
        -- intros [Hn H]. right. split; [|assumption].
           intros [Heq | Hin]; [|contradiction].
           assert (eqbK (f y) (f x) = true) by now apply eqbK_spec.
           congruence.
Qed.
End FirstOfKey.

Lemma find_app {A : Type} (p : A -> bool) (l1 l2 : list A) :
  find p (l1 ++ l2)
  = match find p l1 with Some x => Some x | None => find p l2 end.
Proof.
  induction l1 as [|x l1 IH]; simpl; [reflexivity|].
  destruct (p x); [reflexivity | exact IH].
Qed.

(** The first relation of a given key among those the staging propagation
    builds for one source depends on the target set only through
    membership. *)
Lemma find_staging_targets (src : string) (cols : list Column)
      (k : string * string * string) (targets : list string) :
  find (fun y => key_eqb (key y) k)
       (map (fun tgt => mk_relation src tgt "TRANSFORM" cols) targets)
  = if String.eqb src (fst (fst k)) && String.eqb "TRANSFORM" (snd k)
       && existsb (String.eqb (snd (fst k))) targets
    then Some (mk_relation src (snd (fst k)) "TRANSFORM" cols)
    else None.
Proof.
  destruct k as [[s t] o]. simpl fst. simpl snd.
  induction targets as [|tgt targets IH]; cbn [map find existsb].
  - now rewrite andb_false_r.
  - rewrite IH.
    replace (key_eqb (key (mk_relation src tgt "TRANSFORM" cols)) (s, t, o))
      with (String.eqb src s && String.eqb tgt t && String.eqb "TRANSFORM" o)
      by reflexivity.
    destruct (String.eqb_spec src s) as [->|Hs]; cbn [andb]; [|reflexivity].
    destruct (String.eqb_spec tgt t) as [->|Ht]; cbn [andb].
    + rewrite String.eqb_refl. cbn [orb].
      destruct (String.eqb "TRANSFORM" o); cbn [andb]; reflexivity.
    + destruct (String.eqb_spec t tgt) as [->|Ht']; [congruence|].
      cbn [orb]. reflexivity.
Qed.

Lemma existsb_same_members (t : string) (l1 l2 : list string) :
  (forall x, In x l1 <-> In x l2) ->
  existsb (String.eqb t) l1 = existsb (String.eqb t) l2.
Proof.
  intros H.
  destruct (existsb (String.eqb t) l1) eqn:E1;
    destruct (existsb (String.eqb t) l2) eqn:E2; try reflexivity.
  - apply existsb_exists in E1. destruct E1 as [x [Hx He]].
    apply String.eqb_eq in He. subst x. apply H in Hx.
    assert (existsb (String.eqb t) l2 = true)
      by (apply existsb_exists; exists t; split; [assumption | apply String.eqb_refl]).
    congruence.
  - apply existsb_exists in E2. destruct E2 as [x [Hx He]].
    apply String.eqb_eq in He. subst x. apply H in Hx.
    assert (existsb (String.eqb t) l1 = true)
      by (apply existsb_exists; exists t; split; [assumption | apply String.eqb_refl]).
    congruence.
Qed.

Lemma find_staging_flat (T1 T2 : list string) (l : list TableRelation)
      (k : string * string * string) :
  (forall x, In x T1 <-> In x T2) ->
  find (fun y => key_eqb (key y) k)
       (flat_map (fun rel =>
          if contains "staging" (lower (source rel)) then
            map (fun tgt => mk_relation (source rel) tgt "TRANSFORM" (columns rel)) T1
          else []) l)
  = find (fun y => key_eqb (key y) k)
         (flat_map (fun rel =>
            if contains "staging" (lower (source rel)) then
              map (fun tgt => mk_relation (source rel) tgt "TRANSFORM" (columns rel)) T2
            else []) l).
Proof.
  intros HT. induction l as [|rel l IH]; cbn [flat_map]; [reflexivity|].
  rewrite !find_app.
  destruct (contains "staging" (lower (source rel))); [|exact IH].
  rewrite !find_staging_targets, (existsb_same_members _ T1 T2 HT), IH.
  reflexivity.
Qed.

Lemma find_staging_propagation (rt1 rt2 : Runtime) (unique : list TableRelation)
      (k : string * string * string) :
  set_iter_ok rt1 -> set_iter_ok rt2 ->
  find (fun y => key_eqb (key y) k) (staging_propagation rt1 unique)
  = find (fun y => key_eqb (key y) k) (staging_propagation rt2 unique).
Proof.
  intros H1 H2. unfold staging_propagation. apply find_staging_flat.
  intros x. unfold final_targets.
  rewrite (proj2 (H1 _) x), (proj2 (H2 _) x). tauto.
Qed.

Lemma run_statements_ignores_set_order
      (sp : string -> list string) (pa : string -> list Statement)
      (si1 si2 : list string -> list string) (self : SQLParser) (sql : string) :
  run_statements {| sqlparse_split := sp; sqlparse_parse := pa; set_iter := si1 |}
                 self sql
  = run_statements {| sqlparse_split := sp; sqlparse_parse := pa; set_iter := si2 |}
                   self sql.
Proof. reflexivity. Qed.

(** Two runs that get the same answers from [sqlparse], each under an
    admissible set order, return the same relations, possibly in a
    different order. *)
Theorem set_order_only_reorders (rt1 rt2 : Runtime) (sql : string)
        (out1 out2 : list TableRelation) :
  set_iter_ok rt1 -> set_iter_ok rt2 ->
  sqlparse_split rt1 = sqlparse_split rt2 ->
  sqlparse_parse rt1 = sqlparse_parse rt2 ->
  parse_queries rt1 sql = Ok out1 ->
  parse_queries rt2 sql = Ok out2 ->
  Permutation out1 out2.
Proof.
  intros Hok1 Hok2 Hsp Hpa H1 H2.
  apply parse_queries_ok in H1. destruct H1 as [s1 [Hrun1 ->]].
  apply parse_queries_ok in H2. destruct H2 as [s2 [Hrun2 ->]].
  assert (s1 = s2).
  { destruct rt1 as [sp1 pa1 si1], rt2 as [sp2 pa2 si2].
    simpl in Hsp, Hpa. subst sp2 pa2.
    rewrite (run_statements_ignores_set_order sp1 pa1 si1 si2) in Hrun1.
    congruence. }
  subst s2.
  assert (Hnd : forall l, NoDup (dedup l)).
  { intros l. apply (NoDup_map_inv key). apply dedup_NoDup. }
  apply NoDup_Permutation; [apply Hnd | apply Hnd |].
  intros x. unfold dedup at 1 3. rewrite !dedup_from_keep_first.
  rewrite !(keep_first_find key_eqb key key_eqb_spec).
  unfold all_relations, staging_relations. rewrite !find_app.
  rewrite (find_staging_propagation rt1 rt2 _ (key x) Hok1 Hok2).
  tauto.
Qed.

Lemma set_order_only_reorders_witness :
  let x := [Scenario.col "x" None None] in
  let common :=
    [Scenario.rel "t1" "a" "LOAD" x;
     Scenario.rel "t2" "b" "LOAD" x;
     Scenario.rel "staging_s" "c" "TRANSFORM" x;
     Scenario.rel "a" "etl_audit" "AUDIT" [];
     Scenario.rel "b" "etl_audit" "AUDIT" []] in
  let to_a := Scenario.rel "staging_s" "a" "TRANSFORM" x in
  let to_b := Scenario.rel "staging_s" "b" "TRANSFORM" x in
  Permutation (common ++ [to_a; to_b]) (common ++ [to_b; to_a]).
Proof.
  cbv zeta.
  apply (set_order_only_reorders (Scenario.rt_two_loads insertion_order)
           (Scenario.rt_two_loads reverse_order) Scenario.two_loads).
  - apply insertion_order_ok.
  - apply reverse_order_ok.
  - reflexivity.
  - reflexivity.
  - vm_compute. reflexivity.
  - vm_compute. reflexivity.
Defined.

(** ** The two table classifiers *)

(** The Renderer's classifier is the Extractor's with the categories
    [audit] and [procedure] folded into [transform]. *)
Theorem classifiers_agree_up_to_audit (table_name : string) :
  Visualizer._determine_table_type table_name
  = (let t := Extractor._determine_table_type table_name in
     if String.eqb t "audit" || String.eqb t "procedure" then "transform" else t).
Proof.
  unfold Visualizer._determine_table_type, Extractor._determine_table_type.
  cbv zeta.
  repeat match goal with
         | |- context [if contains ?w ?n then _ else _] =>
             destruct (contains w n)
         end; reflexivity.
Qed.

(** ** Node identifiers *)

Lemma smap_app (f : ascii -> ascii) (a b : string) :
  smap f (a ++ b) = smap f a ++ smap f b.
Proof.
  induction a as [|x a IH]; simpl; [reflexivity | now rewrite IH].
Qed.

Lemma node_id_char (c : ascii) :
  plain_char
    ((fun c => if Ascii.eqb c "-"%char then "_"%char else c)
       ((fun c => if Ascii.eqb c "."%char then "_"%char else c) c)) = true.
Proof.
  unfold plain_char. simpl.
  destruct (Ascii.eqb_spec c ".") as [->|Hd]; [reflexivity|].
  destruct (Ascii.eqb_spec c "-") as [->|Hh]; [reflexivity|].
  apply Ascii.eqb_neq in Hd, Hh. now rewrite Hd, Hh.
Qed.

(** A node identifier holds no dot and no hyphen and has the length of the
    name; a name without dots and hyphens is its own identifier, so
    sanitizing twice changes nothing; and names that differ only in which of
    [.], [-], [_] stands at some place share one identifier. *)
Theorem node_id_sanitized (table_name : string) :
  forall_chars plain_char (_create_node_id table_name) = true
  /\ String.length (_create_node_id table_name) = String.length table_name
  /\ (forall_chars plain_char table_name = true ->
      _create_node_id table_name = table_name)
  /\ _create_node_id (_create_node_id table_name) = _create_node_id table_name
  /\ (forall a b,
        _create_node_id (a ++ "." ++ b) = _create_node_id (a ++ "_" ++ b)
        /\ _create_node_id (a ++ "-" ++ b) = _create_node_id (a ++ "_" ++ b)).
Proof.
  assert (H1 : forall s, forall_chars plain_char (_create_node_id s) = true).
  { intros s. unfold _create_node_id, replace_char.
    induction s as [|c s IH]; simpl; [reflexivity|].
    rewrite IH, andb_true_r. apply node_id_char. }
  assert (H3 : forall s, forall_chars plain_char s = true -> _create_node_id s = s).
  { intros s. unfold _create_node_id, replace_char.
    induction s as [|c s IH]; simpl; [reflexivity|].
    rewrite andb_true_iff. intros [Hc Hs]. rewrite (IH Hs).
    unfold plain_char in Hc. apply andb_true_iff in Hc. destruct Hc as [Hd Hh].
    apply negb_true_iff in Hd, Hh. now rewrite Hd, Hh. }
  split; [apply H1|]. split.
  - unfold _create_node_id, replace_char. now rewrite !smap_length.
  - split; [apply H3|]. split; [apply H3, H1|].
    intros a b. unfold _create_node_id, replace_char.
    rewrite !smap_app. split; reflexivity.
Qed.

Lemma node_id_sanitized_witness :
  _create_node_id "sales-2024.orders" = "sales_2024_orders"
  /\ _create_node_id "staging_orders" = "staging_orders".
Proof.
  split.
  - reflexivity.
  - apply (proj1 (proj2 (proj2 (node_id_sanitized "staging_orders")))).
    reflexivity.
Defined.

(** ** The graph description as a whole *)

Lemma visit_types (st : NodePass) (n : string) (c : option (list Column)) :
  table_types (visit st n c)
  = if existsb (String.eqb n) (nodes_seen st) then table_types st
    else Dict.set (_create_node_id n) (Visualizer._determine_table_type n)
                  (table_types st).
Proof.
  unfold visit. now destruct (existsb (String.eqb n) (nodes_seen st)).
Qed.

Lemma visits_types (apps : list (string * option (list Column))) :
  forall st,
    table_types (fold_left (fun st a => visit st (fst a) (snd a)) apps st)
    = fold_left
        (fun d a => Dict.set (_create_node_id (fst a))
                             (Visualizer._determine_table_type (fst a)) d)
        (keep_first String.eqb fst (nodes_seen st) apps)
        (table_types st).
Proof.
  induction apps as [|[n c] apps IH]; intros st; [reflexivity|].
  cbn [fold_left keep_first fst snd]. rewrite IH, visit_types, visit_seen.
  destruct (existsb (String.eqb n) (nodes_seen st)); [reflexivity|].
  cbn [fold_left fst]. f_equal.
  apply keep_first_ext. intros k. rewrite existsb_app. simpl.
  now rewrite orb_false_r, orb_comm.
Qed.

Lemma fold_append {A B : Type} (g : A -> B) (l : list A) :
  forall code, fold_left (fun code x => (code ++ [g x])%list) l code
               = (code ++ map g l)%list.
Proof.
  induction l as [|x l IH]; intros code; simpl.
  - now rewrite app_nil_r.
  - rewrite IH, <- app_assoc. reflexivity.
Qed.

Lemma dict_set_NoDup {V : Type} (k : string) (v : V) (d : Dict.t V) :
  NoDup (Dict.keys d) -> NoDup (Dict.keys (Dict.set k v d)).
Proof.
  unfold Dict.keys. induction d as [|[k' v'] d IH]; simpl; intros H.
  - constructor; [tauto | constructor].
  - inversion H as [|? ? Hk Hd]; subst.
    destruct (String.eqb_spec k k') as [->|Hne]; simpl.
    + now constructor.
    + constructor; [|now apply IH].
      intros Hin. apply (dict_set_keys k v d k') in Hin.
      destruct Hin as [Hin | Heq]; [now apply Hk | congruence].
Qed.

Lemma dict_set_entries {V : Type} (k : string) (v : V) (d : Dict.t V)
      (k0 : string) (v0 : V) :
  In (k0, v0) (Dict.set k v d) -> In (k0, v0) d \/ (k0 = k /\ v0 = v).
Proof.
  induction d as [|[k' v'] d IH]; simpl.
  - intros [H | []]. injection H as <- <-. now right.
  - destruct (String.eqb_spec k k') as [->|Hne]; simpl.
    + intros [H | H]; [injection H as <- <-; now right | left; now right].
    + intros [H | H]; [left; now left|].
      destruct (IH H) as [H' | H']; [left; now right | now right].
Qed.

Section TypesFold.
Variable idf tyf : string -> string.

Lemma types_fold_facts (names : list (string * option (list Column))) :
  forall d,
    let d' := fold_left (fun d a => Dict.set (idf (fst a)) (tyf (fst a)) d) names d in
    (NoDup (Dict.keys d) -> NoDup (Dict.keys d')) /\
    (forall k, In k (Dict.keys d) -> In k (Dict.keys d')) /\
    (forall a, In a names -> In (idf (fst a)) (Dict.keys d')) /\
    (forall k v, In (k, v) d' ->
                 In (k, v) d \/
                 exists a, In a names /\ k = idf (fst a) /\ v = tyf (fst a)) /\
    List.length d' <= List.length d + List.length names.
Proof.
  induction names as [|a names IH]; intros d; cbn zeta; cbn [fold_left].
  - repeat split; simpl; auto; try tauto; try lia.
  - specialize (IH (Dict.set (idf (fst a)) (tyf (fst a)) d)). cbn zeta in IH.
    destruct IH as [I1 [I2 [I3 [I4 I5]]]].
    split; [|split; [|split; [|split]]].
    + intros H. apply I1. now apply dict_set_NoDup.
    + intros k Hk. apply I2. apply dict_set_keys. now left.
    + intros b [<- | Hb]; [|now apply I3].
      apply I2. apply dict_set_keys. now right.
    + intros k v H. destruct (I4 k v H) as [H' | [b [Hb Hkv]]].
      * apply dict_set_entries in H'. destruct H' as [H' | [-> ->]]; [now left|].
        right. exists a. split; [now left | now split].
      * right. exists b. split; [now right | assumption].
    + assert (List.length (Dict.set (idf (fst a)) (tyf (fst a)) d)
              <= S (List.length d)).
      { clear. induction d as [|[k' v'] d IH]; simpl; [lia|].
        destruct (String.eqb _ k'); simpl; lia. }
      simpl. lia.
Qed.
End TypesFold.

Lemma first_seen_names (rels : list TableRelation) (n : string) :
  In n (map fst (first_seen rels)) <->
  exists r, In r rels /\ (source r = n \/ target r = n).
Proof.
  assert (Hspec : forall a b : string, String.eqb a b = true <-> a = b)
    by (intros; apply String.eqb_eq).
  rewrite <- appearances_names. unfold first_seen. rewrite !in_map_iff. split.
  - intros [a [Ha Hin]].
    apply (keep_first_in String.eqb fst Hspec) in Hin. exists a. tauto.
  - intros [a [Ha Hin]].
    destruct (keep_first_covers String.eqb fst Hspec [] _ a Hin) as [b [Hb Hk]];
      [simpl; tauto|].
    exists b. split; [congruence | assumption].
Qed.

Lemma node_pass_types (rels : list TableRelation) (code : list string)
      (types : Dict.t string) :
  table_types (node_pass rels {| mermaid_code := code; nodes_seen := [];
                                 table_types := types |})
  = fold_left
      (fun d a => Dict.set (_create_node_id (fst a))
                           (Visualizer._determine_table_type (fst a)) d)
      (first_seen rels) types.
Proof.
  rewrite node_pass_visits, visits_types. reflexivity.
Qed.

(** The description is the header, one node line per table name, a blank
    line, one edge line per relation in sequence order, a blank line and one
    class line per node identifier.  The identifiers of the class lines are
    pairwise distinct and cover both ends of every relation; each class is
    the category of a table name that has that identifier; and there are at
    most as many class lines as node lines. *)
Theorem diagram_structure (rels : list TableRelation) :
  Diagram.generate_lines rels
  = (Diagram.header ++ node_lines rels ++ [EmptyString]
     ++ map Diagram.edge_line rels ++ [EmptyString]
     ++ map Diagram.class_line (Diagram.node_types rels))%list
  /\ NoDup (Dict.keys (Diagram.node_types rels))
  /\ (forall r, In r rels ->
        Dict.mem (_create_node_id (source r)) (Diagram.node_types rels) = true /\
        Dict.mem (_create_node_id (target r)) (Diagram.node_types rels) = true)
  /\ (forall id type,
        In (id, type) (Diagram.node_types rels) ->
        exists r name,
          In r rels /\ (name = source r \/ name = target r) /\
          id = _create_node_id name /\
          type = Visualizer._determine_table_type name)
  /\ List.length (Diagram.node_types rels) <= List.length (node_lines rels).
Proof.
  pose proof (types_fold_facts _create_node_id Visualizer._determine_table_type
                (first_seen rels) []) as F.
  cbn zeta in F. destruct F as [F1 [_ [F3 [F4 F5]]]].
  assert (Hty : Diagram.node_types rels
                = fold_left
                    (fun d a => Dict.set (_create_node_id (fst a))
                                         (Visualizer._determine_table_type (fst a)) d)
                    (first_seen rels) [])
    by apply node_pass_types.
  assert (Hnames : forall r name, In r rels -> name = source r \/ name = target r ->
                     exists a, In a (first_seen rels) /\ fst a = name).
  { intros r name Hr Hn.
    assert (In name (map fst (first_seen rels))).
    { apply first_seen_names.
      exists r. split; [assumption|]. destruct Hn as [-> | ->]; auto. }
    apply in_map_iff in H. destruct H as [a [Ha Hin]]. now exists a. }
  split; [|split; [|split; [|split]]].
  - unfold Diagram.generate_lines, Diagram.generate_lines_on. cbv zeta.
    rewrite !fold_append, node_pass_lines, node_pass_types.
    unfold node_lines. rewrite node_pass_lines. cbn [mermaid_code nodes_seen].
    rewrite Hty. fold (first_seen rels). cbn [node_pass_init mermaid_code app].
    now rewrite <- !app_assoc.
  - rewrite Hty. apply F1. constructor.
  - intros r Hr. rewrite Hty, !dict_mem_keys. split.
    + destruct (Hnames r (source r) Hr (or_introl eq_refl)) as [a [Ha <-]].
      now apply F3.
    + destruct (Hnames r (target r) Hr (or_intror eq_refl)) as [a [Ha <-]].
      now apply F3.
  - intros id type H. rewrite Hty in H.
    destruct (F4 id type H) as [[] | [a [Ha [-> ->]]]].
    assert (In (fst a) (map fst (first_seen rels))) by now apply in_map.
    apply first_seen_names in H0.
    destruct H0 as [r [Hr Hn]]. exists r, (fst a).
    repeat split; auto. destruct Hn; auto.
  - rewrite Hty. unfold node_lines. rewrite node_pass_lines.
    cbn [node_pass_init mermaid_code nodes_seen app]. rewrite length_map.
    fold (first_seen rels). simpl in F5. exact F5.
Qed.

Lemma diagram_structure_witness :
  (Dict.mem (_create_node_id "dim.customer")
            (Diagram.node_types Sample.colliding) = true /\
   Dict.mem (_create_node_id "dim_customer")
            (Diagram.node_types Sample.colliding) = true)
  /\ List.length (Diagram.node_types Sample.colliding) = 1
  /\ List.length (node_lines Sample.colliding) = 2.
Proof.
  split; [|split; reflexivity].
  apply (proj1 (proj2 (proj2 (diagram_structure Sample.colliding)))
           (Scenario.rel "dim.customer" "dim_customer" "LOAD" [])).
  now left.
Defined.

(** ** Statements that contribute nothing *)

Lemma finish_nothing (rt : Runtime) (self : SQLParser) :
  relations self = [] -> relations (finish rt self) = [].
Proof.
  intros H. unfold finish. simpl. rewrite H. reflexivity.
Qed.

(** When every statement of the input is typed UNKNOWN (a comment), or
    holds the words CREATE TABLE and names no procedure, the result is the
    empty sequence: such statements add no relation and no CTE, and the
    passes infer nothing from nothing.  An empty input is the case of no
    statement at all. *)
Theorem ddl_and_comments_yield_nothing (rt : Runtime) (sql : string) :
  (forall text, In text (sqlparse_split rt sql) ->
     exists p rest,
       sqlparse_parse rt text = p :: rest /\
       (get_type p = "UNKNOWN" \/
        (contains "CREATE TABLE" (stmt_str p) = true /\
         contains "CREATE PROCEDURE" (stmt_str p) = false /\
         contains "CREATE OR REPLACE PROCEDURE" (stmt_str p) = false))) ->
  parse_queries rt sql = Ok [].
Proof.
  intros H. unfold parse_queries, parse_queries_on, run_statements.
  assert (Hloop : forall l self,
             (forall text, In text l -> In text (sqlparse_split rt sql)) ->
             relations self = [] ->
             exists self', for_each (statement_body rt) l self = Ok self'
                           /\ relations self' = []).
  { induction l as [|text l IH]; intros self Hl Hrel; simpl.
    - now exists self.
    - destruct (H text (Hl text (or_introl eq_refl))) as [p [rest [Hp Hcase]]].
      unfold statement_body at 1, parse_first. rewrite Hp. cbn [bind].
      assert (Hstep : exists st, (if String.eqb (get_type p) "UNKNOWN"
                                  then Ok self
                                  else process_statement rt self p) = Ok st
                                 /\ relations st = []).
      { destruct Hcase as [-> | [Hc [Hp1 Hp2]]].
        - exists self. now split.
        - destruct (String.eqb (get_type p) "UNKNOWN"); [now exists self|].
          unfold process_statement. rewrite Hp1, Hp2, Hc. cbn [orb].
          eexists. split; [reflexivity|].
          unfold _process_create_table.
          destruct (Re.search Pat.table_pattern (stmt_str p)); assumption. }
      destruct Hstep as [st [-> Hst]]. cbn [bind]. apply IH; [|assumption].
      intros t Ht. apply Hl. now right. }
  destruct (Hloop (sqlparse_split rt sql) SQLParser_init) as [self' [-> Hrel]];
    [auto | reflexivity |].
  cbn [bind snd]. now rewrite finish_nothing.
Qed.

Lemma ddl_and_comments_yield_nothing_witness :
  parse_queries Sample.rt_ddl_only Sample.ddl_only = Ok [].
Proof.
  apply ddl_and_comments_yield_nothing.
  intros text [<- | [<- | []]].
  - eexists. eexists. split; [reflexivity|]. right. repeat split; reflexivity.
  - eexists. eexists. split; [reflexivity|]. left. reflexivity.
Defined.

(** ** Deduplication composes *)

(** Deduplicating twice is deduplicating once; and what [parse_queries]
    returns is already deduplicated. *)
Theorem dedup_idempotent (l : list TableRelation) :
  dedup (dedup l) = dedup l
  /\ (forall rt sql out, parse_queries rt sql = Ok out -> dedup out = out).
Proof.
  split.
  - apply dedup_fixed, dedup_NoDup.
  - intros rt sql out H. apply parse_queries_ok in H.
    destruct H as [self [_ ->]]. apply dedup_fixed, dedup_NoDup.
Qed.

Lemma dedup_idempotent_witness :
  dedup [Scenario.rel "staging_customer" "dim_customer" "MERGE"
           [Scenario.col "id" None None];
         Scenario.rel "dim_customer" "etl_audit" "AUDIT" []]
  = [Scenario.rel "staging_customer" "dim_customer" "MERGE"
       [Scenario.col "id" None None];
     Scenario.rel "dim_customer" "etl_audit" "AUDIT" []].
Proof.
  apply (proj2 (dedup_idempotent []) Scenario.rt_merge_customer
               Scenario.merge_customer).
  vm_compute. reflexivity.
Defined.

(** ** Substring tests *)

Lemma startswith_iff (p s : string) :
  startswith p s = true <-> exists rest, s = p ++ rest.
Proof.
  revert s. induction p as [|a p IH]; intros s; simpl.
  - split; [intros _; now exists s | reflexivity].
  - destruct s as [|b s].
    + split; [discriminate | intros [rest H]; discriminate].
    + rewrite andb_true_iff, Ascii.eqb_eq, IH. split.
      * intros [-> [rest ->]]. now exists rest.
      * intros [rest H]. injection H as -> ->. split; [reflexivity | now exists rest].
Qed.

(** Python's [t in s] is [occurs_in]. *)
Lemma contains_iff (t s : string) : contains t s = true <-> occurs_in t s.
Proof.
  induction s as [|a s IH].
  - simpl. rewrite orb_false_r, startswith_iff. split.
    + intros [rest H]. exists EmptyString, rest. exact H.
    + intros [pre [post H]]. destruct pre; [now exists post | discriminate].
  - cbn [contains]. rewrite orb_true_iff, startswith_iff, IH. split.
    + intros [[rest H] | [pre [post H]]].
      * exists EmptyString, rest. exact H.
      * exists (String a pre), post. simpl. now rewrite H.
    + intros [pre [post H]]. destruct pre as [|b pre].
      * left. now exists post.
      * right. simpl in H. injection H as _ H. now exists pre, post.
Qed.

Lemma contains_app_l (t a b : string) :
  contains t a = true -> contains t (a ++ b) = true.
Proof.
  rewrite !contains_iff. intros [pre [post ->]].
  exists pre, (post ++ b). now rewrite !sapp_assoc.
Qed.

Lemma contains_app_r (t a b : string) :
  contains t b = true -> contains t (a ++ b) = true.
Proof.
  rewrite !contains_iff. intros [pre [post ->]].
  exists (a ++ pre), post. now rewrite !sapp_assoc.
Qed.

(** ** Unbalanced parentheses in the projection list *)

Lemma contains_cons_false (t : string) (c : ascii) (s : string) :
  contains t (String c s) = false ->
  startswith t (String c s) = false /\ contains t s = false.
Proof.
  cbn [contains]. intros H. now apply orb_false_iff in H.
Qed.

Lemma split_loop_negative (t : string) :
  forall d cur raw,
    (d < 0)%Z -> contains "(" t = false ->
    split_loop t d cur raw = (cur ++ t, raw).
Proof.
  induction t as [|c t IH]; intros d cur raw Hd Hc; simpl.
  - now rewrite sapp_nil_r.
  - apply contains_cons_false in Hc. destruct Hc as [Hs Hc].
    simpl in Hs. rewrite andb_true_r in Hs.
    assert (E : Ascii.eqb c "(" = false)
      by (rewrite Ascii.eqb_sym; exact Hs).
    rewrite E.
    replace (cur ++ String c t) with ((cur ++ String c EmptyString) ++ t)
      by (rewrite sapp_assoc; reflexivity).
    destruct (Ascii.eqb c ")"); [apply IH; [lia | assumption]|].
    replace (d =? 0)%Z with false by (symmetry; apply Z.eqb_neq; lia).
    rewrite andb_false_r. now apply IH.
Qed.

(** The depth counter is not clamped: once an expression has closed more
    parentheses than it opened, no later comma splits until a parenthesis is
    opened again; with none in the rest of the list, the whole list is one
    expression. *)
Theorem unmatched_close_stops_splitting (e t : string) (d : Z) :
  depth_scan e 0 = Some d -> (d < 0)%Z -> contains "(" t = false ->
  split_columns (e ++ t) = [strip (e ++ t)].
Proof.
  intros He Hd Ht. unfold split_columns.
  rewrite (split_loop_scan e t 0 d EmptyString [] He).
  rewrite (split_loop_negative t d _ [] Hd Ht). cbn [append].
  destruct e as [|c e]; [simpl in He; injection He as <-; lia|].
  reflexivity.
Qed.

Lemma unmatched_close_stops_splitting_witness :
  split_columns "a), b, c" = ["a), b, c"].
Proof.
  apply (unmatched_close_stops_splitting "a)" ", b, c" (-1)); reflexivity.
Defined.

(** ** White space around names *)

Lemma rstrip_idem (s : string) : rstrip (rstrip s) = rstrip s.
Proof.
  induction s as [|c s IH]; [reflexivity|].
  cbn [rstrip]. destruct (rstrip s) as [|d t] eqn:E.
  - destruct (is_space c) eqn:Ec; [reflexivity|].
    cbn [rstrip]. now rewrite Ec.
  - cbn [rstrip]. cbn [rstrip] in IH. rewrite IH. reflexivity.
Qed.

Lemma rstrip_head (c : ascii) (s : string) :
  is_space c = false -> exists t, rstrip (String c s) = String c t.
Proof.
  intros Hc. cbn [rstrip]. destruct (rstrip s); [rewrite Hc|]; eauto.
Qed.

Lemma lstrip_head (s : string) :
  lstrip s = EmptyString \/
  exists c t, lstrip s = String c t /\ is_space c = false.
Proof.
  induction s as [|c s IH]; simpl; [now left|].
  destruct (is_space c) eqn:E; [exact IH|]. right. now exists c, s.
Qed.

Lemma strip_idem (s : string) : strip (strip s) = strip s.
Proof.
  unfold strip. destruct (lstrip_head s) as [-> | [c [t [-> Hc]]]]; [reflexivity|].
  destruct (rstrip_head c t Hc) as [u Hu]. rewrite Hu.
  cbn [lstrip]. rewrite Hc, <- Hu. apply rstrip_idem.
Qed.

Lemma split_loop_stripped (l : string) :
  forall d cur raw,
    Forall (fun p => strip p = p) raw ->
    Forall (fun p => strip p = p) (snd (split_loop l d cur raw)).
Proof.
  induction l as [|c l IH]; intros d cur raw H; simpl; [assumption|].
  destruct (Ascii.eqb c "("); [now apply IH|].
  destruct (Ascii.eqb c ")"); [now apply IH|].
  destruct (Ascii.eqb c "," && (d =? 0)%Z); [|now apply IH].
  apply IH. apply Forall_app. split; [assumption|].
  constructor; [apply strip_idem | constructor].
Qed.

(** No projection expression, column name or source table comes out with
    white space at either end. *)
Theorem projection_is_stripped (sql_str : string) :
  Forall (fun p => strip p = p) (
    match Re.search Pat.select_pattern sql_str with
    | Some m => split_columns (Re.group 1 m)
    | None => []
    end)
  /\ forall c, In c (_extract_columns sql_str) ->
       strip (name c) = name c /\
       forall t, source_table c = Some t -> strip t = t.
Proof.
  split.
  - destruct (Re.search Pat.select_pattern sql_str) as [m|]; [|constructor].
    unfold split_columns.
    pose proof (split_loop_stripped (Re.group 1 m) 0 EmptyString [] (Forall_nil _)) as H.
    destruct (split_loop (Re.group 1 m) 0 EmptyString []) as [cur raw].
    simpl in H. destruct (nonempty cur); [|assumption].
    apply Forall_app. split; [assumption|].
    constructor; [apply strip_idem | constructor].
  - intros c Hc. unfold _extract_columns in Hc.
    destruct (Re.search Pat.select_pattern sql_str) as [m|]; [|destruct Hc].
    apply in_map_iff in Hc. destruct Hc as [col [<- _]].
    unfold column_of.
    destruct (if has_alias col then split_once " AS " (upper col)
              else (col, if contains "." col then last_segment "." col else col))
      as [expr nm].
    cbn [name source_table]. split; [apply strip_idem|].
    intros t. destruct (contains "." expr); [|discriminate].
    intros H; injection H as <-. apply strip_idem.
Qed.

Lemma projection_is_stripped_witness :
  strip (name (column_of "t.amount   AS   total"))
  = name (column_of "t.amount   AS   total").
Proof.
  apply (proj2 (projection_is_stripped
                  "SELECT   t.amount   AS   total   FROM t")).
  vm_compute. now left.
Defined.

(** ** Statements without the keywords *)

Lemma lower_app (a b : string) : lower (a ++ b) = lower a ++ lower b.
Proof. apply smap_app. Qed.

Lemma startswith_lower_take (q s : string) :
  startswith (lower q) (lower s) = true ->
  lower (take (String.length q) s) = lower q.
Proof.
  revert s. induction q as [|a q IH]; intros [|b s]; simpl; intros H;
    try reflexivity; try discriminate.
  apply andb_true_iff in H. destruct H as [Hab H].
  apply Ascii.eqb_eq in Hab. unfold lower in *. simpl.
  now rewrite <- Hab, IH.
Qed.

Lemma Matches_needs (p : string) r w rest c c' :
  Matches r w rest c c' -> needs p r = true ->
  contains (lower p) (lower w) = true.
Proof.
  induction 1; simpl; intros Hn; try discriminate.
  - assert (Hw : lower w = lower p0).
    { destruct ic; simpl in H.
      - apply startswith_lower_take in H.
        now rewrite <- H0, take_app_length in H.
      - apply startswith_take in H.
        rewrite <- H0, take_app_length in H. now subst. }
    now rewrite Hw.
  - rewrite lower_app. apply orb_true_iff in Hn. destruct Hn as [Hn | Hn].
    + apply contains_app_l. auto.
    + apply contains_app_r. auto.
  - apply andb_true_iff in Hn. destruct Hn. auto.
  - apply andb_true_iff in Hn. destruct Hn. auto.
  - auto.
Qed.

(** A pattern finds nothing in a text that lacks one of its keywords. *)
Lemma finditer_needs (p : string) (r : Re.regex) (s : string) :
  needs p r = true -> contains (lower p) (lower s) = false ->
  Re.finditer r s = [].
Proof.
  intros Hn Hs. destruct (Re.finditer r s) as [|c l] eqn:E; [reflexivity|].
  assert (Hc : In c (Re.finditer r s)) by (rewrite E; now left).
  apply finditer_from_sound in Hc. destruct Hc as [pre [w [rest [-> M]]]].
  apply (Matches_needs p) in M; [|assumption].
  rewrite !lower_app in Hs.
  rewrite (contains_app_r _ _ _ (contains_app_l _ _ _ M)) in Hs. discriminate.
Qed.

Lemma search_needs (p : string) (r : Re.regex) (s : string) :
  needs p r = true -> contains (lower p) (lower s) = false ->
  Re.search r s = None.
Proof.
  intros Hn Hs. destruct (Re.search r s) as [c|] eqn:E; [|reflexivity].
  apply search_sound in E. destruct E as [pre [w [rest [-> M]]]].
  apply (Matches_needs p) in M; [|assumption].
  rewrite !lower_app in Hs.
  rewrite (contains_app_r _ _ _ (contains_app_l _ _ _ M)) in Hs. discriminate.
Qed.

(** A text that holds no FROM in any letter case has no projected columns;
    a stand-alone INSERT, a MERGE or a materialized view whose text holds
    neither FROM nor JOIN leaves the instance as it found it. *)
Theorem no_from_no_lineage (rt : Runtime) (self : SQLParser) (parsed : Statement) :
  contains "from" (lower (stmt_str parsed)) = false ->
  _extract_columns (stmt_str parsed) = []
  /\ (contains "join" (lower (stmt_str parsed)) = false ->
      _process_insert self parsed = self
      /\ _process_materialized_view self parsed = self).
Proof.
  intros Hf. split.
  - unfold _extract_columns.
    now rewrite (search_needs "FROM" Pat.select_pattern _ eq_refl Hf).
  - intros Hj.
    assert (F : Re.findall1 Pat.from_pattern (stmt_str parsed) = []).
    { unfold Re.findall1.
      now rewrite (finditer_needs "FROM" Pat.from_pattern _ eq_refl Hf). }
    assert (J : Re.findall1 Pat.join_pattern (stmt_str parsed) = []).
    { unfold Re.findall1.
      now rewrite (finditer_needs "JOIN" Pat.join_pattern _ eq_refl Hj). }
    split.
    + unfold _process_insert. rewrite F, J.
      now destruct (Re.findall1 Pat.insert_pattern (stmt_str parsed)).
    + unfold _process_materialized_view. rewrite F, J.
      now destruct (Re.search Pat.view_pattern (stmt_str parsed)).
Qed.

Lemma no_from_no_lineage_witness :
  _extract_columns Sample.insert_values = []
  /\ _process_insert SQLParser_init
       {| stmt_str := Sample.insert_values; get_type := "INSERT" |}
     = SQLParser_init.
Proof.
  destruct (no_from_no_lineage Sample.rt_insert_values SQLParser_init
              {| stmt_str := Sample.insert_values; get_type := "INSERT" |}
              eq_refl) as [Hc Hi].
  split; [exact Hc | exact (proj1 (Hi eq_refl))].
Defined.

(** ** Matching a CTE name against the text of a column list *)

Lemma contains_refl (t : string) : contains t t = true.
Proof. apply contains_iff, occurs_in_refl. Qed.

Lemma of_column_labels (c : Column) (w : string) :
  In w repr_labels -> contains w (Repr.of_column c) = true.
Proof.
  unfold repr_labels, Repr.of_column. cbn [In].
  intros [<- | [<- | [<- | []]]].
  - apply contains_app_l, contains_refl.
  - do 2 apply contains_app_r. apply contains_app_l, contains_refl.
  - do 4 apply contains_app_r. apply contains_app_l, contains_refl.
Qed.

Lemma of_columns_labels (cols : list Column) (w : string) :
  cols <> [] -> In w repr_labels -> contains w (Repr.of_columns cols) = true.
Proof.
  intros Hne Hw. destruct cols as [|c cols]; [congruence|].
  unfold Repr.of_columns. apply contains_app_r, contains_app_l.
  cbn [map]. pose proof (of_column_labels c w Hw) as H.
  destruct (map Repr.of_column cols) as [|x l]; cbn [join]; [exact H|].
  now apply contains_app_l.
Qed.

Lemma contains_trans (a b c : string) :
  contains a b = true -> contains b c = true -> contains a c = true.
Proof.
  rewrite !contains_iff. apply occurs_in_trans.
Qed.

(** The bridging pass looks a CTE name up in the printed form of a column
    list, field labels included: a registered CTE whose name occurs in one of
    the labels is bridged to the target of every LOAD relation that has at
    least one column, whatever the columns are. *)
Theorem label_named_cte_is_bridged (registry : Dict.t (list Column))
        (unique : list TableRelation) (a b : TableRelation) (w : string) :
  In a unique -> In b unique ->
  Dict.mem (target a) registry = true ->
  operation b = "LOAD" -> columns b <> [] ->
  In w repr_labels -> contains (target a) w = true ->
  In (mk_relation (target a) (target b) "TRANSFORM" (columns b))
     (cte_to_final_target registry unique).
Proof.
  intros Ha Hb Hreg Hop Hcols Hw Hcw.
  unfold cte_to_final_target. apply in_flat_map. exists a.
  split; [assumption|]. rewrite Hreg. apply in_flat_map. exists b.
  split; [assumption|]. rewrite Hop, String.eqb_refl.
  rewrite (contains_trans _ _ _ Hcw (of_columns_labels _ _ Hcols Hw)).
  now left.
Qed.

Lemma label_named_cte_is_bridged_witness :
  let a := Scenario.rel "orders" "name" "EXTRACT" [] in
  let b := Scenario.rel "name" "fact_sales" "LOAD" [Scenario.col "id" None None] in
  In (mk_relation "name" "fact_sales" "TRANSFORM" [Scenario.col "id" None None])
     (cte_to_final_target [("name", [])] [a; b]).
Proof.
  cbv zeta.
  apply (label_named_cte_is_bridged [("name", [])] _
           (Scenario.rel "orders" "name" "EXTRACT" [])
           (Scenario.rel "name" "fact_sales" "LOAD" [Scenario.col "id" None None])
           "Column(name=").
  - now left.
  - right. now left.
  - reflexivity.
  - reflexivity.
  - discriminate.
  - now left.
  - reflexivity.
Defined.

(** ** From the extraction to the diagram *)

Lemma node_types_entries (rels : list TableRelation) (id type : string) :
  In (id, type) (Diagram.node_types rels) ->
  exists r name,
    In r rels /\ (name = source r \/ name = target r) /\
    id = _create_node_id name.
Proof.
  intros H. unfold Diagram.node_types in H.
  change node_pass_init
    with {| mermaid_code := []; nodes_seen := []; table_types := [] |} in H.
  rewrite node_pass_types in H.
  destruct (types_fold_facts _create_node_id Visualizer._determine_table_type
              (first_seen rels) []) as [_ [_ [_ [F4 _]]]].
  destruct (F4 id type H) as [[] | [a [Ha [-> _]]]].
  assert (Hn : In (fst a) (map fst (first_seen rels))) by now apply in_map.
  apply first_seen_names in Hn. destruct Hn as [r [Hr Hn]].
  exists r, (fst a). repeat split; auto. destruct Hn; auto.
Qed.

Lemma node_id_of_name (t : string) :
  is_name t = true -> good Re.is_word (_create_node_id t) = true.
Proof.
  unfold is_name, good. rewrite !andb_true_iff. intros [Hne Hch]. split.
  - destruct t; [discriminate | reflexivity].
  - unfold _create_node_id, replace_char. clear Hne.
    induction t as [|c t IH]; [reflexivity|].
    simpl in Hch. apply andb_true_iff in Hch. destruct Hch as [Hc Ht].
    cbn [smap forall_chars]. rewrite (IH Ht), andb_true_r.
    unfold is_name_char in Hc. apply orb_true_iff in Hc.
    destruct (Ascii.eqb_spec c ".") as [->|Hd]; [reflexivity|].
    destruct Hc as [Hc | Hc]; [|discriminate Hc].
    destruct (Ascii.eqb_spec c "-") as [->|Hh]; [discriminate Hc | exact Hc].
Qed.

(** Drawn from what [parse_queries] returns under an admissible set order,
    every node identifier of the diagram is a non-empty word of letters,
    digits and underscores. *)
Theorem extracted_node_ids_are_words (rt : Runtime) (sql : string)
        (out : list TableRelation) :
  set_iter_ok rt ->
  parse_queries rt sql = Ok out ->
  forall id type,
    In (id, type) (Diagram.node_types out) ->
    good Re.is_word id = true.
Proof.
  intros Hok H id type Hin.
  apply node_types_entries in Hin. destruct Hin as [r [n [Hr [Hn ->]]]].
  apply parse_queries_as_method in H. destruct H as [self' H].
  pose proof (parse_queries_on_well_formed rt (fun t => is_name t = true)
                (fun t Ht => Ht) eq_refl
                (fun l x Hl Hx => Hl x (proj1 (proj2 (Hok l) x) Hx))
                SQLParser_init self' sql out
                (fun k F => match F with end)
                (fun x F => match F with end) H r Hr) as [Hs [Ht _]].
  apply node_id_of_name. destruct Hn as [-> | ->]; assumption.
Qed.

Lemma extracted_node_ids_are_words_witness :
  Forall (fun entry => good Re.is_word (fst entry) = true)
    (Diagram.node_types
       [Scenario.rel "staging_customer" "dim_customer" "MERGE"
          [Scenario.col "id" None None];
        Scenario.rel "dim_customer" "etl_audit" "AUDIT" []]).
Proof.
  apply Forall_forall. intros [id type].
  apply (extracted_node_ids_are_words Scenario.rt_merge_customer
           Scenario.merge_customer).
  - apply insertion_order_ok.
  - vm_compute. reflexivity.
Defined.

(** ** Column projection: alias and case *)

Lemma upper_app (a b : string) : upper (a ++ b) = upper a ++ upper b.
Proof. apply smap_app. Qed.

Lemma is_space_upper (c : ascii) : is_space (upper_char c) = is_space c.
Proof. destruct c as [[] [] [] [] [] [] [] []]; reflexivity. Qed.

Lemma is_dot_upper (c : ascii) :
  Ascii.eqb (upper_char c) "."%char = Ascii.eqb c "."%char.
Proof. destruct c as [[] [] [] [] [] [] [] []]; reflexivity. Qed.

Lemma dot_is_upper (c : ascii) :
  Ascii.eqb "."%char (upper_char c) = Ascii.eqb "."%char c.
Proof. destruct c as [[] [] [] [] [] [] [] []]; reflexivity. Qed.

Lemma lstrip_upper (s : string) : lstrip (upper s) = upper (lstrip s).
Proof.
  induction s as [|c s IH]; [reflexivity|].
  unfold upper in *. cbn [smap lstrip]. rewrite is_space_upper.
  destruct (is_space c); [exact IH | reflexivity].
Qed.

Lemma rstrip_upper (s : string) : rstrip (upper s) = upper (rstrip s).
Proof.
  induction s as [|c s IH]; [reflexivity|].
  unfold upper in *. cbn [smap rstrip]. rewrite IH, is_space_upper.
  destruct (rstrip s); cbn [smap]; [destruct (is_space c)|]; reflexivity.
Qed.

Lemma strip_upper (s : string) : strip (upper s) = upper (strip s).
Proof. unfold strip. now rewrite lstrip_upper, rstrip_upper. Qed.

Lemma first_segment_upper (s : string) :
  first_segment "."%char (upper s) = upper (first_segment "."%char s).
Proof.
  induction s as [|c s IH]; [reflexivity|].
  unfold upper in *. cbn [smap first_segment]. rewrite is_dot_upper.
  destruct (Ascii.eqb c "."%char); cbn [smap]; [reflexivity | now rewrite IH].
Qed.

Lemma contains_dot_upper (s : string) : contains "." (upper s) = contains "." s.
Proof.
  induction s as [|c s IH]; [reflexivity|].
  unfold upper in *. cbn [smap contains startswith]. now rewrite IH, dot_is_upper.
Qed.

(** [startswith] only reads as many characters as the prefix has. *)
Lemma startswith_short (p x y : string) :
  (String.length p <= String.length x)%nat ->
  startswith p (x ++ y) = startswith p x.
Proof.
  revert x. induction p as [|a p IH]; intros [|b x]; simpl; intros H;
    try reflexivity; try lia.
  rewrite IH by lia. reflexivity.
Qed.

Lemma startswith_app (p s : string) : startswith p (p ++ s) = true.
Proof. apply startswith_iff. now exists s. Qed.

Lemma split_once_eq (sep s : string) :
  split_once sep s =
  if startswith sep s then (EmptyString, drop (String.length sep) s)
  else match s with
       | EmptyString => (EmptyString, EmptyString)
       | String c s' => let '(a, b) := split_once sep s' in (String c a, b)
       end.
Proof. destruct s; reflexivity. Qed.

(** [split(sep, 1)] cuts at the first occurrence: when [sep] does not start
    anywhere inside [e], the parts of [e ++ sep ++ n] are [e] and [n]. *)
Lemma split_once_first (sep e n : string) :
  contains sep (e ++ take (String.length sep - 1) sep) = false ->
  split_once sep (e ++ sep ++ n) = (e, n).
Proof.
  induction e as [|c e IH]; intros H.
  - cbn [append]. rewrite split_once_eq, startswith_app, drop_app_length.
    reflexivity.
  - cbn [append] in *. apply contains_cons_false in H. destruct H as [Hs Hc].
    rewrite split_once_eq.
    assert (Hno : startswith sep (String c (e ++ sep ++ n)) = false).
    { rewrite <- Hs.
      replace (String c (e ++ sep ++ n))
        with (String c (e ++ take (String.length sep - 1) sep)
                ++ drop (String.length sep - 1) sep ++ n).
      - apply startswith_short. cbn [String.length]. rewrite slength_app.
        destruct sep as [|a sep]; [cbn; lia|].
        rewrite take_drop_length; cbn [String.length]; lia.
      - cbn [append]. f_equal. rewrite sapp_assoc. f_equal.
        rewrite <- sapp_assoc. f_equal. symmetry. apply take_drop. }
    rewrite Hno, (IH Hc). reflexivity.
Qed.

Lemma contains_too_short (t s : string) :
  (String.length s < String.length t)%nat -> contains t s = false.
Proof.
  intros H. destruct (contains t s) eqn:E; [|reflexivity].
  apply contains_iff in E. destruct E as [pre [post ->]].
  rewrite !slength_app in H. lia.
Qed.

(** The first occurrence of a text that occurs. *)
Lemma first_occurrence (t s : string) :
  t <> EmptyString ->
  contains t s = true ->
  exists a b, s = a ++ t ++ b /\
              contains t (a ++ take (String.length t - 1) t) = false.
Proof.
  intros Ht. induction s as [|c s IH]; intros H.
  - cbn [contains] in H. rewrite orb_false_r in H.
    apply startswith_length in H. destruct t; [congruence | simpl in H; lia].
  - cbn [contains] in H. destruct (startswith t (String c s)) eqn:Es.
    + apply startswith_iff in Es. destruct Es as [rest ->].
      exists EmptyString, rest. split; [reflexivity|].
      cbn [append]. apply contains_too_short.
      destruct t as [|a t]; [congruence|].
      rewrite take_drop_length; cbn [String.length]; lia.
    + cbn [orb] in H. destruct (IH H) as [a [b [-> Hno]]].
      exists (String c a), b. split; [reflexivity|].
      cbn [append contains]. rewrite Hno, orb_false_r.
      rewrite <- Es.
      replace (String c (a ++ t ++ b))
        with (String c (a ++ take (String.length t - 1) t)
                ++ drop (String.length t - 1) t ++ b).
      * symmetry. apply startswith_short. cbn [String.length].
        rewrite slength_app.
        destruct t as [|x t]; [congruence|].
        rewrite take_drop_length; cbn [String.length]; lia.
      * cbn [append]. f_equal. rewrite sapp_assoc. f_equal.
        rewrite <- sapp_assoc. f_equal. symmetry. apply take_drop.
Qed.

(** A text whose uppercase form is a concatenation is itself one. *)
Lemma upper_split (s a b : string) :
  upper s = a ++ b ->
  exists x y, s = x ++ y /\ upper x = a /\ upper y = b.
Proof.
  revert s. induction a as [|c a IH]; intros s H.
  - exists EmptyString, s. auto.
  - destruct s as [|d s]; [discriminate|].
    unfold upper in *. cbn [smap append] in H. injection H as Hd Hs.
    destruct (IH s Hs) as [x [y [-> [Hx Hy]]]].
    exists (String d x), y. cbn [smap append]. rewrite Hd, Hx. auto.
Qed.

(** Every aliased expression is [e ++ sep ++ n] around its first alias
    token, written in any case. *)
Lemma alias_parts (col : string) :
  has_alias col = true ->
  exists e sep n,
    col = e ++ sep ++ n /\ upper sep = " AS " /\
    contains " AS " (upper e ++ " AS") = false.
Proof.
  unfold has_alias. intros H.
  apply first_occurrence in H; [|discriminate].
  destruct H as [a [b [Hcol Hno]]].
  apply upper_split in Hcol. destruct Hcol as [e [r [-> [He Hr]]]].
  apply upper_split in Hr. destruct Hr as [sep [n [-> [Hsep Hn]]]].
  exists e, sep, n. rewrite He. auto.
Qed.

Lemma contains_dot_app (q n : string) : contains "." (q ++ "." ++ n) = true.
Proof. apply contains_app_r. reflexivity. Qed.

(** Every dotted text is [q ++ "." ++ n] around its last dot. *)
Lemma last_dot_parts (col : string) :
  contains "." col = true ->
  exists q n, col = q ++ "." ++ n /\ contains "." n = false.
Proof.
  induction col as [|c s IH]; intros H; [discriminate|].
  destruct (contains "." s) eqn:E.
  - destruct (IH eq_refl) as [q [n [-> Hn]]].
    exists (String c q), n. auto.
  - cbn [contains] in H. rewrite E, orb_false_r in H.
    apply startswith_iff in H. destruct H as [rest H].
    cbn [append] in H. injection H as -> ->.
    exists EmptyString, rest. auto.
Qed.

Lemma last_segment_app (q n : string) :
  contains "." n = false -> last_segment "."%char (q ++ "." ++ n) = n.
Proof.
  intros Hn. induction q as [|c q IH].
  - cbn [append last_segment]. rewrite Hn. reflexivity.
  - pose proof (contains_dot_app q n) as Hc.
    cbn [append last_segment] in *. rewrite Hc. exact IH.
Qed.

Lemma first_segment_app (q n : string) :
  first_segment "."%char (q ++ "." ++ n) = first_segment "."%char q.
Proof.
  induction q as [|c q IH]; [reflexivity|].
  cbn [append first_segment] in *. now rewrite IH.
Qed.

(** C10. A projection expression with an alias token is [e ++ sep ++ n],
    [sep] being [ AS ] in any case and the first such token.  Its column is
    computed from the uppercased text: the name is the uppercased alias
    [n], the source table (when [e] has a dot) is the uppercased text before
    the first dot of [e], and a recorded transformation is the uppercased
    [e].  An expression without an alias keeps its case: the name is the
    text after the last dot (the whole text without a dot), the source table
    the text before the first dot, and a recorded transformation the
    expression as written.  Every expression is of one of these forms. *)
Theorem C10_alias_uppercases :
  (forall e sep n : string,
     upper sep = " AS " ->
     contains " AS " (upper e ++ " AS") = false ->
     has_alias (e ++ sep ++ n) = true /\
     column_of (e ++ sep ++ n) =
       {| name := upper (strip n);
          source_table :=
            if contains "." e
            then Some (upper (strip (first_segment "."%char e))) else None;
          transformation :=
            if existsb (fun fn => contains fn (upper e)) transformation_markers
            then Some (upper e) else None |})
  /\
  (forall col : string,
     has_alias col = true ->
     exists e sep n,
       col = e ++ sep ++ n /\ upper sep = " AS " /\
       contains " AS " (upper e ++ " AS") = false)
  /\
  (forall col : string,
     has_alias col = false -> contains "." col = false ->
     column_of col =
       {| name := strip col;
          source_table := None;
          transformation :=
            if existsb (fun fn => contains fn (upper col)) transformation_markers
            then Some col else None |})
  /\
  (forall q n : string,
     has_alias (q ++ "." ++ n) = false -> contains "." n = false ->
     column_of (q ++ "." ++ n) =
       {| name := strip n;
          source_table := Some (strip (first_segment "."%char q));
          transformation :=
            if existsb (fun fn => contains fn (upper (q ++ "." ++ n)))
                       transformation_markers
            then Some (q ++ "." ++ n) else None |})
  /\
  (forall col : string,
     contains "." col = true ->
     exists q n, col = q ++ "." ++ n /\ contains "." n = false).
Proof.
  split; [|split; [|split; [|split]]].
  - intros e sep n Hsep Hfirst.
    assert (Hup : upper (e ++ sep ++ n) = upper e ++ " AS " ++ upper n)
      by now rewrite !upper_app, Hsep.
    assert (Ha : has_alias (e ++ sep ++ n) = true).
    { unfold has_alias. rewrite Hup.
      apply contains_app_r, contains_app_l, contains_refl. }
    split; [exact Ha|].
    unfold column_of. rewrite Ha, Hup.
    rewrite (split_once_first " AS " (upper e) (upper n) Hfirst).
    rewrite upper_idem, strip_upper, contains_dot_upper.
    rewrite first_segment_upper, strip_upper. reflexivity.
  - exact alias_parts.
  - intros col Ha Hd. unfold column_of. rewrite Ha, Hd. reflexivity.
  - intros q n Ha Hn. unfold column_of.
    rewrite Ha, contains_dot_app, last_segment_app, first_segment_app by exact Hn.
    reflexivity.
  - exact last_dot_parts.
Qed.

Lemma C10_alias_uppercases_witness :
  (has_alias "t.amount as total" = true /\
   column_of "t.amount as total"
   = {| name := "TOTAL"; source_table := Some "T"; transformation := None |})
  /\
  (has_alias "Sum(t.amount) As total" = true /\
   column_of "Sum(t.amount) As total"
   = {| name := "TOTAL"; source_table := Some "SUM(T";
        transformation := Some "SUM(T.AMOUNT)" |})
  /\
  column_of "Amount"
  = {| name := "Amount"; source_table := None; transformation := None |}
  /\
  column_of "Orders.Amount"
  = {| name := "Amount"; source_table := Some "Orders"; transformation := None |}.
Proof.
  destruct C10_alias_uppercases as [Halias [_ [Hplain [Hdot _]]]].
  split; [|split; [|split]].
  - exact (Halias "t.amount" " as " "total" eq_refl eq_refl).
  - exact (Halias "Sum(t.amount)" " As " "total" eq_refl eq_refl).
  - exact (Hplain "Amount" eq_refl eq_refl).
  - exact (Hdot "Orders" "Amount" eq_refl eq_refl).
Defined.
